(** * Learning assistant: client store, SSE chat client, chat page,
      similarity search, provider rotation and quiz shape.

    The development follows the repository file by file:
    - [JS]        the JavaScript values the client code handles
                  (UTF-16 strings, JSON values, truthiness);
    - [Store]     client/lib/store.ts (the Zustand store);
    - [Api]       client/lib/api.ts ([chatStream]);
    - [ChatPage]  client/app/chat/page.tsx ([handleSend]);
    - [Db]        supabase_setup.sql (tables and [match_chunks]);
    - [Rotation]  the provider rotation engine;
    - [Quiz]      client/lib/types.ts ([QuizQuestion]) and the quiz parser.

    All definitions come first; the theorems follow in the modules whose
    names end in [Facts]. *)

From Stdlib Require Import ZArith NArith QArith List String Ascii Bool Lia.
From Stdlib Require Import DecimalString.
From Stdlib Require Import Sorting.Sorted Sorting.Permutation.
From stdpp Require Import base option list gmap.

Local Open Scope nat_scope.
Set Warnings "-register-all".

(* ===================================================================== *)
(** * JavaScript values *)
(* ===================================================================== *)

Module JS.

(** A JavaScript string is a sequence of UTF-16 code units. *)
Definition jsstring : Type := list N.

(** The code units of an ASCII literal. *)
Definition js (s : String.string) : jsstring :=
  List.map N_of_ascii (list_ascii_of_string s).

(** The same with every apostrophe read as a quotation mark, to write
    JSON texts. *)
Definition quoted (s : String.string) : jsstring :=
  List.map (fun c => if N.eqb c 39 then 34%N else c) (js s).

Definition newline : N := 10%N.

Definition jsstring_eqb (a b : jsstring) : bool := bool_decide (a = b).

(** [s.startsWith(p)] *)
Fixpoint startsWith (p s : jsstring) : bool :=
  match p, s with
  | [], _ => true
  | _ :: _, [] => false
  | a :: p', b :: s' => if N.eqb a b then startsWith p' s' else false
  end.

(** [s.slice(n)] for a non-negative [n]. *)
Definition slice (n : nat) (s : jsstring) : jsstring := drop n s.

(** White space and line terminators of ECMAScript, the characters
    [String.prototype.trim] removes. *)
Definition is_whitespace (c : N) : bool :=
  (((9 <=? c) && (c <=? 13)) || (c =? 32) || (c =? 160) || (c =? 5760)
   || ((8192 <=? c) && (c <=? 8202)) || (c =? 8232) || (c =? 8233)
   || (c =? 8239) || (c =? 8287) || (c =? 12288) || (c =? 65279))%N.

Fixpoint trimStart (s : jsstring) : jsstring :=
  match s with
  | c :: r => if is_whitespace c then trimStart r else s
  | [] => []
  end.

Definition trimEnd (s : jsstring) : jsstring := rev (trimStart (rev s)).

(** [s.trim()] *)
Definition trim (s : jsstring) : jsstring := trimEnd (trimStart s).

(** [s.split(sep)] for a one-character separator: never the empty list. *)
Fixpoint split (sep : N) (s : jsstring) : list jsstring :=
  match s with
  | [] => [[]]
  | c :: r =>
      if N.eqb c sep then [] :: split sep r
      else match split sep r with
           | h :: t => (c :: h) :: t
           | [] => [[c]]
           end
  end.

(** [lines.pop()]: the list without its last element, and that element. *)
Definition pop {A} (l : list A) : list A * option A :=
  (removelast l, last l).

(** The values [JSON.parse] produces.  A number carries the value of its
    literal; an object carries its members in textual order, a later
    member of the same name replacing an earlier one. *)
Inductive json : Type :=
  | JNull
  | JBool (b : bool)
  | JNum (q : Q)
  | JStr (s : jsstring)
  | JArr (l : list json)
  | JObj (members : list (jsstring * json)).

(** Own property [k] of the object with these members. *)
Fixpoint obj_get (k : jsstring) (members : list (jsstring * json)) : option json :=
  match members with
  | [] => None
  | (k', v) :: rest =>
      match obj_get k rest with
      | Some v' => Some v'
      | None => if jsstring_eqb k' k then Some v else None
      end
  end.

(** The result of evaluating an expression that may throw. *)
Inductive completion (A : Type) : Type :=
  | Normal (a : A)
  | Throw (message : jsstring).
Arguments Normal {A} a.
Arguments Throw {A} message.

(** [v.k] for one of the names the client reads ([done], [error],
    [content], [detail]): [None] is [undefined].  Reading a property of
    [null] throws a TypeError; numbers, booleans, strings and arrays have
    no property of these names. *)
Definition member (v : json) (k : jsstring) : completion (option json) :=
  match v with
  | JNull => Throw (js "TypeError")
  | JObj members => Normal (obj_get k members)
  | _ => Normal None
  end.

(** ToBoolean; [None] is [undefined]. *)
Definition truthy (v : option json) : bool :=
  match v with
  | None => false
  | Some JNull => false
  | Some (JBool b) => b
  | Some (JNum q) => negb (Qeq_bool q 0)
  | Some (JStr s) => match s with [] => false | _ => true end
  | Some (JArr _) => true
  | Some (JObj _) => true
  end.

End JS.

(* ===================================================================== *)
(** * A reader of JSON texts *)
(* ===================================================================== *)

(** [JSON.parse] belongs to the platform, so [Api] and [ChatPage] take it
    as a parameter.  The examples run them on this reader of the JSON
    grammar (RFC 8259): literals, numbers, strings with their escapes,
    arrays and objects. *)
Module JSONText.
Import JS.

Definition is_json_ws (c : N) : bool :=
  ((c =? 32) || (c =? 9) || (c =? 10) || (c =? 13))%N.

Fixpoint skip_ws (s : jsstring) : jsstring :=
  match s with
  | c :: r => if is_json_ws c then skip_ws r else s
  | [] => []
  end.

Definition is_digit (c : N) : bool := ((48 <=? c) && (c <=? 57))%N.

(** The digits at the head of [s], read into [acc], and how many. *)
Fixpoint digits (acc : Z) (count : nat) (s : jsstring) : Z * nat * jsstring :=
  match s with
  | c :: r =>
      if is_digit c then digits (10 * acc + Z.of_N (c - 48)) (S count) r
      else (acc, count, s)
  | [] => (acc, count, [])
  end.

Definition scale (mantissa exponent : Z) : Q :=
  if (0 <=? exponent)%Z then (mantissa * 10 ^ exponent)%Z # 1
  else mantissa # Z.to_pos (10 ^ (- exponent)).

(** number = [ minus ] int [ frac ] [ exp ] *)
Definition number (s : jsstring) : option (json * jsstring) :=
  let '(negative, s) :=
    match s with 45%N :: r => (true, r) | _ => (false, s) end in
  let int_part :=
    match s with
    | 48%N :: r => Some (0%Z, r)
    | c :: _ =>
        if is_digit c then let '(m, _, r) := digits 0 0 s in Some (m, r) else None
    | [] => None
    end in
  match int_part with
  | None => None
  | Some (m, s) =>
      let frac_part :=
        match s with
        | 46%N :: r =>
            match digits m 0 r with
            | (_, 0, _) => None
            | (m', n, r') => Some (m', n, r')
            end
        | _ => Some (m, 0, s)
        end in
      match frac_part with
      | None => None
      | Some (m, places, s) =>
          let exp_part :=
            match s with
            | c :: r =>
                if ((c =? 101) || (c =? 69))%N then
                  let '(minus, r) :=
                    match r with
                    | 45%N :: r' => (true, r')
                    | 43%N :: r' => (false, r')
                    | _ => (false, r)
                    end in
                  match digits 0 0 r with
                  | (_, 0, _) => None
                  | (e, _, r') => Some (if minus then (- e)%Z else e, r')
                  end
                else Some (0%Z, s)
            | [] => Some (0%Z, s)
            end in
          match exp_part with
          | None => None
          | Some (e, s) =>
              let m := if negative then (- m)%Z else m in
              Some (JNum (scale m (e - Z.of_nat places)), s)
          end
      end
  end.

Definition hex_digit (c : N) : option N :=
  if is_digit c then Some (c - 48)%N
  else if ((97 <=? c) && (c <=? 102))%N then Some (c - 87)%N
  else if ((65 <=? c) && (c <=? 70))%N then Some (c - 55)%N
  else None.

(** The characters of a string up to its closing quotation mark. *)
Fixpoint chars (fuel : nat) (acc : jsstring) (s : jsstring)
  : option (jsstring * jsstring) :=
  match fuel with
  | 0 => None
  | S fuel =>
      match s with
      | 34%N :: r => Some (rev acc, r)
      | 92%N :: 117%N :: a :: b :: c :: d :: r =>
          match hex_digit a, hex_digit b, hex_digit c, hex_digit d with
          | Some a, Some b, Some c, Some d =>
              chars fuel ((4096 * a + 256 * b + 16 * c + d)%N :: acc) r
          | _, _, _, _ => None
          end
      | 92%N :: e :: r =>
          let escaped :=
            if (e =? 34)%N then Some 34%N
            else if (e =? 92)%N then Some 92%N
            else if (e =? 47)%N then Some 47%N
            else if (e =? 98)%N then Some 8%N
            else if (e =? 102)%N then Some 12%N
            else if (e =? 110)%N then Some 10%N
            else if (e =? 114)%N then Some 13%N
            else if (e =? 116)%N then Some 9%N
            else None in
          match escaped with
          | Some c => chars fuel (c :: acc) r
          | None => None
          end
      | c :: r => if (c <? 32)%N then None else chars fuel (c :: acc) r
      | [] => None
      end
  end.

(** A value, the elements of an array after its bracket, the members of
    an object after its brace; [fuel] bounds the calls. *)
Fixpoint value (fuel : nat) (s : jsstring) : option (json * jsstring) :=
  match fuel with
  | 0 => None
  | S fuel =>
      match skip_ws s with
      | 123%N :: r =>
          match skip_ws r with
          | 125%N :: r' => Some (JObj [], r')
          | _ => members fuel [] r
          end
      | 91%N :: r =>
          match skip_ws r with
          | 93%N :: r' => Some (JArr [], r')
          | _ => elements fuel [] r
          end
      | 34%N :: r =>
          match chars (S (length r)) [] r with
          | Some (str, r') => Some (JStr str, r')
          | None => None
          end
      | (_ :: _) as s' =>
          if startsWith (js "null") s' then Some (JNull, drop 4 s')
          else if startsWith (js "true") s' then Some (JBool true, drop 4 s')
          else if startsWith (js "false") s' then Some (JBool false, drop 5 s')
          else number s'
      | [] => None
      end
  end
with elements (fuel : nat) (acc : list json) (s : jsstring)
  : option (json * jsstring) :=
  match fuel with
  | 0 => None
  | S fuel =>
      match value fuel s with
      | Some (v, r) =>
          match skip_ws r with
          | 44%N :: r' => elements fuel (v :: acc) r'
          | 93%N :: r' => Some (JArr (rev (v :: acc)), r')
          | _ => None
          end
      | None => None
      end
  end
with members (fuel : nat) (acc : list (jsstring * json)) (s : jsstring)
  : option (json * jsstring) :=
  match fuel with
  | 0 => None
  | S fuel =>
      match skip_ws s with
      | 34%N :: r =>
          match chars (S (length r)) [] r with
          | Some (name, r1) =>
              match skip_ws r1 with
              | 58%N :: r2 =>
                  match value fuel r2 with
                  | Some (v, r3) =>
                      match skip_ws r3 with
                      | 44%N :: r4 => members fuel ((name, v) :: acc) r4
                      | 125%N :: r4 => Some (JObj (rev ((name, v) :: acc)), r4)
                      | _ => None
                      end
                  | None => None
                  end
              | _ => None
              end
          | None => None
          end
      | _ => None
      end
  end.

(** The whole text is one value between white space. *)
Definition parse (s : jsstring) : option json :=
  match value (2 * length s + 2) s with
  | Some (v, r) => match skip_ws r with [] => Some v | _ :: _ => None end
  | None => None
  end.

(** The decimal digits of an integer, which is what a number that is an
    integer below 10^21 in size is converted to. *)
Definition integer_text (q : Q) : jsstring :=
  js (NilEmpty.string_of_int (Z.to_int (Qnum q / Z.pos (Qden q)))).

(** The string a value is converted to when it is a string, [undefined],
    [null], a boolean, an array or an object; [number_text] converts
    numbers. *)
Section ToString.
Variable number_text : Q -> jsstring.

Fixpoint join (texts : list jsstring) : jsstring :=
  match texts with
  | [] => []
  | [t] => t
  | t :: rest => t ++ 44%N :: join rest
  end.

Fixpoint text_of (v : json) : jsstring :=
  match v with
  | JNull => js "null"
  | JBool true => js "true"
  | JBool false => js "false"
  | JNum q => number_text q
  | JStr s => s
  | JArr l =>
      join (List.map (fun e => match e with JNull => [] | _ => text_of e end) l)
  | JObj _ => js "[object Object]"
  end.

Definition to_string (v : option json) : jsstring :=
  match v with
  | None => js "undefined"
  | Some j => text_of j
  end.
End ToString.

End JSONText.

(* ===================================================================== *)
(** * client/lib/store.ts *)
(* ===================================================================== *)

Module Store.
Import JS.

Inductive Role : Type := user | assistant.

Definition Role_eqb (a b : Role) : bool :=
  match a, b with
  | user, user | assistant, assistant => true
  | _, _ => false
  end.

(** [ChatMessage] of client/lib/types.ts; a [Date] is its time value. *)
Record ChatMessage : Type := mkChatMessage {
  role : Role;
  content : jsstring;
  timestamp : option Z;
}.

Inductive SourceType : Type := youtube | pdf.

Record DocumentInfo : Type := mkDocumentInfo {
  id : jsstring;
  title : jsstring;
  source_type : SourceType;
}.

Section WithCollections.
(** The store only holds flashcards and quiz questions; their types do
    not matter to it. *)
Context {Flashcard QuizQuestion : Type}.

Record LearningStore : Type := mkLearningStore {
  currentDocument : option DocumentInfo;
  flashcards : list Flashcard;
  quizQuestions : list QuizQuestion;
  chatHistory : list ChatMessage;
}.

(** [set(partial)] merges the given fields into the state; each action
    below rebuilds the record with the fields it does not name kept. *)
Definition set_chatHistory (h : list ChatMessage) (state : LearningStore)
  : LearningStore :=
  {| currentDocument := currentDocument state;
     flashcards := flashcards state;
     quizQuestions := quizQuestions state;
     chatHistory := h |}.

Definition initial : LearningStore :=
  {| currentDocument := None; flashcards := []; quizQuestions := [];
     chatHistory := [] |}.

Definition setCurrentDocument (doc : option DocumentInfo) (state : LearningStore)
  : LearningStore :=
  {| currentDocument := doc;
     flashcards := flashcards state;
     quizQuestions := quizQuestions state;
     chatHistory := chatHistory state |}.

Definition addChatMessage (msg : ChatMessage) (state : LearningStore)
  : LearningStore :=
  set_chatHistory (chatHistory state ++ [msg]) state.

(** [{ ...m, content }] *)
Definition with_content (m : ChatMessage) (c : jsstring) : ChatMessage :=
  {| role := role m; content := c; timestamp := timestamp m |}.

(** The loop [for (let i = history.length - 1; i >= 0; i--)]: [n] is
    [i + 1], so [n = 0] is the exit of the loop. *)
Fixpoint update_loop (c : jsstring) (history : list ChatMessage) (n : nat)
  : list ChatMessage :=
  match n with
  | 0 => history
  | S i =>
      match history !! i with
      | Some m =>
          if Role_eqb (role m) assistant
          then <[i := with_content m c]> history
          else update_loop c history i
      | None => history
      end
  end.

Definition updateLastAssistantMessage (c : jsstring) (state : LearningStore)
  : LearningStore :=
  let history := chatHistory state in
  set_chatHistory (update_loop c history (length history)) state.

Definition clearChatHistory (state : LearningStore) : LearningStore :=
  set_chatHistory [] state.

Definition resetAll (state : LearningStore) : LearningStore :=
  {| currentDocument := currentDocument state;
     flashcards := []; quizQuestions := []; chatHistory := [] |}.

End WithCollections.
Arguments LearningStore : clear implicits.

Definition not_assistant (m : ChatMessage) : Prop := role m ≠ assistant.

End Store.

(* ===================================================================== *)
(** * client/lib/api.ts *)
(* ===================================================================== *)

Module Api.
Import JS Store.

(** How the response body ends: [reader.read()] reports [done], or it
    rejects (the connection broke). *)
Inductive stream_end : Type :=
  | Closed
  | Failed (message : jsstring).

(** What [fetch] resolves to, as far as [chatStream] looks at it.  The
    texts of a body are what [decoder.decode(value, { stream: true })]
    returns for the successive results of [reader.read()]. *)
Inductive Response : Type :=
  | NotOk (body : option json)
  | NoBody
  | Body (reads : list jsstring) (fin : stream_end).

Inductive FetchResult : Type :=
  | Rejected (message : jsstring)
  | Resolved (res : Response).

(** The body of the POST to [/chat]. *)
Record ChatRequest : Type := mkChatRequest {
  document_id : jsstring;
  message : jsstring;
  history : list (Role * jsstring);
}.

(** What a generator did when driven to its end: the elements it yielded,
    in order, and how it finished. *)
Record Generated : Type := mkGenerated {
  yielded : list json;
  finish : completion unit;
}.

Definition data_prefix : jsstring := Eval cbv in js "data: ".

Section WithPlatform.
(** [JSON.parse]: [None] when it throws a SyntaxError. *)
Variable JSON_parse : jsstring -> option json.
(** The string a value is converted to ([undefined] is [None]). *)
Variable ToString : option json -> jsstring.

Definition yield_then (chunk : json) (k : list json * bool) : list json * bool :=
  (chunk :: fst k, snd k).

(** [for (const line of lines)]: the elements yielded and whether the
    generator returned ([if (chunk.done) return]). *)
Fixpoint process_lines (lines : list jsstring) : list json * bool :=
  match lines with
  | [] => ([], false)
  | line :: rest =>
      if startsWith data_prefix line then
        match trim (slice 6 line) with
        | [] => process_lines rest
        | (_ :: _) as jsonStr =>
            match JSON_parse jsonStr with
            | None => process_lines rest
            | Some chunk =>
                match member chunk (js "done") with
                | Normal d =>
                    if truthy d then ([chunk], true)
                    else yield_then chunk (process_lines rest)
                | Throw _ => yield_then chunk (process_lines rest)
                end
            end
        end
      else process_lines rest
  end.

(** [while (true)], one iteration for each read. *)
Fixpoint read_loop (buffer : jsstring) (reads : list jsstring) (fin : stream_end)
  : Generated :=
  match reads with
  | [] =>
      match fin with
      | Closed => mkGenerated [] (Normal tt)
      | Failed m => mkGenerated [] (Throw m)
      end
  | value :: more =>
      let buffer := buffer ++ value in
      let '(lines, popped) := pop (split newline buffer) in
      let buffer := default [] popped in
      let '(ys, returned) := process_lines lines in
      if returned then mkGenerated ys (Normal tt)
      else
        let g := read_loop buffer more fin in
        mkGenerated (ys ++ yielded g) (finish g)
  end.

Definition chat_request (documentId message : jsstring)
    (history : list ChatMessage) : ChatRequest :=
  {| document_id := documentId;
     message := message;
     history := List.map (fun m => (role m, content m)) history |}.

(** [chatStream], with [fetch] the network. *)
Definition chatStream (fetch : ChatRequest -> FetchResult)
    (documentId message : jsstring) (history : list ChatMessage) : Generated :=
  match fetch (chat_request documentId message history) with
  | Rejected m => mkGenerated [] (Throw m)
  | Resolved (NotOk body) =>
      let err := default (JObj [(js "detail", JStr (js "Unknown error"))]) body in
      match member err (js "detail") with
      | Throw m => mkGenerated [] (Throw m)
      | Normal d =>
          mkGenerated []
            (Throw (if truthy d then ToString d else js "Chat request failed"))
      end
  | Resolved NoBody => mkGenerated [] (Throw (js "No response body"))
  | Resolved (Body reads fin) => read_loop [] reads fin
  end.

End WithPlatform.

(** [chunk.done] is truthy. *)
Definition is_done (chunk : json) : bool :=
  match member chunk (js "done") with
  | Normal d => truthy d
  | Throw _ => false
  end.

(** [chunk.error] is truthy. *)
Definition carries_error (chunk : json) : bool :=
  match member chunk (js "error") with
  | Normal e => truthy e
  | Throw _ => false
  end.

(** No element but the last one satisfies [f]. *)
Fixpoint only_last (f : json -> bool) (ys : list json) : bool :=
  match ys with
  | [] => true
  | x :: rest =>
      match rest with
      | [] => true
      | _ :: _ => negb (f x) && only_last f rest
      end
  end.

(** The sequence ends with a [done] element. *)
Definition done_terminated (ys : list json) : Prop :=
  ∃ pre x, ys = pre ++ [x] ∧ is_done x = true.

(** Nothing follows an element that carries an error. *)
Definition error_terminates (ys : list json) : Prop :=
  ∀ pre x post, ys = pre ++ x :: post → carries_error x = true → post = [].

(** The lines of a text that are followed by a line feed. *)
Definition complete_lines (text : jsstring) : list jsstring :=
  removelast (split newline text).

(** What stays in [buffer] after a text. *)
Definition last_line (text : jsstring) : jsstring :=
  default [] (last (split newline text)).

(** A [data:] line whose payload [JSON.parse] rejects. *)
Definition malformed (JSON_parse : jsstring → option json) (line : jsstring) : Prop :=
  startsWith data_prefix line = true ∧ JSON_parse (trim (slice 6 line)) = None.

End Api.

(* ===================================================================== *)
(** * client/app/chat/page.tsx *)
(* ===================================================================== *)

Module ChatPage.
Import JS Store Api.

Section WithPlatform.
Context {Flashcard QuizQuestion : Type}.
Variable JSON_parse : jsstring -> option json.
Variable ToString : option json -> jsstring.

Local Abbreviation LearningStore := (LearningStore Flashcard QuizQuestion).

(** The values [handleSend] closes over ([useCallback]'s dependencies):
    those of the render the handler belongs to. *)
Record Render : Type := mkRender {
  input : jsstring;
  isStreaming : bool;
  r_currentDocument : option DocumentInfo;
  r_chatHistory : list ChatMessage;
}.

(** The component state and the store, and what the handler did to the
    outside: the toasts shown and the request sent. *)
Record Page : Type := mkPage {
  p_input : jsstring;
  p_isStreaming : bool;
  store : LearningStore;
  toasts : list jsstring;
  sent : list ChatRequest;
}.

Definition render (p : Page) : Render :=
  {| input := p_input p;
     isStreaming := p_isStreaming p;
     r_currentDocument := currentDocument (store p);
     r_chatHistory := chatHistory (store p) |}.

Definition on_store (f : LearningStore -> LearningStore) (p : Page) : Page :=
  {| p_input := p_input p; p_isStreaming := p_isStreaming p;
     store := f (store p); toasts := toasts p; sent := sent p |}.

Definition setInput (s : jsstring) (p : Page) : Page :=
  {| p_input := s; p_isStreaming := p_isStreaming p;
     store := store p; toasts := toasts p; sent := sent p |}.

Definition setIsStreaming (b : bool) (p : Page) : Page :=
  {| p_input := p_input p; p_isStreaming := b;
     store := store p; toasts := toasts p; sent := sent p |}.

Definition toast_error (m : jsstring) (p : Page) : Page :=
  {| p_input := p_input p; p_isStreaming := p_isStreaming p;
     store := store p; toasts := toasts p ++ [m]; sent := sent p |}.

Definition record_request (q : ChatRequest) (p : Page) : Page :=
  {| p_input := p_input p; p_isStreaming := p_isStreaming p;
     store := store p; toasts := toasts p; sent := sent p ++ [q] |}.

Definition sorry_message : jsstring :=
  js "Sorry, I encountered an error. Please try again.".
Definition empty_message : jsstring :=
  js "I couldn't generate a response. Please try again.".

(** The [catch] block. *)
Definition on_catch (msg : jsstring) (p : Page) : Page :=
  on_store (updateLastAssistantMessage sorry_message) (toast_error msg p).

(** After the loop: [if (!fullResponse) ...]. *)
Definition after_loop (fullResponse : jsstring) (p : Page) : Page :=
  match fullResponse with
  | [] => on_store (updateLastAssistantMessage empty_message) p
  | _ :: _ => p
  end.

(** [for await (const chunk of stream)] over the elements the generator
    has still to yield; [fin] is how the generator finishes when it is
    asked for one more.  Also gives the elements the loop received. *)
Fixpoint consume (fullResponse : jsstring) (chunks : list json)
    (fin : completion unit) (p : Page) : list json * Page :=
  match chunks with
  | [] =>
      match fin with
      | Normal _ => ([], after_loop fullResponse p)
      | Throw msg => ([], on_catch msg p)
      end
  | chunk :: rest =>
      match member chunk (js "error") with
      | Throw msg => ([chunk], on_catch msg p)
      | Normal e =>
          if truthy e then
            ([chunk],
             after_loop fullResponse
               (on_store (updateLastAssistantMessage sorry_message)
                  (toast_error (ToString e) p)))
          else
            let content :=
              match member chunk (js "content") with
              | Normal c => c
              | Throw _ => None
              end in
            let fullResponse := fullResponse ++ ToString content in
            let '(received, p') :=
              consume fullResponse rest fin
                (on_store (updateLastAssistantMessage fullResponse) p) in
            (chunk :: received, p')
      end
  end.

(** [handleSend] run to its end, for the render [r] it closes over;
    [now1] and [now2] are the two readings of the clock.  Also gives the
    stream elements the loop received. *)
Definition handleSend (fetch : ChatRequest -> FetchResult) (now1 now2 : Z)
    (r : Render) (p : Page) : list json * Page :=
  match trim (input r), isStreaming r, r_currentDocument r with
  | _ :: _, false, Some doc =>
      let userMessage :=
        {| role := user; content := trim (input r); timestamp := Some now1 |} in
      let historySnapshot := r_chatHistory r in
      let p := on_store (addChatMessage userMessage) p in
      let p := setInput [] p in
      let p := setIsStreaming true p in
      let assistantPlaceholder :=
        {| role := assistant; content := []; timestamp := Some now2 |} in
      let p := on_store (addChatMessage assistantPlaceholder) p in
      let p := record_request
                 (chat_request (id doc) (content userMessage) historySnapshot) p in
      let stream :=
        chatStream JSON_parse ToString fetch
          (id doc) (content userMessage) historySnapshot in
      let '(received, p) := consume [] (yielded stream) (finish stream) p in
      (received, setIsStreaming false p)
  | _, _, _ => ([], p)
  end.

(** What the loop and the blocks around it leave of the page: the
    requests sent are kept, and the history still ends with the
    assistant message of this turn. *)
Definition turn_open (h : list ChatMessage) (ts : option Z)
    (requests : list ChatRequest) (p : Page) : Prop :=
  sent p = requests
  /\ exists c, chatHistory (store p) = h ++ [mkChatMessage assistant c ts].

End WithPlatform.

End ChatPage.

(* ===================================================================== *)
(** * supabase_setup.sql *)
(* ===================================================================== *)

Module Db.

Definition uuid : Type := N.
Definition text : Type := String.string.
Definition timestamptz : Type := Z.

(** A pgvector value: its components, as the rationals they denote. *)
Definition vector : Type := list Q.

(** The dimension in [vector(768)]. *)
Definition dimension : nat := 768.

(** [int]: 32 bits, signed. *)
Definition int_min : Z := (- 2 ^ 31)%Z.
Definition int_max : Z := (2 ^ 31 - 1)%Z.
Definition is_int (z : Z) : bool := ((int_min <=? z) && (z <=? int_max))%Z.

(** A row of [documents], without its key [id].  A column that is not
    declared [not null] is an [option]. *)
Record document : Type := mkDocument {
  title : text;
  source_type : text;
  source_url : option text;
  d_created_at : option timestamptz;
}.

(** A row of [chunks], without its key [id]. *)
Record chunk : Type := mkChunk {
  document_id : uuid;
  content : text;
  embedding : option vector;
  chunk_index : Z;
  created_at : option timestamptz;
}.

(** The two tables, each a map from its primary key. *)
Record database : Type := mkDatabase {
  documents : gmap uuid document;
  chunks : gmap uuid chunk;
}.

Definition empty : database := {| documents := ∅; chunks := ∅ |}.

Inductive sql_error : Type :=
  | unique_violation
  | foreign_key_violation
  | check_violation
  | wrong_dimension
  | different_dimensions
  | integer_out_of_range
  | negative_limit.

Inductive result (A : Type) : Type :=
  | Ok (a : A)
  | Err (e : sql_error).
Arguments Ok {A} a.
Arguments Err {A} e.

(** An argument of a function whose parameter has a default. *)
Inductive argument (A : Type) : Type :=
  | omitted
  | given (a : A).
Arguments omitted {A}.
Arguments given {A} a.

(** A row of the table [match_chunks] returns. *)
Record match_row : Type := mkMatchRow {
  id : uuid;
  m_content : text;
  similarity : option Q;
}.

(** [order by ... asc]: ascending, with NULL after every value. *)
Definition distance_le (a b : option Q) : bool :=
  match a, b with
  | Some x, Some y => Qle_bool x y
  | _, None => true
  | None, Some _ => false
  end.

Section OrderBy.
Context {A : Type}.
Variable key : A -> option Q.

Fixpoint insert_by (x : A) (l : list A) : list A :=
  match l with
  | [] => [x]
  | y :: rest =>
      if distance_le (key x) (key y) then x :: l else y :: insert_by x rest
  end.

(** SQL leaves the order of rows with equal keys open; this one keeps
    them in the order of the input. *)
Definition order_by (l : list A) : list A := foldr insert_by [] l.

(** The order of the keys, as a relation on the rows. *)
Definition key_le (a b : A) : Prop := distance_le (key a) (key b) = true.
End OrderBy.

(** [limit n], where NULL is no limit. *)
Definition limit {A} (n : option Z) (l : list A) : result (list A) :=
  match n with
  | None => Ok l
  | Some n =>
      if negb (is_int n) then Err integer_out_of_range
      else if (n <? 0)%Z then Err negative_limit
      else Ok (take (Z.to_nat n) l)
  end.

(** How PostgreSQL runs the query of [match_chunks]: over the rows of the
    table, sorted, or through [chunks_embedding_idx].  An ivfflat index
    keeps the rows that have an embedding in lists around centres; a scan
    of it reads the lists whose centres are nearest to the query
    ([ivfflat.probes] of them, one unless set otherwise) and gives the
    rows of those lists by ascending distance: the search is then an
    approximate one.  [reached] are the ids of the rows in the lists
    read. *)
Inductive plan : Type :=
  | seq_scan
  | index_scan (reached : gset uuid).

Definition has_embedding (c : chunk) : bool :=
  match embedding c with
  | Some _ => true
  | None => false
  end.

(** The rows a plan reads, before [where document_id = doc_id] is
    applied to them; a row without embedding is not in the index. *)
Definition scanned (p : plan) (db : database) : list (uuid * chunk) :=
  match p with
  | seq_scan => map_to_list (chunks db)
  | index_scan reached =>
      List.filter
        (fun r => bool_decide (fst r ∈ reached) && has_embedding (snd r))
        (map_to_list (chunks db))
  end.

(** The rows of the document among them. *)
Definition found (p : plan) (db : database) (doc_id : uuid)
  : list (uuid * chunk) :=
  List.filter (fun r => N.eqb (document_id (snd r)) doc_id) (scanned p db).

(** The plan reads this row. *)
Definition reached_by (p : plan) (i : uuid) (c : chunk) : Prop :=
  match p with
  | seq_scan => True
  | index_scan reached => i ∈ reached /\ has_embedding c = true
  end.

Section WithDistance.
(** [a <=> b], the cosine distance of pgvector, between two vectors of
    one dimension. *)
Variable cosine_distance : vector -> vector -> Q.

(** [embedding <=> query_embedding]: NULL for a chunk without
    embedding. *)
Definition distance (query_embedding : vector) (c : chunk) : option Q :=
  option_map (fun e => cosine_distance e query_embedding) (embedding c).

(** pgvector compares two vectors of one dimension and raises "different
    vector dimensions" for others; a NULL embedding is not compared. *)
Definition comparable (query_embedding : vector) (c : chunk) : bool :=
  match embedding c with
  | Some e => Nat.eqb (length e) (length query_embedding)
  | None => true
  end.

(** The rows [from chunks where document_id = doc_id]. *)
Definition chunks_of (db : database) (doc_id : uuid) : list (uuid * chunk) :=
  List.filter (fun r => N.eqb (document_id (snd r)) doc_id)
    (map_to_list (chunks db)).

(** [select id, content, 1 - (embedding <=> query_embedding) as similarity] *)
Definition select (query_embedding : vector) (r : uuid * chunk) : match_row :=
  {| id := fst r;
     m_content := content (snd r);
     similarity :=
       option_map (fun d => (1 - d)%Q) (distance query_embedding (snd r)) |}.

(** [match_chunks(query_embedding vector(768), doc_id uuid,
    match_count int default 5)].  PostgreSQL keeps no type modifier on
    the parameter of a function, so the dimension of [query_embedding] is
    checked where [<=>] compares it with the embedding of a row.  The
    query is read here as SQL defines it, over every row of the table;
    [match_chunks_with] below has the plans PostgreSQL can run it by, the
    scan of the ivfflat index of the script among them. *)
Definition match_chunks (db : database) (query_embedding : vector)
    (doc_id : uuid) (match_count : argument (option Z)) : result (list match_row) :=
  if negb (forallb (fun r => comparable query_embedding (snd r))
             (chunks_of db doc_id))
  then Err different_dimensions
  else
    let match_count :=
      match match_count with
      | omitted => Some 5%Z
      | given n => n
      end in
    let ordered :=
      order_by (fun r => distance query_embedding (snd r)) (chunks_of db doc_id) in
    match limit match_count ordered with
    | Ok rows => Ok (List.map (select query_embedding) rows)
    | Err e => Err e
    end.

(** The rows of the document, in the order of the search. *)
Definition ranked (db : database) (q : vector) (doc_id : uuid)
  : list (uuid * chunk) :=
  order_by (fun r => distance q (snd r)) (chunks_of db doc_id).

(** [match_chunks] as PostgreSQL runs it by a plan.  A scan of the index
    compares the query with the centres of the lists, which have the
    dimension of the column, before it reads a row: a query of another
    dimension is an error there, whatever the rows. *)
Definition match_chunks_with (p : plan) (db : database)
    (query_embedding : vector) (doc_id : uuid)
    (match_count : argument (option Z)) : result (list match_row) :=
  if match p with
     | seq_scan => false
     | index_scan _ => negb (Nat.eqb (length query_embedding) dimension)
     end
  then Err different_dimensions
  else if negb (forallb (fun r => comparable query_embedding (snd r))
                  (found p db doc_id))
  then Err different_dimensions
  else
    let match_count :=
      match match_count with
      | omitted => Some 5%Z
      | given n => n
      end in
    let ordered :=
      order_by (fun r => distance query_embedding (snd r)) (found p db doc_id) in
    match limit match_count ordered with
    | Ok rows => Ok (List.map (select query_embedding) rows)
    | Err e => Err e
    end.

End WithDistance.

(** A count [limit] takes: none given, NULL, or an [int] that is not
    negative. *)
Definition count_ok (match_count : argument (option Z)) : Prop :=
  match match_count with
  | given (Some n) => (0 <= n <= int_max)%Z
  | _ => True
  end.

(** The number of chunks stored for a document. *)
Definition chunk_count (db : database) (doc_id : uuid) : nat :=
  length (chunks_of db doc_id).

(** Descending similarity: the first row is at least as similar as the
    second, a row without similarity (NULL) coming after every other. *)
Definition similarity_ge (a b : match_row) : Prop :=
  match similarity a, similarity b with
  | Some x, Some y => (y <= x)%Q
  | _, None => True
  | None, Some _ => False
  end.

(** Modelled from the spec: the statements of the backend that write the
    store (server/utils/supabase_ops.py is not part of the sources):
    the creation of a document, [upsert(document_id, [(chunk_index,
    content, embedding)])] and the deletion of a document.  Each one is
    run under the constraints the tables above declare. *)
Definition insert_document (new_id : uuid) (d : document) (db : database)
  : result database :=
  if bool_decide (is_Some (documents db !! new_id)) then Err unique_violation
  else if negb (String.eqb (source_type d) "youtube"
                || String.eqb (source_type d) "pdf")
  then Err check_violation
  else Ok {| documents := <[new_id := d]> (documents db); chunks := chunks db |}.

(** Modelled from the spec: one row of an upsert; [new_id] is the value
    [gen_random_uuid()] gives the row. *)
Definition insert_chunk (doc_id : uuid) (now : timestamptz)
    (row : uuid * (Z * text * vector)) (db : database) : result database :=
  let '(new_id, (index, body, e)) := row in
  if bool_decide (is_Some (chunks db !! new_id)) then Err unique_violation
  else if bool_decide (documents db !! doc_id = None) then Err foreign_key_violation
  else if negb (Nat.eqb (length e) dimension) then Err wrong_dimension
  else if negb (is_int index) then Err integer_out_of_range
  else
    Ok {| documents := documents db;
          chunks :=
            <[new_id := {| document_id := doc_id; content := body;
                           embedding := Some e; chunk_index := index;
                           created_at := Some now |}]> (chunks db) |}.

(** Modelled from the spec: [upsert], one statement: no row is written
    when one of them is refused. *)
Fixpoint upsert (doc_id : uuid) (now : timestamptz)
    (rows : list (uuid * (Z * text * vector))) (db : database) : result database :=
  match rows with
  | [] => Ok db
  | row :: rest =>
      match insert_chunk doc_id now row db with
      | Ok db' => upsert doc_id now rest db'
      | Err e => Err e
      end
  end.

(** Modelled from the spec: the deletion of a document; [on delete
    cascade] removes its chunks with it. *)
Definition delete_document (doc_id : uuid) (db : database) : database :=
  {| documents := delete doc_id (documents db);
     chunks := filter (fun r => document_id (snd r) ≠ doc_id) (chunks db) |}.

(** Modelled from the spec: the statements the backend issues to the
    store, with the call of [match_chunks] among them. *)
Inductive statement : Type :=
  | InsertDocument (new_id : uuid) (d : document)
  | Upsert (doc_id : uuid) (now : timestamptz)
      (rows : list (uuid * (Z * text * vector)))
  | DeleteDocument (doc_id : uuid)
  | MatchChunks (query_embedding : vector) (doc_id : uuid)
      (match_count : argument (option Z)).

(** The store after a statement; a statement that fails, and
    [match_chunks], which is declared [stable], leave it as it is. *)
Definition execute (s : statement) (db : database) : database :=
  match s with
  | InsertDocument new_id d =>
      match insert_document new_id d db with Ok db' => db' | Err _ => db end
  | Upsert doc_id now rows =>
      match upsert doc_id now rows db with Ok db' => db' | Err _ => db end
  | DeleteDocument doc_id => delete_document doc_id db
  | MatchChunks _ _ _ => db
  end.

Definition run (statements : list statement) (db : database) : database :=
  foldl (fun db s => execute s db) db statements.

(** Every embedding stored has the declared dimension: the type of the
    column. *)
Definition dimensions_ok (db : database) : Prop :=
  forall i c e, chunks db !! i = Some c -> embedding c = Some e ->
                length e = dimension.

(** Every chunk has an embedding, of the declared dimension. *)
Definition embeddings_ok (db : database) : Prop :=
  forall i c, chunks db !! i = Some c ->
         exists e, embedding c = Some e /\ length e = dimension.

End Db.

(* ===================================================================== *)
(** * The provider rotation engine *)
(* ===================================================================== *)

Module Rotation.

(** A (provider, model, priority rank) triple of the configuration. *)
Record ModelCandidate : Type := mkCandidate {
  provider : String.string;
  model : String.string;
  rank : nat;
}.

(** The two classes every failure of a provider is normalised to; a call
    cancelled at its time-out counts as transient. *)
Inductive failure_class : Type := transient | permanent.

(** The classified answer of a provider to one attempt. *)
Inductive response (R : Type) : Type :=
  | success (r : R)
  | failure (class : failure_class) (reason : String.string).
Arguments success {R} r.
Arguments failure {R} class reason.

Inductive phase (R : Type) : Type :=
  | Pending
  | Attempting (c : ModelCandidate)
  | Retrying (c : ModelCandidate)
  | Advancing
  | Succeeded (r : R) (c : ModelCandidate)
  | Exhausted.
Arguments Pending {R}.
Arguments Attempting {R} c.
Arguments Retrying {R} c.
Arguments Advancing {R}.
Arguments Succeeded {R} r c.
Arguments Exhausted {R}.

(** What the engine returns: the result with the candidate that produced
    it, or the failure reason of each attempted candidate. *)
Inductive outcome (R : Type) : Type :=
  | Generated (r : R) (c : ModelCandidate)
  | AllProvidersFailed (failures : list (ModelCandidate * String.string)).
Arguments Generated {R} r c.
Arguments AllProvidersFailed {R} failures.

Section Engine.
(** The type of generation results. *)
Context {R : Type}.

(** Modelled from the spec: the state of one request in the Provider
    Rotation Engine (server/utils/error_helpers.py is not part of the
    sources): the object threaded through the transition function, with
    the candidates not yet selected, the retries made on the current
    candidate, the attempts made so far and the failures recorded, in
    attempt order. *)
Record engine_state : Type := mkState {
  current : phase R;
  remaining : list ModelCandidate;
  retries : nat;
  attempts : nat;
  failures : list (ModelCandidate * String.string);
}.

(** The per-candidate retry ceiling. *)
Variable retry_ceiling : nat.

(** The global max-attempts cap: the attempts one request may make, over
    all its candidates. *)
Variable max_attempts : nat.

(** The providers: the classified answer of a candidate to the attempt
    with this number (attempts are numbered from 0 over the request). *)
Variable call : ModelCandidate -> nat -> response R.

(** Modelled from the spec: the request enters in [Pending] with the
    whole candidate list. *)
Definition start (candidates : list ModelCandidate) : engine_state :=
  {| current := Pending; remaining := candidates; retries := 0;
     attempts := 0; failures := [] |}.

(** Modelled from the spec: the selection of the next candidate in
    priority order, [Exhausted] if none remain.  The spec lists the global
    max-attempts cap among the inputs and gives it no transition of its
    own; it is read as the bound it is called: no attempt is started once
    the request has made that many, and the engine is then [Exhausted]
    with the failures recorded so far. *)
Definition select_next (st : engine_state) : engine_state :=
  match remaining st with
  | [] =>
      {| current := Exhausted; remaining := []; retries := 0;
         attempts := attempts st; failures := failures st |}
  | c :: rest =>
      if attempts st <? max_attempts then
        {| current := Attempting c; remaining := rest; retries := 0;
           attempts := attempts st; failures := failures st |}
      else
        {| current := Exhausted; remaining := c :: rest; retries := 0;
           attempts := attempts st; failures := failures st |}
  end.

(** Modelled from the spec: leaving the current candidate, its failure
    reason recorded after those of the candidates before it. *)
Definition advance (c : ModelCandidate) (reason : String.string)
    (st : engine_state) : engine_state :=
  {| current := Advancing; remaining := remaining st; retries := retries st;
     attempts := S (attempts st); failures := failures st ++ [(c, reason)] |}.

(** Modelled from the spec: the transitions of section 4.3.  A success
    ends in [Succeeded]; a transient failure goes to [Retrying] up to the
    retry ceiling, and while the cap leaves an attempt to retry with, and
    to [Advancing] beyond that; a permanent failure goes to [Advancing] at
    once; [Retrying] attempts the same candidate again (after the
    back-off); [Advancing] selects the next candidate. *)
Definition step (st : engine_state) : engine_state :=
  match current st with
  | Pending => select_next st
  | Attempting c =>
      match call c (attempts st) with
      | success r =>
          {| current := Succeeded r c; remaining := remaining st;
             retries := retries st; attempts := S (attempts st);
             failures := failures st |}
      | failure transient reason =>
          if (retries st <? retry_ceiling) && (S (attempts st) <? max_attempts)
          then
            {| current := Retrying c; remaining := remaining st;
               retries := retries st; attempts := S (attempts st);
               failures := failures st |}
          else advance c reason st
      | failure permanent reason => advance c reason st
      end
  | Retrying c =>
      {| current := Attempting c; remaining := remaining st;
         retries := S (retries st); attempts := attempts st;
         failures := failures st |}
  | Advancing => select_next st
  | Succeeded _ _ => st
  | Exhausted => st
  end.

Fixpoint iterate (fuel : nat) (st : engine_state) : engine_state :=
  match fuel with
  | 0 => st
  | S fuel => iterate fuel (step st)
  end.

(** What the caller gets once the engine is in a final state. *)
Definition outcome_of (st : engine_state) : option (outcome R) :=
  match current st with
  | Succeeded r c => Some (Generated r c)
  | Exhausted => Some (AllProvidersFailed (failures st))
  | _ => None
  end.

(** The engine on a candidate list, for this many transitions. *)
Definition generate (fuel : nat) (candidates : list ModelCandidate)
  : option (outcome R) :=
  outcome_of (iterate fuel (start candidates)).

(** Transitions that suffice for a list of this length: each candidate
    is attempted at most [retry_ceiling + 1] times. *)
Definition enough (n : nat) : nat := 1 + n * (2 * retry_ceiling + 2).

(** Every attempt on this candidate fails. *)
Definition always_fails (c : ModelCandidate) : Prop :=
  forall n, exists class reason, call c n = failure class reason.

(** The attempts numbered [first] to [last] are those made on the
    candidate: the ones before the last failed transiently, and the last
    one failed with this reason. *)
Definition attempted (c : ModelCandidate) (first last : nat)
    (reason : String.string) : Prop :=
  first <= last
  /\ (forall n, first <= n < last -> exists r, call c n = failure transient r)
  /\ exists class, call c last = failure class reason.

(** The failure entries are those of attempts made one after the other
    from the attempt [first] on, [lasts] being the number of the last
    attempt on each candidate: each entry carries the reason of that
    attempt. *)
Fixpoint reasons_of_attempts (first : nat)
    (entries : list (ModelCandidate * String.string)) (lasts : list nat) : Prop :=
  match entries, lasts with
  | [], [] => True
  | (c, reason) :: entries, last :: lasts =>
      attempted c first last reason
      /\ last - first <= retry_ceiling
      /\ last < max_attempts
      /\ reasons_of_attempts (S last) entries lasts
  | _, _ => False
  end.

End Engine.

End Rotation.

(* ===================================================================== *)
(** * Quiz questions: client/lib/types.ts, client/app/quiz/page.tsx and
      the quiz parser *)
(* ===================================================================== *)

Module Quiz.
Import JS.

(** ["A" | "B" | "C" | "D"] *)
Inductive OptionKey : Type := A | B | C | D.

Definition OptionKey_eqb (a b : OptionKey) : bool :=
  match a, b with
  | A, A | B, B | C, C | D, D => true
  | _, _ => false
  end.

(** [options: { A: string; B: string; C: string; D: string }] *)
Record Options : Type := mkOptions {
  option_A : jsstring;
  option_B : jsstring;
  option_C : jsstring;
  option_D : jsstring;
}.

(** [QuizQuestion] of client/lib/types.ts. *)
Record QuizQuestion : Type := mkQuizQuestion {
  question : jsstring;
  options : Options;
  correct_answer : OptionKey;
  explanation : jsstring;
}.

(** [optionKeys] of the quiz page. *)
Definition optionKeys : list OptionKey := [A; B; C; D].

(** [q.options[key]] *)
Definition option_text (o : Options) (key : OptionKey) : jsstring :=
  match key with
  | A => option_A o
  | B => option_B o
  | C => option_C o
  | D => option_D o
  end.

(** The name of a key. *)
Definition key_name (key : OptionKey) : jsstring :=
  match key with
  | A => js "A"
  | B => js "B"
  | C => js "C"
  | D => js "D"
  end.

(** [score] of the quiz page: the questions whose recorded answer is the
    correct one; [userAnswers] maps the index of a question to the answer
    chosen. *)
Fixpoint score_from (i : nat) (userAnswers : gmap nat jsstring)
    (quizQuestions : list QuizQuestion) : nat :=
  match quizQuestions with
  | [] => 0
  | q :: rest =>
      (if bool_decide (userAnswers !! i = Some (key_name (correct_answer q)))
       then 1 else 0)
      + score_from (S i) userAnswers rest
  end.

Definition score (userAnswers : gmap nat jsstring)
    (quizQuestions : list QuizQuestion) : nat :=
  score_from 0 userAnswers quizQuestions.

(** Modelled from the spec: which label a [correct_answer] names, if it
    names one of the four. *)
Definition read_key (s : jsstring) : option OptionKey :=
  if jsstring_eqb s (js "A") then Some A
  else if jsstring_eqb s (js "B") then Some B
  else if jsstring_eqb s (js "C") then Some C
  else if jsstring_eqb s (js "D") then Some D
  else None.

(** Modelled from the spec: a labelled option that is present. *)
Definition read_option (members : list (jsstring * json)) (key : OptionKey)
  : option jsstring :=
  match obj_get (key_name key) members with
  | Some (JStr s) => Some s
  | _ => None
  end.

(** Modelled from the spec: exactly four labelled options, A to D. *)
Definition read_options (members : list (jsstring * json)) : option Options :=
  if negb (Nat.eqb (length members) 4) then None
  else
    match read_option members A, read_option members B,
          read_option members C, read_option members D with
    | Some a, Some b, Some c, Some d =>
        Some {| option_A := a; option_B := b; option_C := c; option_D := d |}
    | _, _, _, _ => None
    end.

(** Modelled from the spec: the quiz parser of the backend (the server's
    quiz router is not part of the sources), on one question of the
    model's output read as JSON: the question needs exactly four labelled
    options A to D, a [correct_answer] that is the label of one of them,
    that option not empty, and an explanation string; anything else is
    rejected. *)
Definition parse_question (raw : json) : option QuizQuestion :=
  match raw with
  | JObj members =>
      match obj_get (js "question") members, obj_get (js "options") members,
            obj_get (js "correct_answer") members,
            obj_get (js "explanation") members with
      | Some (JStr q), Some (JObj opts), Some (JStr answer), Some (JStr why) =>
          match read_options opts, read_key answer with
          | Some o, Some key =>
              match option_text o key with
              | [] => None
              | _ :: _ =>
                  Some {| question := q; options := o; correct_answer := key;
                          explanation := why |}
              end
          | _, _ => None
          end
      | _, _, _, _ => None
      end
  | _ => None
  end.

End Quiz.

(* ===================================================================== *)
(** * client/lib/api.ts: the requests other than the chat *)
(* ===================================================================== *)

Module Fetch.
Import JS.

(** What the wrappers look at in a response: [res.ok], [res.status],
    [res.headers.get("content-type")] ([None] is [null]) and the text of
    the body ([None] when reading it fails). *)
Record HttpResponse : Type := mkHttpResponse {
  ok : bool;
  status : N;
  content_type : option jsstring;
  body : option jsstring;
}.

(** What [fetch] does: it rejects, or it resolves to a response. *)
Inductive FetchOutcome : Type :=
  | NetworkError (message : jsstring)
  | Response (res : HttpResponse).

(** [s.includes(needle)] *)
Fixpoint includes (needle s : jsstring) : bool :=
  startsWith needle s
  || match s with
     | [] => false
     | _ :: r => includes needle r
     end.

(** The decimal digits of an integer, as a template literal prints it. *)
Definition N_text (n : N) : jsstring :=
  js (NilEmpty.string_of_uint (N.to_uint n)).
Definition Z_text (z : Z) : jsstring :=
  js (NilEmpty.string_of_int (Z.to_int z)).

(** [data?.k], for the names [detail] and [message]. *)
Definition optional_member (data : json) (k : jsstring) : option json :=
  match data with
  | JObj members => obj_get k members
  | _ => None
  end.

(** [a || b] *)
Definition or_else (a : option json) (b : json) : json :=
  match a with
  | Some v => if truthy a then v else b
  | None => b
  end.

(** A file chosen for upload. *)
Record File : Type := mkFile {
  name : jsstring;
  bytes : list N;
}.

Inductive RequestBody : Type :=
  | JsonBody (v : json)
  | FormBody (file : File).

Record Request : Type := mkRequest {
  path : jsstring;
  request_body : RequestBody;
}.

Section WithPlatform.
Variable JSON_parse : jsstring -> option json.
Variable ToString : option json -> jsstring.

(** [await res.json()]: [None] when it rejects. *)
Definition res_json (res : HttpResponse) : option json :=
  match body res with
  | Some t => JSON_parse t
  | None => None
  end.

(** [`${fallback} (HTTP ${res.status})`] *)
Definition status_message (res : HttpResponse) (fallback : jsstring) : jsstring :=
  fallback ++ js " (HTTP " ++ N_text (status res) ++ js ")".

(** [extractErrorMessage]; the value returned is given as a JSON value,
    a string being [JStr]. *)
Definition extractErrorMessage (res : HttpResponse) (fallback : jsstring) : json :=
  let contentType := default [] (content_type res) in
  if includes (js "application/json") contentType then
    match res_json res with
    | Some data =>
        or_else (optional_member data (js "detail"))
          (or_else (optional_member data (js "message")) (JStr fallback))
    | None => JStr fallback
    end
  else
    match body res with
    | Some t =>
        if length t <? 200 then JStr t else JStr (status_message res fallback)
    | None => JStr (status_message res fallback)
    end.

(** The message of [new Error(v)]. *)
Definition error_message (v : json) : jsstring :=
  match v with
  | JStr s => s
  | _ => ToString (Some v)
  end.

(** What the four wrappers do with the outcome of their [fetch]:
    [if (!res.ok) throw new Error(await extractErrorMessage(res, fallback));
    return res.json();] *)
Definition settle (fallback : jsstring) (outcome : FetchOutcome)
  : completion json :=
  match outcome with
  | NetworkError m => Throw m
  | Response res =>
      if ok res then
        match res_json res with
        | Some v => Normal v
        | None => Throw (js "SyntaxError")
        end
      else Throw (error_message (extractErrorMessage res fallback))
  end.

Variable fetch : Request -> FetchOutcome.

Definition processVideo (url : jsstring) : completion json :=
  settle (js "Failed to process video")
    (fetch {| path := js "/process-video";
              request_body := JsonBody (JObj [(js "url", JStr url)]) |}).

Definition processPdf (file : File) : completion json :=
  settle (js "Failed to process PDF")
    (fetch {| path := js "/process-pdf"; request_body := FormBody file |}).

Definition generateFlashcards (documentId : jsstring) : completion json :=
  settle (js "Failed to generate flashcards")
    (fetch {| path := js "/generate-flashcards";
              request_body :=
                JsonBody (JObj [(js "document_id", JStr documentId)]) |}).

Definition generateQuiz (documentId : jsstring) : completion json :=
  settle (js "Failed to generate quiz")
    (fetch {| path := js "/generate-quiz";
              request_body :=
                JsonBody (JObj [(js "document_id", JStr documentId)]) |}).

End WithPlatform.

End Fetch.

(* ===================================================================== *)
(** * client/app/quiz/page.tsx *)
(* ===================================================================== *)

Module QuizPage.
Import JS Quiz.

Inductive QuizState : Type := idle | taking | submitted.

(** [QuizResponse], as far as the page reads it. *)
Record QuizResponse : Type := mkQuizResponse {
  questions : list QuizQuestion;
  count : Z;
}.

(** The state of the page with what it reads of the store, and what it
    did to the outside: toasts and navigation. *)
Record Page : Type := mkPage {
  currentDocument : option Store.DocumentInfo;
  quizQuestions : list QuizQuestion;
  userAnswers : gmap nat jsstring;
  quizState : QuizState;
  isLoading : bool;
  expandedExplanations : gset nat;
  toasts : list jsstring;
  pushed : list jsstring;
}.

(** The page when it is mounted on a store. *)
Definition mount (doc : option Store.DocumentInfo)
    (stored : list QuizQuestion) : Page :=
  {| currentDocument := doc;
     quizQuestions := stored;
     userAnswers := ∅;
     quizState := match stored with [] => idle | _ :: _ => taking end;
     isLoading := false;
     expandedExplanations := ∅;
     toasts := [];
     pushed := [] |}.

(** [handleGenerate] up to its [await]. *)
Definition start_generate (p : Page) : Page :=
  match currentDocument p with
  | None =>
      {| currentDocument := currentDocument p; quizQuestions := quizQuestions p;
         userAnswers := userAnswers p; quizState := quizState p;
         isLoading := isLoading p;
         expandedExplanations := expandedExplanations p;
         toasts := toasts p; pushed := pushed p ++ [js "/"] |}
  | Some _ =>
      {| currentDocument := currentDocument p; quizQuestions := quizQuestions p;
         userAnswers := userAnswers p; quizState := quizState p;
         isLoading := true;
         expandedExplanations := expandedExplanations p;
         toasts := toasts p; pushed := pushed p |}
  end.

(** [handleGenerate] after its [await]: the response, taken at the type
    the code gives it, or the error thrown. *)
Definition finish_generate (outcome : completion QuizResponse) (p : Page) : Page :=
  match outcome with
  | Normal result =>
      {| currentDocument := currentDocument p;
         quizQuestions := questions result;
         userAnswers := ∅; quizState := taking; isLoading := false;
         expandedExplanations := ∅;
         toasts :=
           toasts p
           ++ [js "Generated " ++ Fetch.Z_text (count result)
               ++ js " quiz questions!"];
         pushed := pushed p |}
  | Throw msg =>
      {| currentDocument := currentDocument p; quizQuestions := quizQuestions p;
         userAnswers := userAnswers p; quizState := quizState p;
         isLoading := false;
         expandedExplanations := expandedExplanations p;
         toasts := toasts p ++ [msg]; pushed := pushed p |}
  end.

(** The click on option [key] of question [idx]; the button exists for
    the questions that are rendered, [idx] below their number. *)
Definition answer (idx : nat) (key : OptionKey) (p : Page) : Page :=
  match quizState p with
  | taking =>
      if idx <? length (quizQuestions p) then
        {| currentDocument := currentDocument p; quizQuestions := quizQuestions p;
           userAnswers := <[idx := key_name key]> (userAnswers p);
           quizState := quizState p; isLoading := isLoading p;
           expandedExplanations := expandedExplanations p;
           toasts := toasts p; pushed := pushed p |}
      else p
  | _ => p
  end.

(** [handleSubmit] *)
Definition handleSubmit (p : Page) : Page :=
  if size (userAnswers p) <? length (quizQuestions p) then
    {| currentDocument := currentDocument p; quizQuestions := quizQuestions p;
       userAnswers := userAnswers p; quizState := quizState p;
       isLoading := isLoading p;
       expandedExplanations := expandedExplanations p;
       toasts := toasts p ++ [js "Please answer all questions before submitting."];
       pushed := pushed p |}
  else
    {| currentDocument := currentDocument p; quizQuestions := quizQuestions p;
       userAnswers := userAnswers p; quizState := submitted;
       isLoading := isLoading p;
       expandedExplanations := expandedExplanations p;
       toasts := toasts p; pushed := pushed p |}.

(** The Retry button. *)
Definition retry (p : Page) : Page :=
  {| currentDocument := currentDocument p; quizQuestions := quizQuestions p;
     userAnswers := ∅; quizState := taking; isLoading := isLoading p;
     expandedExplanations := ∅;
     toasts := toasts p; pushed := pushed p |}.

(** The update function of [toggleExplanation]. *)
Definition toggle (idx : nat) (prev : gset nat) : gset nat :=
  if bool_decide (idx ∈ prev) then prev ∖ {[idx]} else {[idx]} ∪ prev.

Definition toggleExplanation (idx : nat) (p : Page) : Page :=
  {| currentDocument := currentDocument p; quizQuestions := quizQuestions p;
     userAnswers := userAnswers p; quizState := quizState p;
     isLoading := isLoading p;
     expandedExplanations := toggle idx (expandedExplanations p);
     toasts := toasts p; pushed := pushed p |}.

(** What happens on the page. *)
Inductive event : Type :=
  | StartGenerate
  | FinishGenerate (outcome : completion QuizResponse)
  | Answer (idx : nat) (key : OptionKey)
  | Submit
  | Retry
  | ToggleExplanation (idx : nat).

Definition handle (e : event) (p : Page) : Page :=
  match e with
  | StartGenerate => start_generate p
  | FinishGenerate outcome => finish_generate outcome p
  | Answer idx key => answer idx key p
  | Submit => handleSubmit p
  | Retry => retry p
  | ToggleExplanation idx => toggleExplanation idx p
  end.

Definition after (events : list event) (p : Page) : Page :=
  foldl (fun p e => handle e p) p events.

(** The answers recorded are answers to questions of the quiz, and a
    submitted quiz has as many answers as questions. *)
Definition answers_ok (p : Page) : Prop :=
  (forall i, is_Some (userAnswers p !! i) -> i < length (quizQuestions p))
  /\ (quizState p = submitted -> length (quizQuestions p) <= size (userAnswers p))
  /\ (quizState p = idle -> quizQuestions p = []).

End QuizPage.

(* ===================================================================== *)
(** * client/app/flashcards/page.tsx *)
(* ===================================================================== *)

Module FlashcardsPage.
Import JS.

(** [Flashcard] of client/lib/types.ts. *)
Record Flashcard : Type := mkFlashcard {
  question : jsstring;
  answer : jsstring;
}.

(** [FlashcardsResponse], as far as the page reads it. *)
Record FlashcardsResponse : Type := mkFlashcardsResponse {
  r_flashcards : list Flashcard;
  count : Z;
}.

Record Page : Type := mkPage {
  currentDocument : option Store.DocumentInfo;
  flashcards : list Flashcard;
  currentIndex : Z;
  isFlipped : bool;
  isLoading : bool;
  viewed : gset Z;
  toasts : list jsstring;
  pushed : list jsstring;
}.

Definition mount (doc : option Store.DocumentInfo) (stored : list Flashcard) : Page :=
  {| currentDocument := doc; flashcards := stored; currentIndex := 0;
     isFlipped := false; isLoading := false; viewed := ∅;
     toasts := []; pushed := [] |}.

(** [handleGenerate] up to its [await]. *)
Definition start_generate (p : Page) : Page :=
  match currentDocument p with
  | None =>
      {| currentDocument := currentDocument p; flashcards := flashcards p;
         currentIndex := currentIndex p; isFlipped := isFlipped p;
         isLoading := isLoading p; viewed := viewed p;
         toasts := toasts p; pushed := pushed p ++ [js "/"] |}
  | Some _ =>
      {| currentDocument := currentDocument p; flashcards := flashcards p;
         currentIndex := currentIndex p; isFlipped := isFlipped p;
         isLoading := true; viewed := viewed p;
         toasts := toasts p; pushed := pushed p |}
  end.

(** [handleGenerate] after its [await]: the response, taken at the type
    the code gives it, or the error thrown. *)
Definition finish_generate (outcome : completion FlashcardsResponse) (p : Page)
  : Page :=
  match outcome with
  | Normal result =>
      {| currentDocument := currentDocument p;
         flashcards := r_flashcards result;
         currentIndex := 0; isFlipped := false; isLoading := false;
         viewed := {[0%Z]};
         toasts :=
           toasts p
           ++ [js "Generated " ++ Fetch.Z_text (count result) ++ js " flashcards!"];
         pushed := pushed p |}
  | Throw msg =>
      {| currentDocument := currentDocument p; flashcards := flashcards p;
         currentIndex := currentIndex p; isFlipped := isFlipped p;
         isLoading := false; viewed := viewed p;
         toasts := toasts p ++ [msg]; pushed := pushed p |}
  end.

(** [goTo]: [Math.max(0, Math.min(idx, flashcards.length - 1))]. *)
Definition goTo (idx : Z) (p : Page) : Page :=
  let safe := Z.max 0 (Z.min idx (Z.of_nat (length (flashcards p)) - 1)) in
  {| currentDocument := currentDocument p; flashcards := flashcards p;
     currentIndex := safe; isFlipped := false; isLoading := isLoading p;
     viewed := {[safe]} ∪ viewed p;
     toasts := toasts p; pushed := pushed p |}.

Definition prev (p : Page) : Page :=
  goTo (Z.max 0 (currentIndex p - 1)) p.

Definition next (p : Page) : Page :=
  goTo (Z.min (Z.of_nat (length (flashcards p)) - 1) (currentIndex p + 1)) p.

(** The click on the card. *)
Definition flip (p : Page) : Page :=
  {| currentDocument := currentDocument p; flashcards := flashcards p;
     currentIndex := currentIndex p; isFlipped := negb (isFlipped p);
     isLoading := isLoading p; viewed := viewed p;
     toasts := toasts p; pushed := pushed p |}.

(** The Reset button. *)
Definition reset (p : Page) : Page :=
  {| currentDocument := currentDocument p; flashcards := flashcards p;
     currentIndex := 0; isFlipped := false;
     isLoading := isLoading p; viewed := {[0%Z]};
     toasts := toasts p; pushed := pushed p |}.

(** [flashcards[currentIndex]], [None] being [undefined]. *)
Definition current_card (p : Page) : option Flashcard :=
  if (currentIndex p <? 0)%Z then None
  else flashcards p !! Z.to_nat (currentIndex p).

Inductive event : Type :=
  | StartGenerate
  | FinishGenerate (outcome : completion FlashcardsResponse)
  | GoTo (idx : Z)
  | Prev
  | Next
  | Flip
  | Reset.

Definition handle (e : event) (p : Page) : Page :=
  match e with
  | StartGenerate => start_generate p
  | FinishGenerate outcome => finish_generate outcome p
  | GoTo idx => goTo idx p
  | Prev => prev p
  | Next => next p
  | Flip => flip p
  | Reset => reset p
  end.

Definition after (events : list event) (p : Page) : Page :=
  foldl (fun p e => handle e p) p events.

(** The index is not negative and, like every index seen, is the index of
    a card when there are cards. *)
Definition index_ok (p : Page) : Prop :=
  (0 <= currentIndex p)%Z
  /\ (flashcards p <> [] ->
      (currentIndex p < Z.of_nat (length (flashcards p)))%Z)
  /\ (forall i, i ∈ viewed p ->
        (0 <= i)%Z
        /\ (flashcards p <> [] -> (i < Z.of_nat (length (flashcards p)))%Z)).

End FlashcardsPage.

(* ===================================================================== *)
(** * client/app/page.tsx (the upload page) *)
(* ===================================================================== *)

Module UploadPage.
Import JS Store.

Inductive Status : Type := idle | processing | done | error.

(** [ProcessVideoResponse] and [ProcessPdfResponse] of
    client/lib/types.ts. *)
Record ProcessVideoResponse : Type := mkProcessVideoResponse {
  v_document_id : jsstring;
  v_chunk_count : Z;
  v_title : jsstring;
  v_message : jsstring;
}.

Record ProcessPdfResponse : Type := mkProcessPdfResponse {
  f_document_id : jsstring;
  f_chunk_count : Z;
  f_page_count : Z;
  f_title : jsstring;
  f_message : jsstring;
}.

(** [s.endsWith(suffix)] *)
Definition endsWith (suffix s : jsstring) : bool :=
  startsWith (rev suffix) (rev s).

Definition ellipsis : N := 8230%N.
Definition middle_dot : N := 183%N.

Definition video_messages : list jsstring :=
  [js "Fetching video transcript" ++ [ellipsis];
   js "Chunking text" ++ [ellipsis];
   js "Generating embeddings" ++ [ellipsis];
   js "Storing in vector database" ++ [ellipsis]].

Definition pdf_messages : list jsstring :=
  [js "Reading PDF" ++ [ellipsis];
   js "Extracting text" ++ [ellipsis];
   js "Chunking content" ++ [ellipsis];
   js "Generating embeddings" ++ [ellipsis];
   js "Storing in vector database" ++ [ellipsis]].

Section WithStore.
Context {Flashcard QuizQuestion : Type}.
(** [Math.round(((i + 1) / messages.length) * 90)], for the tick [i] of a
    list of this length. *)
Variable step_progress : nat -> nat -> Z.

Local Abbreviation LearningStore := (LearningStore Flashcard QuizQuestion).

(** The state of the page and the store, and what the page did to the
    outside: the toasts (with their description) and the navigation it
    scheduled. *)
Record Page : Type := mkPage {
  youtubeUrl : jsstring;
  status : Status;
  progress : Z;
  statusText : jsstring;
  dragOver : bool;
  store : LearningStore;
  toasts : list (jsstring * option jsstring);
  scheduled : list jsstring;
}.

Definition setStatus (s : Status) (p : Page) : Page :=
  {| youtubeUrl := youtubeUrl p; status := s; progress := progress p;
     statusText := statusText p; dragOver := dragOver p; store := store p;
     toasts := toasts p; scheduled := scheduled p |}.

Definition setProgress (n : Z) (p : Page) : Page :=
  {| youtubeUrl := youtubeUrl p; status := status p; progress := n;
     statusText := statusText p; dragOver := dragOver p; store := store p;
     toasts := toasts p; scheduled := scheduled p |}.

Definition setStatusText (t : jsstring) (p : Page) : Page :=
  {| youtubeUrl := youtubeUrl p; status := status p; progress := progress p;
     statusText := t; dragOver := dragOver p; store := store p;
     toasts := toasts p; scheduled := scheduled p |}.

Definition setDragOver (b : bool) (p : Page) : Page :=
  {| youtubeUrl := youtubeUrl p; status := status p; progress := progress p;
     statusText := statusText p; dragOver := b; store := store p;
     toasts := toasts p; scheduled := scheduled p |}.

Definition on_store (f : LearningStore -> LearningStore) (p : Page) : Page :=
  {| youtubeUrl := youtubeUrl p; status := status p; progress := progress p;
     statusText := statusText p; dragOver := dragOver p; store := f (store p);
     toasts := toasts p; scheduled := scheduled p |}.

Definition toast (message : jsstring) (description : option jsstring) (p : Page)
  : Page :=
  {| youtubeUrl := youtubeUrl p; status := status p; progress := progress p;
     statusText := statusText p; dragOver := dragOver p; store := store p;
     toasts := toasts p ++ [(message, description)]; scheduled := scheduled p |}.

Definition schedule_push (target : jsstring) (p : Page) : Page :=
  {| youtubeUrl := youtubeUrl p; status := status p; progress := progress p;
     statusText := statusText p; dragOver := dragOver p; store := store p;
     toasts := toasts p; scheduled := scheduled p ++ [target] |}.

(** One firing of the interval of [simulateProgress], its counter at [i];
    past the last message it only clears itself. *)
Definition tick (messages : list jsstring) (i : nat) (p : Page) : Page :=
  match messages !! i with
  | Some m => setProgress (step_progress i (length messages)) (setStatusText m p)
  | None => p
  end.

(** The firings before the request settles, [fired] of them. *)
Definition ticks (messages : list jsstring) (fired : nat) (p : Page) : Page :=
  foldl (fun p i => tick messages i p) p (seq 0 fired).

(** [handleVideoSubmit], with the number of firings of the interval
    during the request and what [processVideo] gave, taken at the type the
    code gives it.  Whatever the call throws is an [Error], so the toast
    of the catch is its message. *)
Definition handleVideoSubmit (fired : nat)
    (outcome : completion ProcessVideoResponse) (p : Page) : Page :=
  match trim (youtubeUrl p) with
  | [] => p
  | _ :: _ =>
      let p := setStatus processing p in
      let p := ticks video_messages fired p in
      match outcome with
      | Normal result =>
          let p := setProgress 100 p in
          let p := setStatusText (js "Done!") p in
          let p := on_store resetAll p in
          let p :=
            on_store
              (setCurrentDocument
                 (Some {| id := v_document_id result; title := v_title result;
                          source_type := youtube |})) p in
          let p := setStatus done p in
          let p := toast (js "Video processed successfully!")
                     (Some (v_title result)) p in
          schedule_push (js "/flashcards") p
      | Throw msg =>
          let p := setStatus error p in
          toast msg None p
      end
  end.

(** [handleFile] *)
Definition handleFile (file : Fetch.File) (fired : nat)
    (outcome : completion ProcessPdfResponse) (p : Page) : Page :=
  if negb (endsWith (js ".pdf") (Fetch.name file)) then
    toast (js "Please upload a PDF file.") None p
  else
    let p := setStatus processing p in
    let p := ticks pdf_messages fired p in
    match outcome with
    | Normal result =>
        let p := setProgress 100 p in
        let p := setStatusText (js "Done!") p in
        let p := on_store resetAll p in
        let p :=
          on_store
            (setCurrentDocument
               (Some {| id := f_document_id result; title := f_title result;
                        source_type := pdf |})) p in
        let p := setStatus done p in
        let p :=
          toast (js "PDF processed successfully!")
            (Some (Fetch.Z_text (f_page_count result) ++ js " pages "
                   ++ [middle_dot] ++ js " "
                   ++ Fetch.Z_text (f_chunk_count result) ++ js " chunks")) p in
        schedule_push (js "/flashcards") p
    | Throw msg =>
        let p := setStatus error p in
        toast msg None p
    end.

(** [handleDrop]: the first of the files dropped, if there is one. *)
Definition handleDrop (files : list Fetch.File) (fired : nat)
    (outcome : completion ProcessPdfResponse) (p : Page) : Page :=
  let p := setDragOver false p in
  match files with
  | file :: _ => handleFile file fired outcome p
  | [] => p
  end.

(** [resetStatus] *)
Definition resetStatus (p : Page) : Page :=
  setStatusText [] (setProgress 0 (setStatus idle p)).

End WithStore.

End UploadPage.

(* ===================================================================== *)
(** * Notions to state how a chat turn goes *)
(* ===================================================================== *)

Module Turns.
Import JS Store Api ChatPage.

(** A server that answers every request with this body, ended this way. *)
Definition answer (reads : list jsstring) (fin : stream_end)
  : ChatRequest -> FetchResult :=
  fun _ => Resolved (Body reads fin).

(** An element the loop of [handleSend] reads and goes on after: reading
    its [error] does not throw and gives a falsy value. *)
Definition clean (chunk : json) : bool :=
  match member chunk (js "error") with
  | Normal e => negb (truthy e)
  | Throw _ => false
  end.

Section WithPlatform.
Context {Flashcard QuizQuestion : Type}.
Variable ToString : option json -> jsstring.

Local Abbreviation Page := (Page (Flashcard := Flashcard) (QuizQuestion := QuizQuestion)).

(** What [fullResponse += chunk.content] appends. *)
Definition content_text (chunk : json) : jsstring :=
  ToString
    match member chunk (js "content") with
    | Normal c => c
    | Throw _ => None
    end.

(** The page when [handleSend] starts to read the stream: both messages
    of the turn added, the input cleared, streaming on, the request
    made. *)
Definition opened (now1 now2 : Z) (doc : DocumentInfo) (p : Page) : Page :=
  record_request
    (chat_request (id doc) (trim (p_input p)) (chatHistory (store p)))
    (on_store
       (addChatMessage
          {| role := assistant; content := []; timestamp := Some now2 |})
       (setIsStreaming true
          (setInput []
             (on_store
                (addChatMessage
                   {| role := user; content := trim (p_input p);
                      timestamp := Some now1 |})
                p)))).

(** The history ends with the assistant message of the turn, and that
    message holds the response so far once there is some. *)
Definition replying (h : list ChatMessage) (ts : option Z)
    (fullResponse : jsstring) (p : Page) : Prop :=
  exists c,
    chatHistory (store p) = h ++ [mkChatMessage assistant c ts]
    /\ (fullResponse <> [] -> c = fullResponse).

End WithPlatform.

End Turns.

(* ===================================================================== *)
(** * The chat turn on a connection that need not end *)
(* ===================================================================== *)

Module Live.
Import JS Store Api ChatPage.

(** What one call of [reader.read()] settles to: a value, given here as
    the text [decoder.decode(value, { stream: true })] returns for it, or
    the end of the body. *)
Inductive read_result : Type :=
  | Arrives (text : jsstring)
  | Ends (fin : stream_end).

(** A response body as the network delivers it: what each call of
    [reader.read()] settles to, by the number of the call, [None] for a
    call that never settles.  Nothing makes a body end. *)
Definition open_body : Type := nat -> option read_result.

(** What [fetch] resolves to.  For a response that is not ok, [body] is
    what [res.json()] settles to: [None] when it never does, [Some None]
    when it rejects. *)
Inductive open_response : Type :=
  | Refusal (body : option (option json))
  | Bodiless
  | Stream (body : open_body).

(** What becomes of the promise of [fetch]: it may never settle, for
    [chatStream] passes no signal and sets no time-out. *)
Inductive open_fetch : Type :=
  | Unanswered
  | Fails (message : jsstring)
  | Answers (res : open_response).

(** A generator that is driven as far as it goes: still waiting, with
    the elements it has yielded so far, or finished. *)
Inductive progress : Type :=
  | Running (so_far : list json)
  | Finished (g : Generated).

(** A body of [Api.Response] as a body delivered read by read. *)
Definition body_of (reads : list jsstring) (fin : stream_end) : open_body :=
  fun i =>
    Some match reads !! i with
         | Some text => Arrives text
         | None => Ends fin
         end.

(** The results of [Api], each as the same result here. *)
Definition settled (r : FetchResult) : open_fetch :=
  match r with
  | Rejected m => Fails m
  | Resolved (NotOk body) => Answers (Refusal (Some body))
  | Resolved NoBody => Answers Bodiless
  | Resolved (Body reads fin) => Answers (Stream (body_of reads fin))
  end.

(** The body ends at the call [n] of [reader.read()]: each call before
    it gives a value. *)
Definition ends_at (body : open_body) (n : nat) (fin : stream_end) : Prop :=
  (forall i, i < n -> exists text, body i = Some (Arrives text))
  /\ body n = Some (Ends fin).

(** How a generator finishes when the body ends before a [done]
    element: [if (done) break] and the end of the function, or the
    rejection of [reader.read()] thrown on. *)
Definition completion_of (fin : stream_end) : completion unit :=
  match fin with
  | Closed => Normal tt
  | Failed m => Throw m
  end.

Section WithPlatform.
Context {Flashcard QuizQuestion : Type}.
Variable JSON_parse : jsstring -> option json.
Variable ToString : option json -> jsstring.

Local Abbreviation Page := (Page (Flashcard := Flashcard) (QuizQuestion := QuizQuestion)).

(** [while (true)] of [chatStream] when at most [n] more calls of
    [reader.read()] have settled, [i] being the number of the next
    call. *)
Fixpoint read_within (n : nat) (buffer : jsstring) (body : open_body) (i : nat)
  : progress :=
  match n with
  | 0 => Running []
  | S n =>
      match body i with
      | None => Running []
      | Some (Ends Closed) => Finished (mkGenerated [] (Normal tt))
      | Some (Ends (Failed m)) => Finished (mkGenerated [] (Throw m))
      | Some (Arrives value) =>
          let buffer := buffer ++ value in
          let '(lines, popped) := pop (split newline buffer) in
          let buffer := default [] popped in
          let '(ys, returned) := process_lines JSON_parse lines in
          if returned then Finished (mkGenerated ys (Normal tt))
          else
            match read_within n buffer body (S i) with
            | Running so_far => Running (ys ++ so_far)
            | Finished g => Finished (mkGenerated (ys ++ yielded g) (finish g))
            end
      end
  end.

(** [chatStream] when at most [n] calls of [reader.read()] have
    settled. *)
Definition chatStream_within (n : nat) (fetch : ChatRequest -> open_fetch)
    (documentId message : jsstring) (history : list ChatMessage) : progress :=
  match fetch (chat_request documentId message history) with
  | Unanswered => Running []
  | Fails m => Finished (mkGenerated [] (Throw m))
  | Answers (Refusal None) => Running []
  | Answers (Refusal (Some body)) =>
      let err := default (JObj [(js "detail", JStr (js "Unknown error"))]) body in
      match member err (js "detail") with
      | Throw m => Finished (mkGenerated [] (Throw m))
      | Normal d =>
          Finished
            (mkGenerated []
               (Throw (if truthy d then ToString d else js "Chat request failed")))
      end
  | Answers Bodiless => Finished (mkGenerated [] (Throw (js "No response body")))
  | Answers (Stream body) => read_within n [] body 0
  end.

(** [for await (const chunk of stream)] over the elements of a generator
    that is still running: the elements received, the page, and whether
    the loop was left, which it is at an element with an error and not
    before. *)
Fixpoint reading (fullResponse : jsstring) (chunks : list json) (p : Page)
  : list json * Page * bool :=
  match chunks with
  | [] => ([], p, false)
  | chunk :: rest =>
      match member chunk (js "error") with
      | Throw msg => ([chunk], on_catch msg p, true)
      | Normal e =>
          if truthy e then
            ([chunk],
             after_loop fullResponse
               (on_store (updateLastAssistantMessage sorry_message)
                  (toast_error (ToString e) p)),
             true)
          else
            let content :=
              match member chunk (js "content") with
              | Normal c => c
              | Throw _ => None
              end in
            let fullResponse := fullResponse ++ ToString content in
            let '(received, p', stopped) :=
              reading fullResponse rest
                (on_store (updateLastAssistantMessage fullResponse) p) in
            (chunk :: received, p', stopped)
      end
  end.

(** [handleSend] when at most [n] calls of [reader.read()] have settled:
    the elements its loop has received and the page as it is then.  The
    [finally] block is reached when the generator has finished or the
    loop was left, and not before. *)
Definition handleSend_within (n : nat) (fetch : ChatRequest -> open_fetch)
    (now1 now2 : Z) (r : Render) (p : Page) : list json * Page :=
  match trim (input r), isStreaming r, r_currentDocument r with
  | _ :: _, false, Some doc =>
      let userMessage :=
        {| role := user; content := trim (input r); timestamp := Some now1 |} in
      let historySnapshot := r_chatHistory r in
      let p := on_store (addChatMessage userMessage) p in
      let p := setInput [] p in
      let p := setIsStreaming true p in
      let assistantPlaceholder :=
        {| role := assistant; content := []; timestamp := Some now2 |} in
      let p := on_store (addChatMessage assistantPlaceholder) p in
      let p := record_request
                 (chat_request (id doc) (content userMessage) historySnapshot) p in
      match chatStream_within n fetch
              (id doc) (content userMessage) historySnapshot with
      | Finished stream =>
          let '(received, p) :=
            consume ToString [] (yielded stream) (finish stream) p in
          (received, setIsStreaming false p)
      | Running so_far =>
          let '(received, p, stopped) := reading [] so_far p in
          (received, if stopped then setIsStreaming false p else p)
      end
  | _, _, _ => ([], p)
  end.

End WithPlatform.

End Live.

(* ===================================================================== *)
(** * Notions to state what the tables keep *)
(* ===================================================================== *)

Module Constraints.
Import Db.

(** Every chunk belongs to a stored document: the foreign key of
    [chunks.document_id]. *)
Definition references_ok (db : database) : Prop :=
  forall i c, chunks db !! i = Some c -> is_Some (documents db !! document_id c).

End Constraints.

(* ===================================================================== *)
(** * Sample data *)
(* ===================================================================== *)

Module Samples.
Import JS JSONText Store Api.


Definition sample_message (r : Role) (s : String.string) (t : Z) : ChatMessage :=
  {| role := r; content := js s; timestamp := Some t |}.

Definition sample_store : Store.LearningStore nat nat :=
  {| currentDocument :=
       Some {| id := js "d1"; title := js "Notes"; source_type := pdf |};
     flashcards := [1; 2];
     quizQuestions := [3];
     chatHistory :=
       [sample_message user "q1" 1; sample_message assistant "a1" 2;
        sample_message user "q2" 3; sample_message assistant EmptyString 4;
        sample_message user "q3" 5] |}.

(** The cosine distance of two vectors of norm 1: one minus their inner
    product. *)
Fixpoint inner_product (a b : Db.vector) : Q :=
  match a, b with
  | x :: a', y :: b' => (x * y + inner_product a' b')%Q
  | _, _ => 0%Q
  end.

Definition unit_cosine_distance (a b : Db.vector) : Q :=
  (1 - inner_product a b)%Q.

(** The unit vectors along the first and the second axis, and the one
    between them at 3 : 4. *)
Definition axis1 : Db.vector := 1%Q :: repeat 0%Q 767.
Definition axis2 : Db.vector := 0%Q :: 1%Q :: repeat 0%Q 766.
Definition between : Db.vector := (3 # 5)%Q :: (4 # 5)%Q :: repeat 0%Q 766.

(** Two documents, the first with three chunks and the second with one. *)
Definition sample_statements : list Db.statement :=
  [Db.InsertDocument 1%N (Db.mkDocument "Lecture"%string "youtube"%string None (Some 100%Z));
   Db.InsertDocument 2%N (Db.mkDocument "Paper"%string "pdf"%string None (Some 101%Z));
   Db.Upsert 1%N 102%Z
     [(11%N, (0%Z, "first"%string, axis1)); (12%N, (1%Z, "second"%string, axis2));
      (13%N, (2%Z, "third"%string, between))];
   Db.Upsert 2%N 103%Z [(21%N, (0%Z, "other"%string, axis1))]].

Definition sample_db : Db.database := Db.run sample_statements Db.empty.

(** What the search for the first axis in the first document returns. *)
Definition sample_rows : list Db.match_row :=
  Eval vm_compute in
    match Db.match_chunks unit_cosine_distance sample_db axis1 1%N Db.omitted with
    | Db.Ok rows => rows
    | Db.Err _ => []
    end.

Definition sample_chunk : Db.chunk :=
  {| Db.document_id := 1%N; Db.content := "third"%string;
     Db.embedding := Some between; Db.chunk_index := 2%Z;
     Db.created_at := Some 102%Z |}.

(** Three candidates: the first is rate limited at every attempt, the
    second refuses the credentials, the third times out. *)
Definition sample_candidates : list Rotation.ModelCandidate :=
  [Rotation.mkCandidate "openrouter" "qwen" 1;
   Rotation.mkCandidate "openrouter" "llama" 2;
   Rotation.mkCandidate "gemini" "flash" 3].

Definition sample_call (c : Rotation.ModelCandidate) (n : nat)
  : Rotation.response Db.text :=
  if String.eqb (Rotation.model c) "qwen"
  then Rotation.failure Rotation.transient
         (if Nat.eqb n 0 then "rate limited" else "rate limited again")
  else if String.eqb (Rotation.model c) "llama"
  then Rotation.failure Rotation.permanent "unauthorized"
  else Rotation.failure Rotation.transient "timed out".

(** A question of a model's output, and the same with a [correct_answer]
    that is not among its options. *)
Definition sample_question : json :=
  default JNull
    (JSONText.parse
       (quoted "{'question':'2+2?','options':{'A':'3','B':'4','C':'5','D':'22'},'correct_answer':'B','explanation':'sum'}")).

Definition sample_question_empty : json :=
  default JNull
    (JSONText.parse
       (quoted "{'question':'2+2?','options':{'A':'3','B':'','C':'5','D':'22'},'correct_answer':'B','explanation':'sum'}")).

Definition sample_question_E : json :=
  default JNull
    (JSONText.parse
       (quoted "{'question':'2+2?','options':{'A':'3','B':'4','C':'5','D':'22'},'correct_answer':'E','explanation':'sum'}")).

(** One server-sent event: a [data:] line and an empty line. *)
Definition sse (payload : String.string) : jsstring :=
  js "data: " ++ quoted payload ++ [newline; newline].

(** A server that answers every request with this body. *)
Definition serve (reads : list jsstring) : ChatRequest -> FetchResult :=
  fun _ => Resolved (Body reads Closed).

Definition ToString : option json -> jsstring :=
  JSONText.to_string JSONText.integer_text.

(** A body that ends after a chunk that is not a [done] chunk. *)
Definition body_without_done : list jsstring :=
  [sse "{'content':'Hi','done':false}"].

(** A body with an error chunk that is not a [done] chunk, and a chunk
    after it. *)
Definition body_error_then_more : list jsstring :=
  [sse "{'content':'','done':false,'error':'quota'}"
   ++ sse "{'content':'late','done':false}"].

(** A body cut in the middle of a line, with a line that is not JSON. *)
Definition body_with_malformed_line : list jsstring :=
  [quoted "data: {'content':'a','done':false}" ++ [newline] ++ js "data: {oops"
   ++ [newline] ++ js "da";
   quoted "ta: {'content':'b','done':true}" ++ [newline]].

(** A page with one earlier exchange, and a question typed in. *)
Definition sample_page : ChatPage.Page (Flashcard := nat) (QuizQuestion := nat) :=
  {| ChatPage.p_input := js "  and then? ";
     ChatPage.p_isStreaming := false;
     ChatPage.store :=
       set_chatHistory
         [sample_message user "q1" 1; sample_message assistant "a1" 2]
         sample_store;
     ChatPage.toasts := [];
     ChatPage.sent := [] |}.

Definition body_two_chunks : list jsstring :=
  [sse "{'content':'It ','done':false}"; sse "{'content':'ends.','done':true}"].

(** A body with a comment line, a [data:] line without the space and a
    blank [data: ] line before its two events. *)
Definition body_with_other_lines : list jsstring :=
  [js ": ping" ++ [newline]
   ++ quoted "data:{'content':'no space','done':false}" ++ [newline]
   ++ js "data:   " ++ [newline]
   ++ sse "{'content':'a','done':false}"
   ++ sse "{'content':'b','done':true}"].

(** An event that lacks its line feed. *)
Definition unterminated_event : jsstring :=
  quoted "data: {'content':'last','done':true}".

(** The sample page with only blanks typed in. *)
Definition blank_page : ChatPage.Page (Flashcard := nat) (QuizQuestion := nat) :=
  ChatPage.setInput (js "   ") sample_page.

(** A refusal in the shape FastAPI gives it, and a gateway error with an
    empty body. *)
Definition refusal : Fetch.HttpResponse :=
  {| Fetch.ok := false; Fetch.status := 404;
     Fetch.content_type := Some (js "application/json; charset=utf-8");
     Fetch.body := Some (quoted "{'detail':'Document not found'}") |}.

Definition empty_gateway_error : Fetch.HttpResponse :=
  {| Fetch.ok := false; Fetch.status := 502;
     Fetch.content_type := Some (js "text/html");
     Fetch.body := Some [] |}.

Definition sample_file : Fetch.File :=
  {| Fetch.name := js "notes.pdf"; Fetch.bytes := [37; 80; 68; 70]%N |}.

(** Two questions, and a visit of the quiz page that generates them,
    answers both and submits. *)
Definition sample_quiz : list Quiz.QuizQuestion :=
  [{| Quiz.question := js "2+2?";
      Quiz.options :=
        {| Quiz.option_A := js "3"; Quiz.option_B := js "4";
           Quiz.option_C := js "5"; Quiz.option_D := js "22" |};
      Quiz.correct_answer := Quiz.B;
      Quiz.explanation := js "sum" |};
   {| Quiz.question := js "3*3?";
      Quiz.options :=
        {| Quiz.option_A := js "9"; Quiz.option_B := js "6";
           Quiz.option_C := js "33"; Quiz.option_D := js "0" |};
      Quiz.correct_answer := Quiz.A;
      Quiz.explanation := js "product" |}].

Definition sample_document : Store.DocumentInfo :=
  {| id := js "d1"; title := js "Notes"; source_type := pdf |}.

Definition sample_quiz_visit : list QuizPage.event :=
  [QuizPage.Submit;
   QuizPage.StartGenerate;
   QuizPage.FinishGenerate (Normal (QuizPage.mkQuizResponse sample_quiz 2));
   QuizPage.Answer 0 Quiz.B;
   QuizPage.Answer 5 Quiz.C;
   QuizPage.Submit;
   QuizPage.Answer 1 Quiz.D;
   QuizPage.Answer 1 Quiz.A;
   QuizPage.Submit;
   QuizPage.ToggleExplanation 1].

Definition sample_answers : gmap nat jsstring :=
  {[0 := js "B"; 1 := js "A"]}.

(** Three cards, and a visit of the flashcards page that runs past the
    last card. *)
Definition sample_cards : list FlashcardsPage.Flashcard :=
  [FlashcardsPage.mkFlashcard (js "q1") (js "a1");
   FlashcardsPage.mkFlashcard (js "q2") (js "a2");
   FlashcardsPage.mkFlashcard (js "q3") (js "a3")].

Definition sample_cards_visit : list FlashcardsPage.event :=
  [FlashcardsPage.Next; FlashcardsPage.Flip; FlashcardsPage.Next;
   FlashcardsPage.Next; FlashcardsPage.GoTo 7; FlashcardsPage.GoTo (-2);
   FlashcardsPage.Next].

Fixpoint same_text (a b : jsstring) : bool :=
  match a, b with
  | [], [] => true
  | x :: a, y :: b => N.eqb x y && same_text a b
  | _, _ => false
  end.

Fixpoint same_history (a b : list (Role * jsstring)) : bool :=
  match a, b with
  | [], [] => true
  | (r, x) :: a, (s, y) :: b => Role_eqb r s && same_text x y && same_history a b
  | _, _ => false
  end.

(** A server that answers one request only, with this body, and refuses
    every other request. *)
Definition serve_only (expected : ChatRequest) (reads : list jsstring)
  : ChatRequest -> FetchResult :=
  fun q =>
    if same_text (document_id q) (document_id expected)
       && same_text (message q) (message expected)
       && same_history (history q) (history expected)
    then Resolved (Body reads Closed)
    else Rejected (js "unexpected request").

(** The request of the turn of the sample page: the one earlier exchange
    is its history. *)
Definition sample_request : ChatRequest :=
  {| document_id := js "d1"; message := js "and then?";
     history := [(user, js "q1"); (assistant, js "a1")] |}.

(** A connection that stays open and sends the same content element at
    every read, for ever. *)
Definition endless_body : Live.open_body :=
  fun _ =>
    Some (Live.Arrives (sse "{'content':'la','done':false}")).

Definition endless : ChatRequest -> Live.open_fetch :=
  fun _ => Live.Answers (Live.Stream endless_body).

Definition endless_element : json :=
  JObj [(js "content", JStr (js "la")); (js "done", JBool false)].

(** A connection that sends one element and then stalls. *)
Definition stalled : ChatRequest -> Live.open_fetch :=
  fun _ =>
    Live.Answers
      (Live.Stream
         (fun i =>
            match i with
            | 0 => Some (Live.Arrives (sse "{'content':'la','done':false}"))
            | S _ => None
            end)).

(** The upload page over the sample store, with a link typed in. *)
Definition sample_upload : UploadPage.Page (Flashcard := nat) (QuizQuestion := nat) :=
  {| UploadPage.youtubeUrl := js " https://youtu.be/abc ";
     UploadPage.status := UploadPage.idle;
     UploadPage.progress := 0;
     UploadPage.statusText := [];
     UploadPage.dragOver := false;
     UploadPage.store := sample_store;
     UploadPage.toasts := [];
     UploadPage.scheduled := [] |}.

Definition sample_video : UploadPage.ProcessVideoResponse :=
  UploadPage.mkProcessVideoResponse (js "d2") 12 (js "Lecture") (js "ok").

Definition sample_pdf : UploadPage.ProcessPdfResponse :=
  UploadPage.mkProcessPdfResponse (js "d3") 40 7 (js "Paper") (js "ok").

Definition upper_case_file : Fetch.File :=
  {| Fetch.name := js "NOTES.PDF"; Fetch.bytes := [37; 80; 68; 70]%N |}.

(** The values of [Math.round(((i + 1) / n) * 90)]. *)
Definition sample_progress (i n : nat) : Z :=
  ((2 * 90 * Z.of_nat (S i) + Z.of_nat n) / (2 * Z.of_nat n))%Z.

End Samples.
(* ===================================================================== *)
(** * Facts about client/lib/store.ts *)
(* ===================================================================== *)

Module StoreFacts.
Import JS Store Samples.

Section WithCollections.
Context {Flashcard QuizQuestion : Type}.
Local Abbreviation LearningStore := (LearningStore Flashcard QuizQuestion).

Lemma Role_eqb_assistant (r : Role) :
  Role_eqb r assistant = true ↔ r = assistant.
Proof. destruct r; simpl; split; congruence. Qed.

(** The loop stops at the last assistant message and rewrites it. *)
Lemma update_loop_hit c (pre : list ChatMessage) m post rest :
  role m = assistant →
  Forall not_assistant post →
  update_loop c (pre ++ m :: post ++ rest) (length pre + 1 + length post)
  = pre ++ with_content m c :: post ++ rest.
Proof.
  intros Hm. revert rest.
  induction post as [|x post IH] using rev_ind; intros rest Hpost.
  - simpl. replace (length pre + 1 + 0) with (S (length pre)) by lia.
    simpl. rewrite list_lookup_middle by reflexivity.
    rewrite Hm. simpl.
    replace (length pre) with (length pre + 0) at 1 by lia.
    rewrite insert_app_r. reflexivity.
  - rewrite Forall_app, Forall_singleton in Hpost.
    destruct Hpost as [Hpost Hx].
    rewrite length_app. simpl.
    replace (length pre + 1 + (length post + 1))
      with (S (length pre + 1 + length post)) by lia.
    simpl.
    replace (pre ++ m :: (post ++ [x]) ++ rest)
      with ((pre ++ m :: post) ++ x :: rest)
      by (rewrite <- !app_assoc; reflexivity).
    rewrite list_lookup_middle
      by (rewrite length_app; simpl; lia).
    destruct (Role_eqb (role x) assistant) eqn:E.
    { apply Role_eqb_assistant in E. destruct (Hx E). }
    replace ((pre ++ m :: post) ++ x :: rest)
      with (pre ++ m :: post ++ x :: rest)
      by (rewrite <- !app_assoc; reflexivity).
    rewrite (IH (x :: rest) Hpost).
    rewrite <- !app_assoc. reflexivity.
Qed.

(** Without an assistant message among the first [n] the loop changes
    nothing. *)
Lemma update_loop_miss c (history : list ChatMessage) n :
  Forall not_assistant (take n history) →
  update_loop c history n = history.
Proof.
  induction n as [|i IH]; intros H; simpl; [reflexivity|].
  destruct (history !! i) as [m|] eqn:E; [|reflexivity].
  rewrite (take_S_r _ _ _ E) in H.
  rewrite Forall_app, Forall_singleton in H. destruct H as [H Hm].
  destruct (Role_eqb (role m) assistant) eqn:R.
  { apply Role_eqb_assistant in R. destruct (Hm R). }
  apply IH, H.
Qed.

(** C9.  [updateLastAssistantMessage content] rewrites the content of the
    last message whose role is assistant and nothing else: that message
    keeps its role and timestamp, every other message is kept,
    [currentDocument], [flashcards] and [quizQuestions] are kept, and a
    history without an assistant message is returned as it is. *)
Theorem updateLastAssistantMessage_frame (c : jsstring) (state : LearningStore) :
  currentDocument (updateLastAssistantMessage c state) = currentDocument state
  ∧ flashcards (updateLastAssistantMessage c state) = flashcards state
  ∧ quizQuestions (updateLastAssistantMessage c state) = quizQuestions state
  ∧ (∀ pre m post,
       chatHistory state = pre ++ m :: post →
       role m = assistant →
       Forall (λ x, role x ≠ assistant) post →
       chatHistory (updateLastAssistantMessage c state)
       = pre ++ {| role := role m; content := c; timestamp := timestamp m |}
             :: post)
  ∧ (Forall (λ x, role x ≠ assistant) (chatHistory state) →
     chatHistory (updateLastAssistantMessage c state) = chatHistory state).
Proof.
  repeat split; try reflexivity.
  - intros pre m post Hh Hm Hpost.
    unfold updateLastAssistantMessage. simpl. rewrite Hh.
    pose proof (update_loop_hit c pre m post [] Hm Hpost) as L.
    rewrite !app_nil_r in L.
    replace (length (pre ++ m :: post)) with (length pre + 1 + length post)
      by (rewrite length_app; simpl; lia).
    exact L.
  - intros Hall. unfold updateLastAssistantMessage. simpl.
    apply update_loop_miss. rewrite firstn_all. exact Hall.
Qed.

End WithCollections.

Example updateLastAssistantMessage_sample :
  chatHistory (updateLastAssistantMessage (js "a2") sample_store)
  = [sample_message user "q1" 1; sample_message assistant "a1" 2;
     sample_message user "q2" 3; sample_message assistant "a2" 4;
     sample_message user "q3" 5].
Proof. reflexivity. Qed.

Lemma updateLastAssistantMessage_frame_witness :
  chatHistory (updateLastAssistantMessage (js "a2") sample_store)
  = [sample_message user "q1" 1; sample_message assistant "a1" 2;
     sample_message user "q2" 3]
    ++ sample_message assistant "a2" 4 :: [sample_message user "q3" 5]
  ∧ chatHistory
      (updateLastAssistantMessage (js "a2")
         (set_chatHistory [sample_message user "q1" 1] sample_store))
    = [sample_message user "q1" 1].
Proof.
  split.
  - apply (proj1 (proj2 (proj2 (proj2
        (updateLastAssistantMessage_frame (js "a2") sample_store))))
        [sample_message user "q1" 1; sample_message assistant "a1" 2;
         sample_message user "q2" 3]
        (sample_message assistant EmptyString 4)
        [sample_message user "q3" 5]).
    + reflexivity.
    + reflexivity.
    + repeat constructor; simpl; congruence.
  - apply (proj2 (proj2 (proj2 (proj2
        (updateLastAssistantMessage_frame (js "a2")
           (set_chatHistory [sample_message user "q1" 1] sample_store)))))).
    repeat constructor; simpl; congruence.
Defined.

End StoreFacts.

(* ===================================================================== *)
(** * Facts about client/lib/api.ts *)
(* ===================================================================== *)

Module ApiFacts.
Import JS Store Api.

#[local] Arguments startsWith : simpl never.
#[local] Arguments trim : simpl never.
#[local] Arguments slice : simpl never.
#[local] Arguments js : simpl never.
#[local] Arguments member : simpl never.
#[local] Arguments truthy : simpl never.

Lemma split_not_nil sep s : split sep s ≠ [].
Proof.
  destruct s as [|c r]; simpl; [discriminate|].
  destruct (N.eqb c sep); [discriminate|].
  destruct (split sep r); discriminate.
Qed.

Lemma removelast_app_r {A} (l1 l2 : list A) :
  l2 ≠ [] → removelast (l1 ++ l2) = l1 ++ removelast l2.
Proof. intros H. apply removelast_app, H. Qed.

(** Splitting a text that goes on: the complete lines of the first part,
    then the split of what was left of it followed by the rest. *)
Lemma split_app sep (s t : jsstring) :
  split sep (s ++ t)
  = removelast (split sep s) ++ split sep (default [] (last (split sep s)) ++ t).
Proof.
  induction s as [|c r IH]; simpl; [reflexivity|].
  destruct (N.eqb c sep) eqn:E.
  - rewrite IH.
    pose proof (split_not_nil sep r) as Hn.
    destruct (split sep r) as [|h tl] eqn:S; [congruence|].
    reflexivity.
  - rewrite IH.
    pose proof (split_not_nil sep r) as Hn.
    destruct (split sep r) as [|h tl] eqn:S; [congruence|].
    destruct tl as [|h2 tl2].
    + simpl. rewrite E.
      destruct (split sep (h ++ t)) eqn:S2; [|reflexivity].
      exfalso. exact (split_not_nil _ _ S2).
    + reflexivity.
Qed.

Lemma complete_lines_app (s t : jsstring) :
  complete_lines (s ++ t) = complete_lines s ++ complete_lines (last_line s ++ t).
Proof.
  unfold complete_lines, last_line. rewrite split_app.
  apply removelast_app_r, split_not_nil.
Qed.

Lemma split_no_sep sep (s : jsstring) : sep ∉ s → split sep s = [s].
Proof.
  induction s as [|c r IH]; intros H; simpl; [reflexivity|].
  destruct (N.eqb_spec c sep) as [->|Hne].
  - exfalso. apply H. left.
  - rewrite IH; [reflexivity|]. intros Hin. apply H. right. exact Hin.
Qed.

Lemma last_split_no_sep sep (s : jsstring) :
  sep ∉ default [] (last (split sep s)).
Proof.
  induction s as [|c r IH]; simpl.
  - intros H. inversion H.
  - pose proof (split_not_nil sep r) as Hn.
    destruct (N.eqb_spec c sep) as [->|Hne].
    + destruct (split sep r) as [|h tl] eqn:S; [congruence|]. exact IH.
    + destruct (split sep r) as [|h tl] eqn:S; [congruence|].
      destruct tl as [|h2 tl2]; simpl in *.
      * intros H. apply elem_of_cons in H as [H|H]; [congruence|]. exact (IH H).
      * exact IH.
Qed.

Lemma complete_lines_no_newline (s : jsstring) :
  newline ∉ s → complete_lines s = [] ∧ last_line s = s.
Proof.
  intros H. unfold complete_lines, last_line.
  rewrite (split_no_sep _ _ H). split; reflexivity.
Qed.

Section WithPlatform.
Variable JSON_parse : jsstring → option json.
Variable ToString : option json → jsstring.

Local Abbreviation process_lines := (process_lines JSON_parse).
Local Abbreviation read_loop := (read_loop JSON_parse).

(** The lines after a [done] event are not looked at. *)
Lemma process_lines_app (l1 l2 : list jsstring) :
  process_lines (l1 ++ l2)
  = if snd (process_lines l1) then process_lines l1
    else (fst (process_lines l1) ++ fst (process_lines l2),
          snd (process_lines l2)).
Proof.
  induction l1 as [|line rest IH]; simpl.
  - destruct (process_lines l2); reflexivity.
  - destruct (startsWith data_prefix line); [|exact IH].
    destruct (trim (slice 6 line)) as [|c s]; [exact IH|].
    destruct (JSON_parse (c :: s)) as [chunk|]; [|exact IH].
    destruct (member chunk (js "done")) as [d|m].
    + destruct (truthy d); [reflexivity|].
      unfold yield_then. rewrite IH.
      destruct (process_lines rest) as [ys [|]]; reflexivity.
    + unfold yield_then. rewrite IH.
      destruct (process_lines rest) as [ys [|]]; reflexivity.
Qed.

(** A malformed [data:] line is passed over. *)
Lemma process_lines_malformed (bad : jsstring) (rest : list jsstring) :
  malformed JSON_parse bad →
  process_lines (bad :: rest) = process_lines rest.
Proof.
  intros [Hp Hj]. simpl. rewrite Hp.
  destruct (trim (slice 6 bad)); [reflexivity|].
  rewrite Hj. reflexivity.
Qed.

(** The elements yielded depend on the text received, not on how the
    reads cut it. *)
Lemma read_loop_lines (buffer : jsstring) (reads : list jsstring) fin :
  newline ∉ buffer →
  yielded (read_loop buffer reads fin)
  = fst (process_lines (complete_lines (buffer ++ concat reads))).
Proof.
  revert buffer. induction reads as [|value more IH]; intros buffer Hb.
  - simpl. rewrite app_nil_r.
    destruct (complete_lines_no_newline _ Hb) as [-> _].
    destruct fin; reflexivity.
  - simpl. rewrite app_assoc, complete_lines_app.
    rewrite process_lines_app.
    fold (complete_lines (buffer ++ value)).
    fold (last_line (buffer ++ value)).
    destruct (process_lines (complete_lines (buffer ++ value)))
      as [ys returned] eqn:E.
    simpl. destruct returned; simpl; [reflexivity|].
    rewrite IH; [reflexivity|]. apply last_split_no_sep.
Qed.

(** Once the response has a body, the generator throws only when the
    connection breaks. *)
Lemma read_loop_finish (buffer : jsstring) (reads : list jsstring) fin m :
  finish (read_loop buffer reads fin) = Throw m → fin = Failed m.
Proof.
  revert buffer. induction reads as [|value more IH]; intros buffer; simpl.
  - destruct fin; simpl; congruence.
  - destruct (process_lines (removelast (split newline (buffer ++ value))))
      as [ys returned].
    destruct returned; simpl; [discriminate|]. apply IH.
Qed.

Lemma only_last_cons f (x : json) (rest : list json) :
  f x = false → only_last f rest = true → only_last f (x :: rest) = true.
Proof.
  intros Hx Hrest. destruct rest as [|y rest']; [reflexivity|].
  change (negb (f x) && only_last f (y :: rest') = true).
  rewrite Hx, Hrest. reflexivity.
Qed.

Lemma only_last_app f (pre ys : list json) :
  forallb (λ x, negb (f x)) pre = true →
  only_last f ys = true →
  only_last f (pre ++ ys) = true.
Proof.
  induction pre as [|x pre IH]; intros Hpre Hys; [exact Hys|].
  simpl in Hpre. apply andb_prop in Hpre as [Hx Hpre].
  apply negb_true_iff in Hx.
  change ((x :: pre) ++ ys) with (x :: (pre ++ ys)).
  apply only_last_cons; [exact Hx|]. apply IH; assumption.
Qed.

(** What [only_last] says, element by element. *)
Lemma only_last_spec f (ys : list json) :
  only_last f ys = true →
  ∀ pre x post, ys = pre ++ x :: post → f x = true → post = [].
Proof.
  induction ys as [|y rest IH]; intros H pre x post Heq Hx.
  - destruct pre; discriminate.
  - destruct rest as [|z rest'].
    + destruct pre as [|a pre'].
      * injection Heq as _ Hpost. symmetry. exact Hpost.
      * injection Heq as _ Hnil. destruct pre'; discriminate.
    + change (negb (f y) && only_last f (z :: rest') = true) in H.
      apply andb_prop in H as [Hy Hrest].
      apply negb_true_iff in Hy.
      destruct pre as [|a pre'].
      * injection Heq as Hxy _. congruence.
      * injection Heq as _ Heq'. exact (IH Hrest pre' x post Heq' Hx).
Qed.

(** Until it returns, the loop over the lines yields no [done] chunk;
    when it returns, the [done] chunk is the last one it yielded. *)
Lemma process_lines_done (lines : list jsstring) :
  only_last is_done (fst (process_lines lines)) = true
  ∧ (snd (process_lines lines) = false →
     forallb (λ x, negb (is_done x)) (fst (process_lines lines)) = true).
Proof.
  induction lines as [|line rest [IH1 IH2]]; simpl; [split; reflexivity|].
  destruct (startsWith data_prefix line); [|split; assumption].
  destruct (trim (slice 6 line)) as [|c s]; [split; assumption|].
  destruct (JSON_parse (c :: s)) as [chunk|]; [|split; assumption].
  destruct (member chunk (js "done")) as [d|m] eqn:M.
  - destruct (truthy d) eqn:T; simpl.
    + split; [reflexivity|discriminate].
    + assert (is_done chunk = false) as Hc
        by (unfold is_done; rewrite M; exact T).
      split.
      * apply only_last_cons; assumption.
      * intros Hr. rewrite Hc. simpl. apply IH2, Hr.
  - assert (is_done chunk = false) as Hc
      by (unfold is_done; rewrite M; reflexivity).
    simpl. split.
    + apply only_last_cons; assumption.
    + intros Hr. rewrite Hc. simpl. apply IH2, Hr.
Qed.

Lemma read_loop_done (buffer : jsstring) (reads : list jsstring) fin :
  only_last is_done (yielded (read_loop buffer reads fin)) = true.
Proof.
  revert buffer. induction reads as [|value more IH]; intros buffer; simpl.
  - destruct fin; reflexivity.
  - pose proof (process_lines_done
                  (removelast (split newline (buffer ++ value)))) as [H1 H2].
    destruct (process_lines (removelast (split newline (buffer ++ value))))
      as [ys returned].
    simpl in *. destruct returned; simpl; [exact H1|].
    apply only_last_app; [apply H2; reflexivity|apply IH].
Qed.

Lemma chatStream_done (fetch : ChatRequest → FetchResult)
    (documentId message : jsstring) (history : list ChatMessage) :
  only_last is_done
    (yielded (chatStream JSON_parse ToString fetch documentId message history))
  = true.
Proof.
  unfold chatStream.
  destruct (fetch _) as [m|[body| |reads fin]]; try reflexivity.
  - destruct (member _ _); reflexivity.
  - apply read_loop_done.
Qed.

(** C10.  A [data:] line whose payload is not JSON is passed over: the
    elements yielded are those of the lines before it followed by those
    of the lines after it (unless a line before it was a [done] chunk,
    where the generator had already returned), and the generator does
    not throw unless the connection breaks. *)
Theorem chatStream_skips_malformed_line
    (fetch : ChatRequest → FetchResult) (documentId message : jsstring)
    (history : list ChatMessage) (reads : list jsstring) (fin : stream_end)
    (before : list jsstring) (bad : jsstring) (after : list jsstring) :
  fetch (chat_request documentId message history) = Resolved (Body reads fin) →
  complete_lines (concat reads) = before ++ bad :: after →
  malformed JSON_parse bad →
  yielded (chatStream JSON_parse ToString fetch documentId message history)
  = (if snd (process_lines before) then fst (process_lines before)
     else fst (process_lines before) ++ fst (process_lines after))
  ∧ (∀ m,
       finish (chatStream JSON_parse ToString fetch documentId message history)
       = Throw m →
       fin = Failed m).
Proof.
  intros Hfetch Hlines Hbad. unfold chatStream. rewrite Hfetch. split.
  - rewrite read_loop_lines by (intros H; inversion H).
    simpl app. rewrite Hlines, process_lines_app.
    rewrite (process_lines_malformed bad after Hbad).
    destruct (process_lines before) as [ys [|]]; reflexivity.
  - intros m. apply read_loop_finish.
Qed.

End WithPlatform.

Example chatStream_malformed_sample :
  yielded (chatStream JSONText.parse Samples.ToString
             (Samples.serve Samples.body_with_malformed_line) (js "d1") (js "hi") [])
  = [JObj [(js "content", JStr (js "a")); (js "done", JBool false)];
     JObj [(js "content", JStr (js "b")); (js "done", JBool true)]].
Proof. vm_compute. reflexivity. Qed.

Lemma chatStream_skips_malformed_line_witness :
  yielded (chatStream JSONText.parse Samples.ToString
             (Samples.serve Samples.body_with_malformed_line) (js "d1") (js "hi") [])
  = [JObj [(js "content", JStr (js "a")); (js "done", JBool false)];
     JObj [(js "content", JStr (js "b")); (js "done", JBool true)]].
Proof.
  refine (eq_trans (proj1 (chatStream_skips_malformed_line
            JSONText.parse Samples.ToString
            (Samples.serve Samples.body_with_malformed_line) (js "d1") (js "hi") []
            Samples.body_with_malformed_line Closed
            [quoted "data: {'content':'a','done':false}"]
            (js "data: {oops")
            [quoted "data: {'content':'b','done':true}"]
            _ _ _)) _).
  - reflexivity.
  - vm_compute. reflexivity.
  - split; vm_compute; reflexivity.
  - vm_compute. reflexivity.
Defined.

End ApiFacts.

(* ===================================================================== *)
(** * Facts about client/app/chat/page.tsx *)
(* ===================================================================== *)

Module ChatPageFacts.
Import JS Store Api ChatPage.

#[local] Arguments startsWith : simpl never.
#[local] Arguments trim : simpl never.
#[local] Arguments js : simpl never.
#[local] Arguments member : simpl never.
#[local] Arguments truthy : simpl never.
#[local] Arguments chatStream : simpl never.
#[local] Arguments updateLastAssistantMessage : simpl never.

Section WithPlatform.
Context {Flashcard QuizQuestion : Type}.
Variable JSON_parse : jsstring → option json.
Variable ToString : option json → jsstring.

Local Abbreviation Page := (Page (Flashcard := Flashcard) (QuizQuestion := QuizQuestion)).
Local Abbreviation consume := (consume (Flashcard := Flashcard) (QuizQuestion := QuizQuestion) ToString).

(** The loop stops reading at the first element that carries an error. *)
Lemma consume_error (fullResponse : jsstring) (chunks : list json)
    (fin : completion unit) (p : Page) :
  only_last carries_error (fst (consume fullResponse chunks fin p)) = true.
Proof.
  revert fullResponse p.
  induction chunks as [|chunk rest IH]; intros fullResponse p; simpl.
  - destruct fin; reflexivity.
  - destruct (member chunk (js "error")) as [e|m] eqn:M; [|reflexivity].
    destruct (truthy e) eqn:T; [reflexivity|].
    specialize (IH (fullResponse ++ ToString
                      match member chunk (js "content") with
                      | Normal c => c
                      | Throw _ => None
                      end)
                   (on_store (updateLastAssistantMessage
                      (fullResponse ++ ToString
                         match member chunk (js "content") with
                         | Normal c => c
                         | Throw _ => None
                         end)) p)).
    destruct (consume _ rest fin _) as [received p'].
    simpl in *. apply ApiFacts.only_last_cons; [|exact IH].
    unfold carries_error. rewrite M. exact T.
Qed.

(** The loop receives the elements in the order they are yielded. *)
Lemma consume_prefix (fullResponse : jsstring) (chunks : list json)
    (fin : completion unit) (p : Page) :
  fst (consume fullResponse chunks fin p) `prefix_of` chunks.
Proof.
  revert fullResponse p.
  induction chunks as [|chunk rest IH]; intros fullResponse p; simpl.
  - destruct fin; apply prefix_nil.
  - destruct (member chunk (js "error")) as [e|m].
    + destruct (truthy e).
      * apply (prefix_cons chunk [] rest), prefix_nil.
      * match goal with
        | |- context [consume ?f rest fin ?q] =>
            specialize (IH f q); destruct (consume f rest fin q)
        end.
        simpl in *. apply prefix_cons, IH.
    + apply (prefix_cons chunk [] rest), prefix_nil.
Qed.

(** On a history that ends with an assistant message, the update
    rewrites the content of that message. *)
Lemma update_placeholder (c c0 : jsstring) (ts : option Z)
    (h : list ChatMessage) (st : LearningStore Flashcard QuizQuestion) :
  chatHistory st = h ++ [mkChatMessage assistant c0 ts] →
  chatHistory (updateLastAssistantMessage c st)
  = h ++ [mkChatMessage assistant c ts].
Proof.
  intros H. unfold updateLastAssistantMessage. simpl. rewrite H.
  pose proof (StoreFacts.update_loop_hit c h (mkChatMessage assistant c0 ts)
                [] [] eq_refl ltac:(constructor)) as L.
  simpl in L. rewrite length_app. simpl.
  replace (length h + 1 + 0) with (length h + 1) in L by lia.
  exact L.
Qed.

Lemma turn_open_update h ts requests c (p : Page) :
  turn_open h ts requests p →
  turn_open h ts requests (on_store (updateLastAssistantMessage c) p).
Proof.
  intros [Hs [c0 Hh]]. split; [exact Hs|]. exists c.
  simpl. apply (update_placeholder c c0), Hh.
Qed.

Lemma turn_open_toast h ts requests m (p : Page) :
  turn_open h ts requests p → turn_open h ts requests (toast_error m p).
Proof. intros H. exact H. Qed.

Lemma turn_open_after_loop h ts requests full (p : Page) :
  turn_open h ts requests p → turn_open h ts requests (after_loop full p).
Proof.
  intros H. destruct full; simpl; [|exact H]. apply turn_open_update, H.
Qed.

Lemma consume_turn_open h ts requests (fullResponse : jsstring)
    (chunks : list json) (fin : completion unit) (p : Page) :
  turn_open h ts requests p →
  turn_open h ts requests (snd (consume fullResponse chunks fin p)).
Proof.
  revert fullResponse p.
  induction chunks as [|chunk rest IH]; intros fullResponse p H; simpl.
  - destruct fin; simpl.
    + apply turn_open_after_loop, H.
    + apply turn_open_update, turn_open_toast, H.
  - destruct (member chunk (js "error")) as [e|m]; simpl.
    + destruct (truthy e); simpl.
      * apply turn_open_after_loop, turn_open_update, turn_open_toast, H.
      * match goal with
        | |- context [consume ?f rest fin ?q] =>
            specialize (IH f q); destruct (consume f rest fin q)
        end.
        simpl in *. apply IH, turn_open_update, H.
    + apply turn_open_update, turn_open_toast, H.
Qed.

(** C3.  A turn that is sent (the input is not blank, no turn is being
    streamed, a document is loaded) asks the network one thing: the
    answer to the request whose history is the messages the store held
    before the turn, in their order, oldest first.  The turn depends on
    the network through the answer to that request alone, and on that
    answer it does depend: when the request is rejected, the message of
    the rejection is the toast shown.  The user message of the turn and
    the assistant message of the turn are appended to the store after
    the earlier ones and are not part of the history posted. *)
Theorem handleSend_history (fetch : ChatRequest → FetchResult)
    (now1 now2 : Z) (p : Page) (doc : DocumentInfo) (posted : ChatRequest) :
  trim (p_input p) ≠ [] →
  p_isStreaming p = false →
  currentDocument (store p) = Some doc →
  posted = {| document_id := id doc;
              message := trim (p_input p);
              history :=
                List.map (λ m, (role m, content m)) (chatHistory (store p)) |} →
  (∀ fetch' : ChatRequest → FetchResult,
     fetch' posted = fetch posted →
     handleSend JSON_parse ToString fetch' now1 now2 (render p) p
     = handleSend JSON_parse ToString fetch now1 now2 (render p) p)
  ∧ (∀ m, fetch posted = Rejected m →
          toasts (snd (handleSend JSON_parse ToString fetch now1 now2
                         (render p) p))
          = toasts p ++ [m])
  ∧ ∃ reply,
      chatHistory
        (store (snd (handleSend JSON_parse ToString fetch now1 now2 (render p) p)))
      = chatHistory (store p)
        ++ [mkChatMessage user (trim (p_input p)) (Some now1);
            mkChatMessage assistant reply (Some now2)].
Proof.
  intros Hin Hst Hdoc Hposted.
  assert (∀ f : ChatRequest → FetchResult,
            chatStream JSON_parse ToString f (id doc) (trim (p_input p))
              (chatHistory (store p))
            = chatStream JSON_parse ToString (λ _, f posted) (id doc)
                (trim (p_input p)) (chatHistory (store p))) as Hstream.
  { intros f. unfold Api.chatStream, chat_request. rewrite <- Hposted.
    reflexivity. }
  split; [|split].
  - intros fetch' Hsame. unfold handleSend. simpl.
    destruct (trim (p_input p)) as [|c s] eqn:T; [congruence|].
    rewrite Hst, Hdoc.
    rewrite (Hstream fetch'), (Hstream fetch), Hsame. reflexivity.
  - intros m Hm. unfold handleSend. simpl.
    destruct (trim (p_input p)) as [|c s] eqn:T; [congruence|].
    rewrite Hst, Hdoc. rewrite (Hstream fetch), Hm.
    unfold Api.chatStream. reflexivity.
  - unfold handleSend. simpl.
    destruct (trim (p_input p)) as [|c s] eqn:T; [congruence|].
    rewrite Hst, Hdoc.
    match goal with
    | |- context [ChatPage.consume ToString ?f ?ys ?fin ?q] =>
        pose proof (consume_turn_open
          (chatHistory (store p) ++ [mkChatMessage user (c :: s) (Some now1)])
          (Some now2)
          (sent p ++ [chat_request (id doc) (c :: s) (chatHistory (store p))])
          f ys fin q) as H;
        destruct (ChatPage.consume ToString f ys fin q) as [received p']
    end.
    simpl in *.
    destruct H as [Hs [reply Hh]].
    + split; [reflexivity|]. exists []. reflexivity.
    + exists reply. rewrite Hh, <- app_assoc. reflexivity.
Qed.

End WithPlatform.

(** The sample page gets its answer from a server that answers nothing
    but the request with the one earlier exchange as history, and ends
    with four messages; a server that expects the question of the turn
    in the history refuses it. *)
Example handleSend_sample :
  let p' := snd (handleSend JSONText.parse Samples.ToString
                   (Samples.serve_only Samples.sample_request
                      Samples.body_two_chunks) 10 11
                   (render Samples.sample_page) Samples.sample_page) in
  List.map (λ m, (role m, content m)) (chatHistory (store p'))
  = [(user, js "q1"); (assistant, js "a1");
     (user, js "and then?"); (assistant, js "It ends.")]
  ∧ toasts p' = []
  ∧ p_isStreaming p' = false
  ∧ toasts
      (snd (handleSend JSONText.parse Samples.ToString
              (Samples.serve_only
                 {| document_id := js "d1"; message := js "and then?";
                    history := [(user, js "q1"); (assistant, js "a1");
                                (user, js "and then?")] |}
                 Samples.body_two_chunks) 10 11
              (render Samples.sample_page) Samples.sample_page))
    = [js "unexpected request"].
Proof. vm_compute. repeat split. Qed.

Lemma handleSend_history_witness :
  handleSend JSONText.parse Samples.ToString
    (Samples.serve_only Samples.sample_request Samples.body_two_chunks) 10 11
    (render Samples.sample_page) Samples.sample_page
  = handleSend JSONText.parse Samples.ToString
      (Samples.serve Samples.body_two_chunks) 10 11
      (render Samples.sample_page) Samples.sample_page.
Proof.
  refine (proj1 (handleSend_history JSONText.parse Samples.ToString
            (Samples.serve Samples.body_two_chunks) 10 11 Samples.sample_page
            {| id := js "d1"; title := js "Notes"; source_type := pdf |}
            Samples.sample_request _ _ _ _)
            (Samples.serve_only Samples.sample_request Samples.body_two_chunks) _).
  - vm_compute. discriminate.
  - reflexivity.
  - reflexivity.
  - vm_compute. reflexivity.
  - vm_compute. reflexivity.
Defined.

(** A body that ends after a chunk that is not a [done] chunk gives a
    sequence without a final [done] element, and the generator goes on
    yielding after an element that carries an error. *)
Lemma chatStream_not_done_terminated :
  ¬ done_terminated
      (yielded (chatStream JSONText.parse Samples.ToString
                  (Samples.serve Samples.body_without_done) (js "d1") (js "hi") []))
  ∧ ¬ error_terminates
        (yielded (chatStream JSONText.parse Samples.ToString
                    (Samples.serve Samples.body_error_then_more)
                    (js "d1") (js "hi") [])).
Proof.
  split.
  - intros (pre & x & H & Hd).
    vm_compute in H.
    destruct pre as [|a pre'].
    + injection H as <-. vm_compute in Hd. discriminate.
    + injection H as _ H. destruct pre'; discriminate.
  - intros H.
    specialize (H []
      (JObj [(js "content", JStr []); (js "done", JBool false);
             (js "error", JStr (js "quota"))])
      [JObj [(js "content", JStr (js "late")); (js "done", JBool false)]]).
    assert ([JObj [(js "content", JStr (js "late")); (js "done", JBool false)]]
            = []) as Habs; [|discriminate].
    apply H; vm_compute; reflexivity.
Qed.

Example chatStream_error_sample :
  fst (handleSend JSONText.parse Samples.ToString
         (Samples.serve Samples.body_error_then_more) 10 11
         (render Samples.sample_page) Samples.sample_page)
  = [JObj [(js "content", JStr []); (js "done", JBool false);
           (js "error", JStr (js "quota"))]].
Proof. vm_compute. reflexivity. Qed.

End ChatPageFacts.

(* ===================================================================== *)
(** * Facts about supabase_setup.sql *)
(* ===================================================================== *)

Module DbFacts.
Import Db.

#[local] Arguments dimension : simpl never.

Lemma distance_le_total (a b : option Q) :
  distance_le a b = false → distance_le b a = true.
Proof.
  destruct a as [x|], b as [y|]; simpl; try congruence.
  intros H. apply Qle_bool_iff. apply Qlt_le_weak, Qnot_le_lt.
  intros Hle. apply Qle_bool_iff in Hle. congruence.
Qed.

Lemma distance_le_trans (a b c : option Q) :
  distance_le a b = true → distance_le b c = true → distance_le a c = true.
Proof.
  destruct a as [x|], b as [y|], c as [z|]; simpl; try congruence.
  rewrite !Qle_bool_iff. apply Qle_trans.
Qed.

Section OrderBy.
Context {A : Type}.
Variable key : A → option Q.

Local Abbreviation key_le := (key_le key).

Lemma insert_by_perm (x : A) (l : list A) : insert_by key x l ≡ₚ x :: l.
Proof.
  induction l as [|y rest IH]; simpl; [reflexivity|].
  destruct (distance_le (key x) (key y)); [reflexivity|].
  rewrite IH. apply Permutation_swap.
Qed.

Lemma order_by_perm (l : list A) : order_by key l ≡ₚ l.
Proof.
  induction l as [|x rest IH]; simpl; [reflexivity|].
  rewrite insert_by_perm, IH. reflexivity.
Qed.

Lemma insert_by_sorted (x : A) (l : list A) :
  StronglySorted key_le l → StronglySorted key_le (insert_by key x l).
Proof.
  induction l as [|y rest IH]; intros Hs; simpl.
  - constructor; constructor.
  - inversion Hs as [|? ? Hrest Hall]; subst.
    destruct (distance_le (key x) (key y)) eqn:E.
    + constructor; [exact Hs|].
      constructor; [exact E|].
      eapply Forall_impl; [exact Hall|].
      intros z Hz. exact (distance_le_trans _ _ _ E Hz).
    + constructor; [apply IH, Hrest|].
      rewrite insert_by_perm.
      constructor; [apply distance_le_total, E|exact Hall].
Qed.

Lemma order_by_sorted (l : list A) : StronglySorted key_le (order_by key l).
Proof.
  induction l as [|x rest IH]; simpl; [constructor|].
  apply insert_by_sorted, IH.
Qed.

Lemma take_sorted n (l : list A) :
  StronglySorted key_le l → StronglySorted key_le (take n l).
Proof.
  revert n. induction l as [|x rest IH]; intros n Hs.
  - rewrite take_nil. constructor.
  - destruct n as [|n]; simpl; [constructor|].
    inversion Hs as [|? ? Hrest Hall]; subst.
    constructor; [apply IH, Hrest|].
    apply Forall_forall. intros z Hz.
    rewrite Forall_forall in Hall. apply Hall.
    exact (subseteq_take n rest z Hz).
Qed.
End OrderBy.

Section WithDistance.
Variable cosine_distance : vector → vector → Q.

Local Abbreviation match_chunks := (match_chunks cosine_distance).
Local Abbreviation match_chunks_with := (match_chunks_with cosine_distance).
Local Abbreviation distance := (distance cosine_distance).
Local Abbreviation ranked := (ranked cosine_distance).
Local Abbreviation select := (select cosine_distance).

Lemma limit_take {A} (n : option Z) (l rows : list A) :
  limit n l = Ok rows → ∃ k, rows = take k l.
Proof.
  destruct n as [n|]; simpl.
  - destruct (is_int n); simpl; [|discriminate].
    destruct (n <? 0)%Z; [discriminate|].
    intros [= <-]. eauto.
  - intros [= <-]. exists (length l). rewrite firstn_all. reflexivity.
Qed.

(** A search that succeeds compared the query with embeddings of its own
    dimension only, and returns the first rows of the ranking. *)
Lemma match_chunks_inv db q doc_id k rows :
  match_chunks db q doc_id k = Ok rows →
  forallb (λ r, comparable q (snd r)) (chunks_of db doc_id) = true
  ∧ ∃ n, rows = List.map (select q) (take n (ranked db q doc_id)).
Proof.
  unfold Db.match_chunks.
  destruct (forallb _ (chunks_of db doc_id)) eqn:Hd; simpl; [|discriminate].
  fold (ranked db q doc_id).
  destruct (limit _ (ranked db q doc_id)) as [picked|e] eqn:L; [|discriminate].
  intros [= <-]. split; [reflexivity|].
  destruct (limit_take _ _ _ L) as [n ->]. eauto.
Qed.

Lemma elem_of_chunks_of db doc_id (r : uuid * chunk) :
  r ∈ chunks_of db doc_id
  ↔ chunks db !! fst r = Some (snd r) ∧ document_id (snd r) = doc_id.
Proof.
  unfold chunks_of. rewrite list_elem_of_In, filter_In, <- list_elem_of_In.
  destruct r as [i c]. rewrite elem_of_map_to_list. simpl.
  rewrite N.eqb_eq. reflexivity.
Qed.

Lemma elem_of_ranked db q doc_id (r : uuid * chunk) :
  r ∈ ranked db q doc_id
  ↔ chunks db !! fst r = Some (snd r) ∧ document_id (snd r) = doc_id.
Proof.
  unfold ranked. rewrite (order_by_perm _ (chunks_of db doc_id)).
  apply elem_of_chunks_of.
Qed.

(** Every row returned is the row of a chunk of the document asked for. *)
Lemma match_chunks_row db q doc_id k rows (r : match_row) :
  match_chunks db q doc_id k = Ok rows →
  r ∈ rows →
  ∃ c, chunks db !! id r = Some c ∧ document_id c = doc_id
       ∧ m_content r = content c
       ∧ similarity r
         = option_map (λ e, (1 - cosine_distance e q)%Q) (embedding c).
Proof.
  intros H Hr. apply match_chunks_inv in H as [_ [n ->]].
  apply list_elem_of_In, in_map_iff in Hr as [[i c] [<- Hin]].
  apply list_elem_of_In in Hin.
  apply (subseteq_take n), elem_of_ranked in Hin as [Hl Hd].
  exists c. simpl in *. repeat split; try assumption.
  unfold Db.distance. destruct (embedding c); reflexivity.
Qed.

(** C1.  [match_chunks] called for document [A] returns only chunks of
    [A]: each row it returns is the row of a stored chunk whose
    [document_id] is [A], and is not the row of a chunk of another
    document [B]. *)
Theorem match_chunks_scoped db (query_embedding : vector) (A B : uuid)
    (k : argument (option Z)) (rows : list match_row) (r : match_row) :
  B ≠ A →
  match_chunks db query_embedding A k = Ok rows →
  r ∈ rows →
  (∃ c, chunks db !! id r = Some c ∧ document_id c = A
        ∧ m_content r = content c)
  ∧ ¬ (∃ c, chunks db !! id r = Some c ∧ document_id c = B).
Proof.
  intros Hne H Hr.
  destruct (match_chunks_row _ _ _ _ _ _ H Hr) as (c & Hc & Hd & Hcontent & _).
  split; [eauto|].
  intros (c' & Hc' & Hd'). congruence.
Qed.

Lemma StronglySorted_map {A B} (R : A → A → Prop) (R' : B → B → Prop)
    (f : A → B) (l : list A) :
  (∀ a b, R a b → R' (f a) (f b)) →
  StronglySorted R l → StronglySorted R' (List.map f l).
Proof.
  intros Hf. induction 1 as [|x l Hs IH Hall]; simpl; constructor.
  - exact IH.
  - rewrite Forall_forall in Hall. apply Forall_forall.
    intros y Hy. apply list_elem_of_In, in_map_iff in Hy as [z [<- Hz]].
    apply Hf, Hall, list_elem_of_In, Hz.
Qed.

Lemma select_descending q (a b : uuid * chunk) :
  distance_le (distance q (snd a)) (distance q (snd b)) = true →
  similarity_ge (select q a) (select q b).
Proof.
  unfold similarity_ge. simpl.
  destruct (distance q (snd a)) as [x|], (distance q (snd b)) as [y|];
    simpl; try easy.
  rewrite Qle_bool_iff. intros H.
  unfold Qminus. apply Qplus_le_r, Qopp_le_compat, H.
Qed.

(** C4.  The similarity of each row returned is one minus the cosine
    distance between the chunk's embedding and the query embedding, and
    the rows come by ascending distance, which is by descending
    similarity. *)
Theorem match_chunks_similarity_descending db (query_embedding : vector)
    (doc_id : uuid) (k : argument (option Z)) (rows : list match_row) :
  match_chunks db query_embedding doc_id k = Ok rows →
  (∀ r, r ∈ rows →
     ∃ c, chunks db !! id r = Some c
          ∧ similarity r
            = option_map (λ e, (1 - cosine_distance e query_embedding)%Q)
                (embedding c))
  ∧ (∃ picked,
       rows = List.map (select query_embedding) picked
       ∧ StronglySorted
           (λ a b, distance_le (distance query_embedding (snd a))
                               (distance query_embedding (snd b)) = true)
           picked)
  ∧ StronglySorted similarity_ge rows.
Proof.
  intros H. split; [|split].
  - intros r Hr.
    destruct (match_chunks_row _ _ _ _ _ _ H Hr) as (c & Hc & _ & _ & Hs).
    eauto.
  - apply match_chunks_inv in H as [_ [n ->]].
    eexists. split; [reflexivity|].
    apply (take_sorted (λ r, distance query_embedding (snd r))).
    apply order_by_sorted.
  - apply match_chunks_inv in H as [_ [n ->]].
    eapply StronglySorted_map; [apply select_descending|].
    apply (take_sorted (λ r, distance query_embedding (snd r))).
    apply order_by_sorted.
Qed.

Lemma ranked_length db q doc_id :
  length (ranked db q doc_id) = chunk_count db doc_id.
Proof. unfold ranked, chunk_count. apply Permutation_length, order_by_perm. Qed.

Lemma comparable_rows db q doc_id :
  dimensions_ok db →
  length q = dimension →
  forallb (λ r, comparable q (snd r)) (chunks_of db doc_id) = true.
Proof.
  intros Hdb Hq. apply forallb_forall. intros [i c] Hin.
  apply list_elem_of_In, elem_of_chunks_of in Hin as [Hc _].
  unfold comparable. simpl in *.
  destruct (embedding c) as [e|] eqn:E; [|reflexivity].
  rewrite (Hdb i c e Hc E), Hq. apply Nat.eqb_refl.
Qed.

Lemma match_chunks_seq_scan db q doc_id k :
  match_chunks_with seq_scan db q doc_id k = match_chunks db q doc_id k.
Proof. reflexivity. Qed.

Lemma elem_of_found p db doc_id (r : uuid * chunk) :
  r ∈ found p db doc_id
  ↔ chunks db !! fst r = Some (snd r) ∧ document_id (snd r) = doc_id
    ∧ reached_by p (fst r) (snd r).
Proof.
  unfold found. rewrite list_elem_of_In, filter_In, N.eqb_eq.
  destruct p as [|reached]; simpl.
  - rewrite <- list_elem_of_In. destruct r as [i c].
    rewrite elem_of_map_to_list. simpl. tauto.
  - rewrite filter_In, <- list_elem_of_In. destruct r as [i c].
    rewrite elem_of_map_to_list, andb_true_iff, bool_decide_eq_true. simpl.
    tauto.
Qed.

Lemma filter_filter_length {A} (f g : A → bool) (l : list A) :
  length (List.filter f (List.filter g l)) ≤ length (List.filter f l).
Proof.
  induction l as [|x l IH]; simpl; [lia|].
  destruct (g x), (f x) eqn:F; simpl; rewrite ?F; simpl; lia.
Qed.

(** A plan finds no more rows than the document has. *)
Lemma found_length p db doc_id :
  length (found p db doc_id) ≤ chunk_count db doc_id.
Proof.
  unfold found, chunk_count, chunks_of. destruct p as [|reached]; simpl.
  - lia.
  - apply filter_filter_length.
Qed.

Lemma comparable_found p db q doc_id :
  dimensions_ok db →
  length q = dimension →
  forallb (λ r, comparable q (snd r)) (found p db doc_id) = true.
Proof.
  intros Hdb Hq. apply forallb_forall. intros [i c] Hin.
  apply list_elem_of_In, elem_of_found in Hin as [Hc _].
  unfold comparable. simpl in *.
  destruct (embedding c) as [e|] eqn:E; [|reflexivity].
  rewrite (Hdb i c e Hc E), Hq. apply Nat.eqb_refl.
Qed.

Lemma plan_accepts p (q : vector) :
  length q = dimension →
  match p with
  | seq_scan => false
  | index_scan _ => negb (Nat.eqb (length q) dimension)
  end = false.
Proof.
  intros Hq. destruct p; [reflexivity|]. rewrite Hq, Nat.eqb_refl. reflexivity.
Qed.

(** On a store whose embeddings have the declared dimension, a search
    with a query of that dimension and a count that is a non-negative
    [int] succeeds with the first rows of the ranking of the rows
    found. *)
Lemma match_chunks_given p db q doc_id (k : Z) :
  dimensions_ok db →
  length q = dimension →
  (0 ≤ k ≤ int_max)%Z →
  match_chunks_with p db q doc_id (given (Some k))
  = Ok (List.map (select q)
          (take (Z.to_nat k)
             (order_by (λ r, distance q (snd r)) (found p db doc_id)))).
Proof.
  intros Hdb Hq Hk. unfold Db.match_chunks_with.
  rewrite (plan_accepts p q Hq), (comparable_found p db q doc_id Hdb Hq). simpl.
  assert (is_int k = true) as ->.
  { unfold is_int, int_min, int_max in *.
    apply andb_true_iff. split; apply Z.leb_le; lia. }
  simpl. destruct (Z.ltb_spec k 0); [lia|]. reflexivity.
Qed.

Lemma ordered_length p db q doc_id :
  length (order_by (λ r, distance q (snd r)) (found p db doc_id))
  = length (found p db doc_id).
Proof. apply Permutation_length, order_by_perm. Qed.

(** C5.  With embeddings and a query of the declared dimension, and
    whatever the plan: a call without [k] is the call with [k = 5] and
    returns at most 5 rows; a call with a [k] returns the first [k] rows
    of the ranking of the rows found, or all of them when there are
    fewer; and with a [k] above the number of chunks of the document it
    succeeds and returns the chunks of the document that the plan reads,
    and no other row: every chunk of the document under a scan of the
    table, those of the lists read under a scan of the index. *)
Theorem match_chunks_count (p : plan) db (query_embedding : vector)
    (doc_id : uuid) :
  dimensions_ok db →
  length query_embedding = dimension →
  match_chunks_with p db query_embedding doc_id omitted
  = match_chunks_with p db query_embedding doc_id (given (Some 5%Z))
  ∧ (∃ rows, match_chunks_with p db query_embedding doc_id omitted = Ok rows
             ∧ length rows ≤ 5)
  ∧ (∀ k : Z, (0 ≤ k ≤ int_max)%Z →
       ∃ rows,
         match_chunks_with p db query_embedding doc_id (given (Some k)) = Ok rows
         ∧ length rows = Z.to_nat k `min` length (found p db doc_id)
         ∧ length rows ≤ Z.to_nat k)
  ∧ (∀ k : Z, (Z.of_nat (chunk_count db doc_id) < k ≤ int_max)%Z →
       ∃ rows,
         match_chunks_with p db query_embedding doc_id (given (Some k)) = Ok rows
         ∧ (∀ i c, chunks db !! i = Some c → document_id c = doc_id →
                   reached_by p i c →
                   ∃ r, r ∈ rows ∧ id r = i ∧ m_content r = content c)
         ∧ (∀ r, r ∈ rows →
                 ∃ c, chunks db !! id r = Some c ∧ document_id c = doc_id
                      ∧ reached_by p (id r) c)
         ∧ (p = seq_scan → length rows = chunk_count db doc_id)).
Proof.
  intros Hdb Hq.
  assert (∀ k : Z, (0 ≤ k ≤ int_max)%Z →
            ∃ rows,
              match_chunks_with p db query_embedding doc_id (given (Some k))
              = Ok rows
              ∧ length rows = Z.to_nat k `min` length (found p db doc_id)
              ∧ length rows ≤ Z.to_nat k) as Hk.
  { intros k Hk. eexists. split; [apply match_chunks_given; assumption|].
    rewrite length_map, length_take, ordered_length. lia. }
  split; [reflexivity|]. split; [|split].
  - destruct (Hk 5%Z) as (rows & Hrows & _ & Hlen).
    { unfold int_max. lia. }
    exists rows. split; [exact Hrows|]. lia.
  - exact Hk.
  - intros k Hlt.
    pose proof (found_length p db doc_id) as Hfound.
    eexists. split; [apply match_chunks_given; [assumption|assumption|lia]|].
    rewrite take_ge by (rewrite ordered_length; lia).
    split; [|split].
    + intros i c Hc Hd Hreached. exists (select query_embedding (i, c)).
      split; [|split; reflexivity].
      apply list_elem_of_In, in_map, list_elem_of_In.
      rewrite (order_by_perm _ (found p db doc_id)).
      apply elem_of_found. repeat split; assumption.
    + intros r Hr.
      apply list_elem_of_In, in_map_iff in Hr as [[i c] [<- Hin]].
      apply list_elem_of_In in Hin.
      rewrite (order_by_perm _ (found p db doc_id)) in Hin.
      apply elem_of_found in Hin as (Hc & Hd & Hreached).
      exists c. repeat split; assumption.
    + intros ->. rewrite length_map, ordered_length. reflexivity.
Qed.

End WithDistance.

Lemma insert_chunk_inv doc_id now row db db' :
  insert_chunk doc_id now row db = Ok db' →
  ∃ e c, chunks db !! fst row = None
         ∧ embedding c = Some e ∧ length e = dimension
         ∧ document_id c = doc_id
         ∧ chunks db' = <[fst row := c]> (chunks db).
Proof.
  destruct row as [new_id [[index body] e]]. unfold insert_chunk.
  case_bool_decide as Hfresh; [discriminate|].
  case_bool_decide; [discriminate|].
  destruct (Nat.eqb_spec (length e) dimension) as [Hd|]; simpl; [|discriminate].
  destruct (is_int index); simpl; [|discriminate].
  intros [= <-]. eexists e, _. simpl.
  split; [|repeat split; try reflexivity; exact Hd].
  destruct (chunks db !! new_id) eqn:E; [|reflexivity].
  exfalso. apply Hfresh. eauto.
Qed.

Lemma upsert_keeps doc_id now rows db db' :
  upsert doc_id now rows db = Ok db' →
  (embeddings_ok db → embeddings_ok db')
  ∧ (∀ i c, chunks db !! i = Some c → chunks db' !! i = Some c).
Proof.
  revert db. induction rows as [|row rest IH]; intros db; simpl.
  - intros [= <-]. split; auto.
  - destruct (insert_chunk doc_id now row db) as [db1|] eqn:E; [|discriminate].
    intros H. apply IH in H as [Hok Hkeep].
    apply insert_chunk_inv in E as (e & c & Hnone & He & Hlen & _ & Hch).
    split.
    + intros Hdb. apply Hok. intros i c' Hc'. rewrite Hch in Hc'.
      destruct (decide (fst row = i)) as [Heq|Hne].
      * subst i. rewrite lookup_insert_eq in Hc'. injection Hc' as <-. eauto.
      * rewrite lookup_insert_ne in Hc' by exact Hne. eauto.
    + intros i c' Hc'. apply Hkeep. rewrite Hch.
      rewrite lookup_insert_ne; [exact Hc'|]. congruence.
Qed.

Lemma execute_embeddings_ok s db :
  embeddings_ok db → embeddings_ok (execute s db).
Proof.
  intros Hdb. destruct s as [new_id d|doc_id now rows|doc_id|q doc_id k]; simpl.
  - unfold insert_document.
    repeat (case_bool_decide || destruct (negb _)); exact Hdb.
  - destruct (upsert doc_id now rows db) as [db'|] eqn:E; [|exact Hdb].
    apply upsert_keeps in E as [Hok _]. apply Hok, Hdb.
  - intros i c Hc. simpl in Hc.
    apply map_lookup_filter_Some in Hc as [Hc _]. eauto.
  - exact Hdb.
Qed.

Lemma empty_embeddings_ok : embeddings_ok empty.
Proof. intros i c Hc. simpl in Hc. rewrite lookup_empty in Hc. discriminate. Qed.

Lemma run_embeddings_ok statements db :
  embeddings_ok db → embeddings_ok (run statements db).
Proof.
  revert db. induction statements as [|s rest IH]; intros db Hdb; [exact Hdb|].
  simpl. apply IH, execute_embeddings_ok, Hdb.
Qed.

(** A statement keeps every chunk as it is, or is the deletion of the
    document that owns it. *)
Lemma execute_keeps s db i c :
  chunks db !! i = Some c →
  chunks (execute s db) !! i = Some c
  ∨ (chunks (execute s db) !! i = None ∧ s = DeleteDocument (document_id c)).
Proof.
  intros Hc. destruct s as [new_id d|doc_id now rows|doc_id|q doc_id k]; simpl.
  - left. unfold insert_document.
    repeat (case_bool_decide || destruct (negb _)); exact Hc.
  - left. destruct (upsert doc_id now rows db) as [db'|] eqn:E; [|exact Hc].
    apply upsert_keeps in E as [_ Hkeep]. apply Hkeep, Hc.
  - destruct (decide (document_id c = doc_id)) as [<-|Hne].
    + right. split; [|reflexivity].
      apply map_lookup_filter_None. right. intros c' Hc' Hp.
      simpl in Hp. congruence.
    + left. apply map_lookup_filter_Some. split; [exact Hc|exact Hne].
  - left. exact Hc.
Qed.

Lemma embeddings_dimensions_ok db : embeddings_ok db → dimensions_ok db.
Proof.
  intros H i c e Hc He. destruct (H i c Hc) as (e' & He' & Hlen). congruence.
Qed.

(** C7.  In every store the statements can build, each chunk has an
    embedding of dimension 768; a statement leaves a stored chunk, and so
    its embedding, as it is, unless it is the deletion of the document the
    chunk belongs to, which removes the chunk; and [match_chunks] returns
    rows only to a query embedding of dimension 768. *)
Theorem embedding_dimension_fixed (statements : list statement) :
  (∀ i c, chunks (run statements empty) !! i = Some c →
          ∃ e, embedding c = Some e ∧ length e = 768)
  ∧ (∀ s i c,
       chunks (run statements empty) !! i = Some c →
       chunks (execute s (run statements empty)) !! i = Some c
       ∨ (chunks (execute s (run statements empty)) !! i = None
          ∧ s = DeleteDocument (document_id c)))
  ∧ (∀ cosine_distance q doc_id k rows r,
       match_chunks cosine_distance (run statements empty) q doc_id k = Ok rows →
       r ∈ rows →
       length q = 768).
Proof.
  split; [|split].
  - apply run_embeddings_ok. intros i c Hc. simpl in Hc.
    rewrite lookup_empty in Hc. discriminate.
  - intros s i c. apply execute_keeps.
  - intros cd q doc_id k rows r H Hr.
    destruct (match_chunks_row cd _ _ _ _ _ _ H Hr) as (c & Hc & Hd & _).
    apply match_chunks_inv in H as [Hcmp _].
    rewrite forallb_forall in Hcmp.
    assert (In (id r, c) (chunks_of (run statements empty) doc_id)) as Hin.
    { apply list_elem_of_In, elem_of_chunks_of. split; assumption. }
    apply Hcmp in Hin. unfold comparable in Hin. simpl in Hin.
    destruct (run_embeddings_ok statements empty) with (i := id r) (c := c)
      as (e & He & Hlen); [|exact Hc|].
    { intros i c' Hc'. simpl in Hc'. rewrite lookup_empty in Hc'. discriminate. }
    rewrite He in Hin. apply Nat.eqb_eq in Hin. rewrite <- Hin. exact Hlen.
Qed.

Import Samples.

Example match_chunks_sample :
  match_chunks unit_cosine_distance sample_db axis1 1%N omitted = Ok sample_rows
  ∧ List.map id sample_rows = [11%N; 13%N; 12%N]
  ∧ List.map similarity sample_rows = [Some 1%Q; Some (15 # 25)%Q; Some 0%Q].
Proof. vm_compute. repeat split. Qed.

Example match_chunks_sample_errors :
  match_chunks unit_cosine_distance sample_db [1%Q] 1%N omitted
  = Err different_dimensions
  ∧ match_chunks unit_cosine_distance sample_db [1%Q] 3%N omitted = Ok []
  ∧ run [Upsert 1%N 104%Z [(14%N, (3%Z, "short"%string, [1%Q]))]] sample_db
    = sample_db
  ∧ match_chunks unit_cosine_distance sample_db axis1 1%N (given (Some (-1)%Z))
    = Err negative_limit
  ∧ chunks (execute (DeleteDocument 1%N) sample_db) !! 13%N = None.
Proof. vm_compute. repeat split. Qed.

Lemma match_chunks_scoped_witness :
  (∃ c, chunks sample_db !! 13%N = Some c ∧ document_id c = 1%N
        ∧ "third"%string = content c)
  ∧ ¬ (∃ c, chunks sample_db !! 13%N = Some c ∧ document_id c = 2%N).
Proof.
  apply (match_chunks_scoped unit_cosine_distance sample_db axis1 1%N 2%N omitted
           sample_rows (mkMatchRow 13%N "third"%string (Some (15 # 25)%Q))).
  - discriminate.
  - vm_compute. reflexivity.
  - right. left.
Defined.

Lemma match_chunks_similarity_descending_witness :
  StronglySorted similarity_ge sample_rows.
Proof.
  apply (match_chunks_similarity_descending unit_cosine_distance sample_db axis1
           1%N omitted sample_rows).
  vm_compute. reflexivity.
Defined.

Lemma match_chunks_count_witness :
  ∃ rows,
    match_chunks_with unit_cosine_distance seq_scan sample_db axis1 1%N
      (given (Some 10%Z))
    = Ok rows
    ∧ length rows = 3.
Proof.
  destruct (proj2 (proj2 (proj2
      (match_chunks_count unit_cosine_distance seq_scan sample_db axis1 1%N
         (embeddings_dimensions_ok _
            (run_embeddings_ok sample_statements empty empty_embeddings_ok))
         eq_refl)))
      10%Z) as (rows & Hrows & _ & _ & Hlen).
  - vm_compute. split; [reflexivity|discriminate].
  - exists rows. split; [exact Hrows|]. rewrite (Hlen eq_refl).
    vm_compute. reflexivity.
Defined.

(** C5, as the specification states it, fails when the query runs
    through the index: with the three chunks of the document in three
    lists, the scan reads the list of the nearest one, which holds that
    chunk and the chunk of the other document with the same embedding,
    and a search with [k = 10] returns one chunk of the three. *)
Lemma match_chunks_index_misses_chunks :
  chunk_count sample_db 1%N = 3
  ∧ match_chunks_with unit_cosine_distance (index_scan {[11%N; 21%N]}) sample_db
      axis1 1%N (given (Some 10%Z))
    = Ok [mkMatchRow 11%N "first"%string (Some 1%Q)]
  ∧ ¬ (∀ rows,
         match_chunks_with unit_cosine_distance (index_scan {[11%N; 21%N]}) sample_db
           axis1 1%N (given (Some 10%Z))
         = Ok rows →
         ∀ i c, chunks sample_db !! i = Some c → document_id c = 1%N →
                ∃ r, r ∈ rows ∧ id r = i).
Proof.
  assert (match_chunks_with unit_cosine_distance (index_scan {[11%N; 21%N]}) sample_db
            axis1 1%N (given (Some 10%Z))
          = Ok [mkMatchRow 11%N "first"%string (Some 1%Q)]) as Hrun.
  { vm_compute. reflexivity. }
  split; [vm_compute; reflexivity|]. split; [exact Hrun|].
  intros H.
  destruct (H _ Hrun 13%N sample_chunk) as (r & Hr & Hid).
  - vm_compute. reflexivity.
  - reflexivity.
  - apply list_elem_of_In in Hr. destruct Hr as [<-|[]]. discriminate.
Qed.

Lemma embedding_dimension_fixed_witness :
  ∃ e, embedding sample_chunk = Some e ∧ length e = 768.
Proof.
  apply (proj1 (embedding_dimension_fixed sample_statements) 13%N sample_chunk).
  vm_compute. reflexivity.
Defined.

End DbFacts.

(* ===================================================================== *)
(** * Facts about the provider rotation engine *)
(* ===================================================================== *)

Module RotationFacts.
Import Rotation.

Section Engine.
Context {R : Type}.
Variable retry_ceiling : nat.
Variable max_attempts : nat.
Variable call : ModelCandidate → nat → response R.

Local Abbreviation step := (step retry_ceiling max_attempts call).
Local Abbreviation iterate := (iterate retry_ceiling max_attempts call).
Local Abbreviation always_fails := (always_fails call).
Local Abbreviation attempted := (attempted call).
Local Abbreviation reasons_of_attempts :=
  (reasons_of_attempts retry_ceiling max_attempts call).

Lemma iterate_add (a b : nat) (st : engine_state) :
  iterate (a + b) st = iterate b (iterate a st).
Proof. revert st. induction a as [|a IH]; intros st; simpl; auto. Qed.

Lemma iterate_exhausted (n : nat) (st : engine_state) :
  current st = Exhausted (R := R) → iterate n st = st.
Proof.
  intros H. induction n as [|n IH]; simpl; [reflexivity|].
  unfold Rotation.step. rewrite H. exact IH.
Qed.

Lemma step_retry c rest r a fs reason :
  call c a = failure transient reason →
  r < retry_ceiling →
  S a < max_attempts →
  step {| current := Attempting c; remaining := rest; retries := r;
          attempts := a; failures := fs |}
  = {| current := Retrying c; remaining := rest; retries := r;
       attempts := S a; failures := fs |}.
Proof.
  intros Hcall Hr Ha. unfold Rotation.step. simpl. rewrite Hcall.
  destruct (Nat.ltb_spec r retry_ceiling); [|lia].
  destruct (Nat.ltb_spec (S a) max_attempts); [reflexivity|lia].
Qed.

Lemma step_give_up c rest r a fs reason :
  call c a = failure transient reason →
  retry_ceiling ≤ r ∨ max_attempts ≤ S a →
  step {| current := Attempting c; remaining := rest; retries := r;
          attempts := a; failures := fs |}
  = {| current := Advancing; remaining := rest; retries := r;
       attempts := S a; failures := fs ++ [(c, reason)] |}.
Proof.
  intros Hcall Hr. unfold Rotation.step. simpl. rewrite Hcall.
  destruct (Nat.ltb_spec r retry_ceiling);
    destruct (Nat.ltb_spec (S a) max_attempts); try reflexivity.
  lia.
Qed.

Lemma step_permanent c rest r a fs reason :
  call c a = failure permanent reason →
  step {| current := Attempting c; remaining := rest; retries := r;
          attempts := a; failures := fs |}
  = {| current := Advancing; remaining := rest; retries := r;
       attempts := S a; failures := fs ++ [(c, reason)] |}.
Proof. intros Hcall. unfold Rotation.step. simpl. rewrite Hcall. reflexivity. Qed.

Lemma iterate_S (k : nat) (st : engine_state) : iterate (S k) st = iterate k (step st).
Proof. reflexivity. Qed.

(** A candidate whose attempts all fail is left after at most
    [retry_ceiling + 1] attempts, with the reason of the last of them
    recorded for it. *)
Lemma attempt_fails (c : ModelCandidate) (rest : list ModelCandidate) :
  always_fails c →
  ∀ d r a fs,
    retry_ceiling - r = d →
    a < max_attempts →
    ∃ k r' last reason,
      k ≤ 2 * d + 1
      ∧ attempted c a last reason
      ∧ last - a ≤ d
      ∧ last < max_attempts
      ∧ iterate k {| current := Attempting c; remaining := rest; retries := r;
                 attempts := a; failures := fs |}
        = {| current := Advancing; remaining := rest; retries := r';
             attempts := S last; failures := fs ++ [(c, reason)] |}.
Proof.
  intros Hc.
  assert (∀ a class reason, call c a = failure class reason →
            attempted c a a reason) as Hone.
  { intros a class reason Hcall. split; [lia|]. split; [intros n Hn; lia|].
    exists class. exact Hcall. }
  induction d as [|d IH]; intros r a fs Hd Ha.
  - destruct (Hc a) as (class & reason & Hcall).
    exists 1, r, a, reason. split; [lia|].
    split; [exact (Hone a class reason Hcall)|]. split; [lia|]. split; [exact Ha|].
    rewrite iterate_S. simpl Rotation.iterate. destruct class.
    + apply step_give_up; [exact Hcall|lia].
    + apply step_permanent, Hcall.
  - destruct (Hc a) as (class & reason & Hcall).
    destruct class.
    + destruct (Nat.lt_ge_cases (S a) max_attempts) as [Hmore|Hcap].
      * destruct (IH (S r) (S a) fs ltac:(lia) Hmore)
          as (k & r' & last & reason' & Hk & (Hle & Hbefore & Hlast) & Hd' & Hm & Hrun).
        exists (S (S k)), r', last, reason'. split; [lia|].
        split; [|split; [lia|split; [exact Hm|]]].
        -- split; [lia|]. split; [|exact Hlast].
           intros n Hn. destruct (Nat.eq_dec n a) as [->|Hne]; [eauto|].
           apply Hbefore. lia.
        -- rewrite !iterate_S, (step_retry _ _ _ _ _ _ Hcall) by lia.
           exact Hrun.
      * exists 1, r, a, reason. split; [lia|].
        split; [exact (Hone a transient reason Hcall)|].
        split; [lia|]. split; [exact Ha|].
        rewrite iterate_S. simpl Rotation.iterate.
        apply step_give_up; [exact Hcall|right; exact Hcap].
    + exists 1, r, a, reason. split; [lia|].
      split; [exact (Hone a permanent reason Hcall)|].
      split; [lia|]. split; [exact Ha|].
      rewrite iterate_S. simpl Rotation.iterate. apply step_permanent, Hcall.
Qed.

(** From [Advancing] over candidates that all fail, the engine reaches
    [Exhausted] with one failure more for each candidate it attempted, in
    their order: all of them, unless the cap was reached before. *)
Lemma rotation_fails (cs : list ModelCandidate) :
  Forall always_fails cs →
  ∀ r a fs,
    ∃ k es lasts rest,
      k ≤ enough retry_ceiling (length cs)
      ∧ List.map fst es `prefix_of` cs
      ∧ reasons_of_attempts a es lasts
      ∧ (List.map fst es = cs
         ∨ max_attempts ≤ default a (S <$> last lasts))
      ∧ (a + length cs * (retry_ceiling + 1) ≤ max_attempts →
         List.map fst es = cs)
      ∧ iterate k {| current := Advancing; remaining := cs; retries := r;
                 attempts := a; failures := fs |}
        = {| current := Exhausted; remaining := rest; retries := 0;
             attempts := default a (S <$> last lasts); failures := fs ++ es |}.
Proof.
  unfold enough.
  induction cs as [|c rest IH]; intros Hall r a fs.
  - exists 1, [], [], []. split; [simpl; lia|].
    split; [apply prefix_nil|]. split; [exact I|].
    split; [left; reflexivity|]. split; [reflexivity|].
    simpl. rewrite app_nil_r. reflexivity.
  - rewrite Forall_cons in Hall. destruct Hall as [Hc Hrest].
    destruct (Nat.lt_ge_cases a max_attempts) as [Ha|Hcap].
    + destruct (attempt_fails c rest Hc (retry_ceiling - 0) 0 a fs eq_refl Ha)
        as (k1 & r1 & final & reason & Hk1 & Hatt & Hd & Hm & Hrun1).
      destruct (IH Hrest r1 (S final) (fs ++ [(c, reason)]))
        as (k2 & es & lasts & rest' & Hk2 & Hpre & Hreasons & Hall & Hfull
            & Hrun2).
      assert (default a (S <$> last (final :: lasts))
              = default (S final) (S <$> last lasts)) as Hlast.
      { rewrite last_cons. destruct (last lasts); reflexivity. }
      exists (1 + (k1 + k2)), ((c, reason) :: es), (final :: lasts), rest'.
      split; [simpl length; lia|].
      split; [simpl; apply prefix_cons, Hpre|].
      split; [simpl; repeat split; try assumption; try apply Hatt; lia|].
      rewrite Hlast. split; [|split].
      * destruct Hall as [Hes|Hcap]; [left|right; exact Hcap].
        simpl. f_equal. exact Hes.
      * intros Hroom. simpl. f_equal. apply Hfull. simpl length in Hroom. lia.
      * change (1 + (k1 + k2)) with (S (k1 + k2)).
        rewrite iterate_S, iterate_add.
        assert (step {| current := Advancing; remaining := c :: rest;
                        retries := r; attempts := a; failures := fs |}
                = {| current := Attempting (R := R) c; remaining := rest;
                     retries := 0; attempts := a; failures := fs |}) as ->.
        { unfold Rotation.step, select_next. simpl.
          destruct (Nat.ltb_spec a max_attempts); [reflexivity|lia]. }
        rewrite Hrun1, Hrun2, <- app_assoc. reflexivity.
    + exists 1, [], [], (c :: rest). split; [simpl; lia|].
      split; [apply prefix_nil|]. split; [exact I|].
      split; [right; exact Hcap|].
      split; [intros Hroom; simpl length in Hroom; lia|].
      rewrite iterate_S. simpl Rotation.iterate.
      unfold Rotation.step, select_next. simpl.
      destruct (Nat.ltb_spec a max_attempts); [lia|].
      rewrite app_nil_r. reflexivity.
Qed.


End Engine.

Import Samples.

(** With room for every attempt the three candidates are attempted, five
    times in all, and the first entry carries the reason of the second
    attempt on its candidate. *)
Example sample_rotation :
  generate 1 10 sample_call 20 sample_candidates
  = Some (AllProvidersFailed
            [(mkCandidate "openrouter" "qwen" 1, "rate limited again"%string);
             (mkCandidate "openrouter" "llama" 2, "unauthorized"%string);
             (mkCandidate "gemini" "flash" 3, "timed out"%string)])
  ∧ attempts (Rotation.iterate 1 10 sample_call 20 (start sample_candidates)) = 5.
Proof. vm_compute. split; reflexivity. Qed.

Lemma sample_candidates_fail : Forall (always_fails sample_call) sample_candidates.
Proof.
  repeat constructor; intros n; eexists _, _; reflexivity.
Defined.



End RotationFacts.

(* ===================================================================== *)
(** * Facts about quiz questions *)
(* ===================================================================== *)

Module QuizFacts.
Import JS Quiz.

#[local] Arguments js : simpl never.

Lemma read_key_name (s : jsstring) (key : OptionKey) :
  read_key s = Some key → s = key_name key.
Proof.
  unfold read_key, jsstring_eqb.
  repeat case_bool_decide; intros [= <-]; assumption.
Qed.

Lemma read_option_inv members key (s : jsstring) :
  read_option members key = Some s →
  obj_get (key_name key) members = Some (JStr s).
Proof.
  unfold read_option.
  destruct (obj_get (key_name key) members) as [[| | |t| |]|];
    try discriminate.
  intros [= <-]. reflexivity.
Qed.

Lemma read_options_inv members (o : Options) :
  read_options members = Some o →
  length members = 4
  ∧ ∀ key, obj_get (key_name key) members = Some (JStr (option_text o key)).
Proof.
  unfold read_options.
  destruct (Nat.eqb_spec (length members) 4) as [Hlen|]; simpl; [|discriminate].
  destruct (read_option members A) as [a|] eqn:Ea; [|discriminate].
  destruct (read_option members B) as [b|] eqn:Eb; [|discriminate].
  destruct (read_option members C) as [c|] eqn:Ec; [|discriminate].
  destruct (read_option members D) as [d|] eqn:Ed; [|discriminate].
  intros [= <-]. split; [exact Hlen|].
  intros [| | |].
  - exact (read_option_inv _ A _ Ea).
  - exact (read_option_inv _ B _ Eb).
  - exact (read_option_inv _ C _ Ec).
  - exact (read_option_inv _ D _ Ed).
Qed.

Lemma parse_question_inv (raw : json) (q : QuizQuestion) :
  parse_question raw = Some q →
  ∃ members opts,
    raw = JObj members
    ∧ obj_get (js "question") members = Some (JStr (question q))
    ∧ obj_get (js "options") members = Some (JObj opts)
    ∧ obj_get (js "correct_answer") members
      = Some (JStr (key_name (correct_answer q)))
    ∧ obj_get (js "explanation") members = Some (JStr (explanation q))
    ∧ read_options opts = Some (options q)
    ∧ option_text (options q) (correct_answer q) ≠ [].
Proof.
  destruct raw as [| | | | |members]; try discriminate. simpl.
  destruct (obj_get (js "question") members) as [[| | |text| |]|] eqn:Eq;
    try discriminate.
  destruct (obj_get (js "options") members) as [[| | | | |opts]|] eqn:Eopts;
    try discriminate.
  destruct (obj_get (js "correct_answer") members) as [[| | |answer| |]|] eqn:Ea;
    try discriminate.
  destruct (obj_get (js "explanation") members) as [[| | |why| |]|] eqn:Ew;
    try discriminate.
  destruct (read_options opts) as [o|] eqn:Eo; [|discriminate].
  destruct (read_key answer) as [key|] eqn:Ek; [|discriminate].
  destruct (option_text o key) as [|ch s] eqn:Et; [discriminate|].
  intros [= <-]. simpl. apply read_key_name in Ek. subst answer.
  exists members, opts. repeat split; try assumption.
  rewrite Et. discriminate.
Qed.

(** C8.  A question the parser accepts has exactly four labelled options
    A, B, C and D, a [correct_answer] that is the label of exactly one of
    them, that option being present and not empty, and an explanation
    string; so with [correct_answer] B, option B is present and not
    empty.  An output whose [correct_answer] is not a key of its options
    is rejected. *)
Theorem parse_question_shape :
  (∀ raw q,
     parse_question raw = Some q →
     length (List.filter (λ key, OptionKey_eqb key (correct_answer q)) optionKeys)
     = 1
     ∧ option_text (options q) (correct_answer q) ≠ []
     ∧ (correct_answer q = B → option_B (options q) ≠ [])
     ∧ ∃ members opts,
         raw = JObj members
         ∧ obj_get (js "options") members = Some (JObj opts)
         ∧ length opts = 4
         ∧ (∀ key, obj_get (key_name key) opts
                   = Some (JStr (option_text (options q) key)))
         ∧ obj_get (js "correct_answer") members
           = Some (JStr (key_name (correct_answer q)))
         ∧ obj_get (js "explanation") members = Some (JStr (explanation q)))
  ∧ (∀ members opts answer,
       obj_get (js "options") members = Some (JObj opts) →
       obj_get (js "correct_answer") members = Some answer →
       (∀ name, answer = JStr name → obj_get name opts = None) →
       parse_question (JObj members) = None).
Proof.
  split.
  - intros raw q H.
    apply parse_question_inv in H
      as (members & opts & -> & Hq & Ho & Ha & He & Hopts & Hne).
    apply read_options_inv in Hopts as [Hlen Hkeys].
    split; [destruct (correct_answer q); reflexivity|].
    split; [exact Hne|].
    split; [intros HB; rewrite HB in Hne; exact Hne|].
    exists members, opts. repeat split; assumption.
  - intros members opts answer Ho Ha Habsent.
    destruct (parse_question (JObj members)) as [q|] eqn:E; [|reflexivity].
    exfalso.
    apply parse_question_inv in E
      as (members' & opts' & [= <-] & _ & Ho' & Ha' & _ & Hopts & _).
    rewrite Ho in Ho'. injection Ho' as <-.
    rewrite Ha in Ha'. injection Ha' as ->.
    apply read_options_inv in Hopts as [_ Hkeys].
    pose proof (Hkeys (correct_answer q)) as Hk.
    rewrite (Habsent _ eq_refl) in Hk. discriminate.
Qed.

Import Samples.

Example parse_question_sample :
  parse_question sample_question
  = Some {| question := js "2+2?";
            options := {| option_A := js "3"; option_B := js "4";
                          option_C := js "5"; option_D := js "22" |};
            correct_answer := B;
            explanation := js "sum" |}
  ∧ parse_question sample_question_E = None
  ∧ parse_question sample_question_empty = None.
Proof. vm_compute. repeat split. Qed.

Lemma parse_question_shape_witness :
  option_B {| option_A := js "3"; option_B := js "4";
              option_C := js "5"; option_D := js "22" |} ≠ []
  ∧ parse_question sample_question_E = None.
Proof.
  split.
  - refine (proj1 (proj2 (proj2 (proj1 parse_question_shape sample_question
             {| question := js "2+2?";
                options := {| option_A := js "3"; option_B := js "4";
                              option_C := js "5"; option_D := js "22" |};
                correct_answer := B;
                explanation := js "sum" |} _))) _).
    + vm_compute. reflexivity.
    + reflexivity.
  - refine (proj2 parse_question_shape
              (match sample_question_E with JObj members => members | _ => [] end)
              (match sample_question with
               | JObj members =>
                   match obj_get (js "options") members with
                   | Some (JObj opts) => opts
                   | _ => []
                   end
               | _ => []
               end)
              (JStr (js "E")) _ _ _).
    + vm_compute. reflexivity.
    + vm_compute. reflexivity.
    + intros name [= <-]. vm_compute. reflexivity.
Defined.

End QuizFacts.

(* ===================================================================== *)
(** * More about client/lib/store.ts: how the chat actions compose *)
(* ===================================================================== *)

Module StoreLaws.
Import JS Store Samples.

Section WithCollections.
Context {Flashcard QuizQuestion : Type}.
Local Abbreviation LearningStore := (LearningStore Flashcard QuizQuestion).

(** A history has no assistant message, or it has a last one. *)
Lemma last_assistant_split (h : list ChatMessage) :
  Forall not_assistant h
  ∨ ∃ pre m post,
      h = pre ++ m :: post ∧ role m = assistant ∧ Forall not_assistant post.
Proof.
  induction h as [|x h IH] using rev_ind; [left; constructor|].
  destruct (role x) eqn:R.
  - destruct IH as [Hall|(pre & m & post & -> & Hm & Hpost)].
    + left. rewrite Forall_app, Forall_singleton. split; [exact Hall|].
      unfold not_assistant. congruence.
    + right. exists pre, m, (post ++ [x]).
      rewrite <- app_assoc. split; [reflexivity|]. split; [exact Hm|].
      rewrite Forall_app, Forall_singleton. split; [exact Hpost|].
      unfold not_assistant. congruence.
  - right. exists h, x, []. repeat split; [exact R|constructor].
Qed.

Lemma update_history_hit c (pre : list ChatMessage) m post :
  role m = assistant →
  Forall not_assistant post →
  update_loop c (pre ++ m :: post) (length (pre ++ m :: post))
  = pre ++ with_content m c :: post.
Proof.
  intros Hm Hpost.
  pose proof (StoreFacts.update_loop_hit c pre m post [] Hm Hpost) as L.
  rewrite !app_nil_r in L.
  replace (length (pre ++ m :: post)) with (length pre + 1 + length post)
    by (rewrite length_app; simpl; lia).
  exact L.
Qed.

Lemma update_history_miss c (h : list ChatMessage) :
  Forall not_assistant h → update_loop c h (length h) = h.
Proof.
  intros H. apply StoreFacts.update_loop_miss. rewrite firstn_all. exact H.
Qed.

(** X1.  Of two updates in a row the second one wins: the state is the
    one the second update alone gives. *)
Theorem updateLastAssistantMessage_twice (c1 c2 : jsstring) (state : LearningStore) :
  updateLastAssistantMessage c2 (updateLastAssistantMessage c1 state)
  = updateLastAssistantMessage c2 state.
Proof.
  unfold updateLastAssistantMessage, set_chatHistory. simpl. f_equal.
  destruct (last_assistant_split (chatHistory state))
    as [Hall|(pre & m & post & -> & Hm & Hpost)].
  - rewrite (update_history_miss c1 _ Hall). reflexivity.
  - rewrite (update_history_hit c1 pre m post Hm Hpost).
    rewrite (update_history_hit c2 pre m post Hm Hpost).
    apply (update_history_hit c2 pre (with_content m c1) post); assumption.
Qed.

(** X2.  An update after [addChatMessage]: it rewrites the message just
    added when that is an assistant message, and otherwise does to the
    earlier history what it does without the new message, which stays
    last as it was added. *)
Theorem updateLastAssistantMessage_after_add
    (c : jsstring) (msg : ChatMessage) (state : LearningStore) :
  chatHistory (updateLastAssistantMessage c (addChatMessage msg state))
  = if Role_eqb (role msg) assistant
    then chatHistory state ++ [with_content msg c]
    else chatHistory (updateLastAssistantMessage c state) ++ [msg].
Proof.
  unfold updateLastAssistantMessage, addChatMessage. simpl.
  destruct (Role_eqb (role msg) assistant) eqn:R.
  - apply StoreFacts.Role_eqb_assistant in R.
    apply (update_history_hit c (chatHistory state) msg []); [exact R|constructor].
  - assert (not_assistant msg) as Hmsg.
    { intros H. apply StoreFacts.Role_eqb_assistant in H. congruence. }
    destruct (last_assistant_split (chatHistory state))
      as [Hall|(pre & m & post & -> & Hm & Hpost)].
    + rewrite (update_history_miss c _ Hall).
      apply update_history_miss.
      rewrite Forall_app, Forall_singleton. split; assumption.
    + rewrite (update_history_hit c pre m post Hm Hpost).
      rewrite <- !app_assoc. simpl.
      apply (update_history_hit c pre m (post ++ [msg]) Hm).
      rewrite Forall_app, Forall_singleton. split; assumption.
Qed.

End WithCollections.

End StoreLaws.

(* ===================================================================== *)
(** * More about client/lib/api.ts: the buffering of [chatStream] *)
(* ===================================================================== *)

Module StreamLaws.
Import JS Store Api Turns Samples.

#[local] Arguments startsWith : simpl never.
#[local] Arguments trim : simpl never.
#[local] Arguments slice : simpl never.
#[local] Arguments js : simpl never.
#[local] Arguments member : simpl never.
#[local] Arguments truthy : simpl never.

Section WithPlatform.
Variable JSON_parse : jsstring → option json.
Variable ToString : option json → jsstring.

Local Abbreviation process_lines := (process_lines JSON_parse).
Local Abbreviation read_loop := (read_loop JSON_parse).
Local Abbreviation chatStream := (chatStream JSON_parse ToString).

Lemma chatStream_answer reads fin documentId message history :
  chatStream (answer reads fin) documentId message history
  = read_loop [] reads fin.
Proof. reflexivity. Qed.

Lemma read_loop_from_start reads fin :
  yielded (read_loop [] reads fin)
  = fst (process_lines (complete_lines (concat reads))).
Proof.
  rewrite (ApiFacts.read_loop_lines JSON_parse [] reads fin); [reflexivity|].
  intros H. inversion H.
Qed.

(** X3.  What [chatStream] yields depends on the text of the body and not
    on where the reads cut it. *)
Theorem chatStream_cut_independent (reads1 reads2 : list jsstring)
    (fin1 fin2 : stream_end) (documentId message : jsstring)
    (history : list ChatMessage) :
  concat reads1 = concat reads2 →
  yielded (chatStream (answer reads1 fin1) documentId message history)
  = yielded (chatStream (answer reads2 fin2) documentId message history).
Proof.
  intros H. rewrite !chatStream_answer, !read_loop_from_start, H. reflexivity.
Qed.

(** X4.  What comes after the last line feed of the body is never
    processed: a last line without its line feed is lost, be it a
    well-formed event. *)
Theorem chatStream_drops_unterminated_line (reads : list jsstring)
    (tail : jsstring) (fin : stream_end) (documentId message : jsstring)
    (history : list ChatMessage) :
  newline ∉ tail →
  yielded (chatStream (answer (reads ++ [tail]) fin) documentId message history)
  = yielded (chatStream (answer reads fin) documentId message history).
Proof.
  intros Htail. rewrite !chatStream_answer, !read_loop_from_start.
  rewrite concat_app. simpl concat. rewrite app_nil_r.
  rewrite ApiFacts.complete_lines_app.
  assert (newline ∉ last_line (concat reads) ++ tail) as Hno.
  { intros Hin. apply elem_of_app in Hin as [Hin|Hin]; [|exact (Htail Hin)].
    exact (ApiFacts.last_split_no_sep _ _ Hin). }
  destruct (ApiFacts.complete_lines_no_newline _ Hno) as [-> _].
  rewrite app_nil_r. reflexivity.
Qed.

(** A sequence whose elements are not [done] elements does not end with
    one. *)
Lemma not_done_terminated (ys : list json) :
  forallb (λ x, negb (is_done x)) ys = true → ¬ done_terminated ys.
Proof.
  intros Hall (pre & x & -> & Hx).
  rewrite forallb_app in Hall. apply andb_prop in Hall as [_ Hall].
  simpl in Hall. rewrite Hx in Hall. discriminate.
Qed.

Lemma done_terminated_app (ys zs : list json) :
  forallb (λ x, negb (is_done x)) ys = true →
  done_terminated (ys ++ zs) → done_terminated zs.
Proof.
  intros Hall (pre & x & Heq & Hx).
  destruct zs as [|z zs] using rev_ind.
  - exfalso. rewrite app_nil_r in Heq. subst ys.
    apply (not_done_terminated _ Hall). exists pre, x. auto.
  - rewrite app_assoc in Heq. apply app_inj_tail in Heq as [_ ->].
    exists zs, x. auto.
Qed.

Lemma read_loop_returned buffer reads fin :
  done_terminated (yielded (read_loop buffer reads fin)) →
  ∀ more fin',
    read_loop buffer (reads ++ more) fin'
    = mkGenerated (yielded (read_loop buffer reads fin)) (Normal tt).
Proof.
  revert buffer. induction reads as [|value rest IH]; intros buffer Hdone more fin'.
  - exfalso. apply (not_done_terminated []); [reflexivity|].
    destruct fin; exact Hdone.
  - simpl in *.
    pose proof (ApiFacts.process_lines_done JSON_parse
                  (removelast (split newline (buffer ++ value)))) as [_ Hnot].
    destruct (process_lines (removelast (split newline (buffer ++ value))))
      as [ys returned].
    destruct returned; simpl in *; [reflexivity|].
    rewrite (IH _ (done_terminated_app _ _ (Hnot eq_refl) Hdone) more fin').
    reflexivity.
Qed.

(** X5.  Once a [done] element has been yielded the rest of the body is
    not read: whatever follows, and a connection that breaks afterwards,
    changes neither the elements yielded nor the normal end of the
    generator. *)
Theorem chatStream_ignores_body_after_done (reads more : list jsstring)
    (fin fin' : stream_end) (documentId message : jsstring)
    (history : list ChatMessage) :
  done_terminated
    (yielded (chatStream (answer reads fin) documentId message history)) →
  chatStream (answer (reads ++ more) fin') documentId message history
  = mkGenerated
      (yielded (chatStream (answer reads fin) documentId message history))
      (Normal tt).
Proof.
  rewrite !chatStream_answer. intros H. apply read_loop_returned, H.
Qed.

(** A line that is not a [data: ] line, or whose payload is blank, is
    passed over. *)
Lemma process_lines_other (line : jsstring) (rest : list jsstring) :
  startsWith data_prefix line = false ∨ trim (slice 6 line) = [] →
  process_lines (line :: rest) = process_lines rest.
Proof.
  intros [H|H]; simpl; rewrite H; [reflexivity|].
  destruct (startsWith data_prefix line); reflexivity.
Qed.

(** X6.  A line that does not start with [data: ] (a comment, an [event:]
    line, a [data:] line without the space) and a [data: ] line with a
    blank payload yield nothing and stop nothing: the elements yielded are
    those of the lines before it followed by those of the lines after
    it. *)
Theorem chatStream_skips_other_lines (reads : list jsstring) (fin : stream_end)
    (before : list jsstring) (line : jsstring) (after : list jsstring)
    (documentId message : jsstring) (history : list ChatMessage) :
  complete_lines (concat reads) = before ++ line :: after →
  startsWith data_prefix line = false ∨ trim (slice 6 line) = [] →
  yielded (chatStream (answer reads fin) documentId message history)
  = (if snd (process_lines before) then fst (process_lines before)
     else fst (process_lines before) ++ fst (process_lines after)).
Proof.
  intros Hlines Hline.
  rewrite chatStream_answer, read_loop_from_start, Hlines.
  rewrite (ApiFacts.process_lines_app JSON_parse before (line :: after)).
  rewrite (process_lines_other line after Hline).
  destruct (process_lines before) as [ys [|]]; reflexivity.
Qed.

End WithPlatform.

End StreamLaws.

(* ===================================================================== *)
(** * More about client/app/chat/page.tsx: how a turn ends *)
(* ===================================================================== *)

Module TurnLaws.
Import JS Store Api ChatPage Turns Samples.

#[local] Arguments startsWith : simpl never.
#[local] Arguments trim : simpl never.
#[local] Arguments js : simpl never.
#[local] Arguments member : simpl never.
#[local] Arguments truthy : simpl never.
#[local] Arguments chatStream : simpl never.
#[local] Arguments updateLastAssistantMessage : simpl never.
#[local] Arguments on_catch : simpl never.
#[local] Arguments opened : simpl never.
#[local] Arguments after_loop : simpl never.

Section WithPlatform.
Context {Flashcard QuizQuestion : Type}.
Variable JSON_parse : jsstring → option json.
Variable ToString : option json → jsstring.

Local Abbreviation Page := (Page (Flashcard := Flashcard) (QuizQuestion := QuizQuestion)).
Local Abbreviation consume := (consume (Flashcard := Flashcard) (QuizQuestion := QuizQuestion) ToString).
Local Abbreviation handleSend := (handleSend (Flashcard := Flashcard) (QuizQuestion := QuizQuestion) JSON_parse ToString).
Local Abbreviation replying := (replying (Flashcard := Flashcard) (QuizQuestion := QuizQuestion)).
Local Abbreviation content_text := (content_text ToString).

(** [handleSend] past its guard: the loop on the opened page, then
    [setIsStreaming(false)]. *)
Lemma handleSend_sent fetch now1 now2 (p : Page) doc :
  trim (p_input p) ≠ [] →
  p_isStreaming p = false →
  currentDocument (store p) = Some doc →
  handleSend fetch now1 now2 (render p) p
  = (fst (consume []
            (yielded (chatStream JSON_parse ToString fetch (id doc)
                        (trim (p_input p)) (chatHistory (store p))))
            (finish (chatStream JSON_parse ToString fetch (id doc)
                       (trim (p_input p)) (chatHistory (store p))))
            (opened now1 now2 doc p)),
     setIsStreaming false
       (snd (consume []
               (yielded (chatStream JSON_parse ToString fetch (id doc)
                           (trim (p_input p)) (chatHistory (store p))))
               (finish (chatStream JSON_parse ToString fetch (id doc)
                          (trim (p_input p)) (chatHistory (store p))))
               (opened now1 now2 doc p)))).
Proof.
  intros Hin Hst Hdoc. unfold ChatPage.handleSend. simpl.
  destruct (trim (p_input p)) as [|c s] eqn:T; [congruence|].
  rewrite Hst, Hdoc. unfold opened. rewrite T.
  match goal with
  | |- (let '(_, _) := ?C in _) = _ => destruct C
  end.
  reflexivity.
Qed.

Lemma opened_history now1 now2 doc (p : Page) :
  chatHistory (store (opened now1 now2 doc p))
  = (chatHistory (store p)
       ++ [mkChatMessage user (trim (p_input p)) (Some now1)])
      ++ [mkChatMessage assistant [] (Some now2)].
Proof. reflexivity. Qed.

(** X7.  With a blank input, while a turn is streaming, or without a
    document, [handleSend] does nothing: no request, no message, no
    change of the page. *)
Theorem handleSend_blocked fetch now1 now2 (p : Page) :
  trim (p_input p) = [] ∨ p_isStreaming p = true
  ∨ currentDocument (store p) = None →
  handleSend fetch now1 now2 (render p) p = ([], p).
Proof.
  unfold ChatPage.handleSend. simpl.
  intros [H|[H|H]]; rewrite H.
  - reflexivity.
  - destruct (trim (p_input p)); reflexivity.
  - destruct (trim (p_input p)), (p_isStreaming p); reflexivity.
Qed.

(** The loop leaves the input and the streaming flag as they are. *)
Lemma consume_frame full chunks fin (p : Page) :
  p_input (snd (consume full chunks fin p)) = p_input p
  ∧ p_isStreaming (snd (consume full chunks fin p)) = p_isStreaming p.
Proof.
  revert full p. induction chunks as [|chunk rest IH]; intros full p; simpl.
  - destruct fin; [destruct full|]; split; reflexivity.
  - destruct (member chunk (js "error")) as [e|m]; [|split; reflexivity].
    destruct (truthy e); [destruct full; split; reflexivity|].
    match goal with
    | |- context [consume ?f rest fin ?q] =>
        specialize (IH f q); destruct (consume f rest fin q)
    end.
    exact IH.
Qed.

Lemma replying_update h ts c0 c (p : Page) :
  replying h ts c0 p →
  replying h ts c (on_store (updateLastAssistantMessage c) p).
Proof.
  intros (c1 & Hh & _). exists c. split; [|reflexivity].
  simpl. apply (ChatPageFacts.update_placeholder c c1), Hh.
Qed.

Lemma sorry_message_not_empty : sorry_message ≠ [].
Proof. vm_compute. discriminate. Qed.

Lemma empty_message_not_empty : empty_message ≠ [].
Proof. vm_compute. discriminate. Qed.

(** However the loop ends, the assistant message of the turn is not left
    empty. *)
Lemma consume_reply h ts full chunks fin (p : Page) :
  replying h ts full p →
  ∃ c, chatHistory (store (snd (consume full chunks fin p)))
       = h ++ [mkChatMessage assistant c ts]
       ∧ c ≠ [].
Proof.
  assert (∀ full (q : Page), replying h ts full q →
            ∃ c, chatHistory (store (after_loop full q))
                 = h ++ [mkChatMessage assistant c ts] ∧ c ≠ []) as Hafter.
  { intros [|a full'] q Hq; unfold after_loop.
    - destruct (replying_update h ts [] empty_message q Hq) as (c & Hc & Hfull).
      exists c. split; [exact Hc|].
      rewrite (Hfull empty_message_not_empty). apply empty_message_not_empty.
    - destruct Hq as (c & Hc & Hfull). exists c. split; [exact Hc|].
      rewrite Hfull; discriminate. }
  assert (∀ full m (q : Page), replying h ts full q →
            ∃ c, chatHistory (store (on_catch m q))
                 = h ++ [mkChatMessage assistant c ts] ∧ c ≠ []) as Hcatch.
  { intros full' m q Hq. unfold on_catch.
    destruct (replying_update h ts full' sorry_message (toast_error m q) Hq)
      as (c & Hc & Hfull).
    exists c. split; [exact Hc|].
    rewrite (Hfull sorry_message_not_empty). apply sorry_message_not_empty. }
  revert full p. induction chunks as [|chunk rest IH]; intros full p Hp; simpl.
  - destruct fin as [u|msg]; simpl; [apply Hafter, Hp|apply (Hcatch full msg p Hp)].
  - destruct (member chunk (js "error")) as [e|m]; simpl;
      [|apply (Hcatch full m p Hp)].
    destruct (truthy e); simpl.
    + destruct full as [|a full']; unfold after_loop.
      * destruct (replying_update h ts sorry_message empty_message
                    (on_store (updateLastAssistantMessage sorry_message)
                       (toast_error (ToString e) p))
                    (replying_update h ts [] sorry_message
                       (toast_error (ToString e) p) Hp))
          as (c & Hc & Hfull).
        exists c. split; [exact Hc|].
        rewrite (Hfull empty_message_not_empty). apply empty_message_not_empty.
      * destruct (replying_update h ts (a :: full') sorry_message
                    (toast_error (ToString e) p) Hp) as (c & Hc & Hfull).
        exists c. split; [exact Hc|].
        rewrite (Hfull sorry_message_not_empty). apply sorry_message_not_empty.
    + match goal with
      | |- context [consume ?f rest fin ?q] =>
          specialize (IH f q); destruct (consume f rest fin q)
      end.
      simpl in *. apply IH, (replying_update h ts full), Hp.
Qed.

Lemma clean_inv (chunk : json) :
  clean chunk = true →
  ∃ e, member chunk (js "error") = Normal e ∧ truthy e = false.
Proof.
  unfold clean. destruct (member chunk (js "error")) as [e|m]; [|discriminate].
  intros H. exists e. split; [reflexivity|]. apply negb_true_iff, H.
Qed.

(** Over clean elements the loop reads them all, shows no toast, and
    leaves the contents joined in the assistant message. *)
Lemma consume_clean h ts full chunks (p : Page) :
  forallb clean chunks = true →
  replying h ts full p →
  fst (consume full chunks (Normal tt) p) = chunks
  ∧ toasts (snd (consume full chunks (Normal tt) p)) = toasts p
  ∧ chatHistory (store (snd (consume full chunks (Normal tt) p)))
    = h ++ [mkChatMessage assistant
              match full ++ concat (List.map content_text chunks) with
              | [] => empty_message
              | _ :: _ => full ++ concat (List.map content_text chunks)
              end ts].
Proof.
  revert full p. induction chunks as [|chunk rest IH]; intros full p Hall Hp.
  - simpl. rewrite app_nil_r. split; [reflexivity|].
    destruct full as [|a full']; unfold after_loop.
    + split; [reflexivity|].
      destruct (replying_update h ts [] empty_message p Hp) as (c & Hc & Hfull).
      rewrite Hc, (Hfull empty_message_not_empty). reflexivity.
    + split; [reflexivity|]. destruct Hp as (c & Hc & Hfull).
      rewrite Hc, Hfull by discriminate. reflexivity.
  - simpl in Hall. apply andb_prop in Hall as [Hc Hall].
    apply clean_inv in Hc as (e & He & Ht).
    simpl. rewrite He, Ht.
    fold (content_text chunk).
    specialize (IH (full ++ content_text chunk)
                  (on_store (updateLastAssistantMessage (full ++ content_text chunk)) p)
                  Hall (replying_update h ts full _ p Hp)).
    destruct (consume (full ++ content_text chunk) rest (Normal tt) _)
      as [received p'].
    simpl in *. destruct IH as (Hr & Ht' & Hh).
    rewrite Hr, Ht', Hh, <- !app_assoc. repeat split.
Qed.

(** X9.  When every element of the stream is read without error and the
    stream ends normally, the loop reads all of them, shows no toast, and
    the assistant message of the turn is their contents joined in order,
    or the fall-back text when that is empty. *)
Theorem handleSend_joins_contents fetch now1 now2 (p : Page) doc :
  trim (p_input p) ≠ [] →
  p_isStreaming p = false →
  currentDocument (store p) = Some doc →
  forallb clean
    (yielded (chatStream JSON_parse ToString fetch (id doc)
                (trim (p_input p)) (chatHistory (store p)))) = true →
  finish (chatStream JSON_parse ToString fetch (id doc)
            (trim (p_input p)) (chatHistory (store p))) = Normal tt →
  fst (handleSend fetch now1 now2 (render p) p)
  = yielded (chatStream JSON_parse ToString fetch (id doc)
               (trim (p_input p)) (chatHistory (store p)))
  ∧ toasts (snd (handleSend fetch now1 now2 (render p) p)) = toasts p
  ∧ chatHistory (store (snd (handleSend fetch now1 now2 (render p) p)))
    = chatHistory (store p)
      ++ [mkChatMessage user (trim (p_input p)) (Some now1);
          mkChatMessage assistant
            match concat (List.map content_text
                            (yielded (chatStream JSON_parse ToString fetch
                                        (id doc) (trim (p_input p))
                                        (chatHistory (store p))))) with
            | [] => empty_message
            | c :: s => c :: s
            end
            (Some now2)].
Proof.
  intros Hin Hst Hdoc Hclean Hfin.
  rewrite (handleSend_sent fetch now1 now2 p doc Hin Hst Hdoc), Hfin. simpl.
  destruct (consume_clean
              (chatHistory (store p)
                 ++ [mkChatMessage user (trim (p_input p)) (Some now1)])
              (Some now2) [] _ (opened now1 now2 doc p) Hclean)
    as (Hr & Ht & Hh).
  { exists []. split; [apply opened_history|congruence]. }
  split; [exact Hr|]. split; [exact Ht|].
  rewrite Hh, <- app_assoc. simpl.
  destruct (concat _); reflexivity.
Qed.

Lemma on_catch_history h ts c0 m (p : Page) :
  chatHistory (store p) = h ++ [mkChatMessage assistant c0 ts] →
  chatHistory (store (on_catch m p))
  = h ++ [mkChatMessage assistant sorry_message ts].
Proof.
  intros Hh. unfold on_catch. simpl.
  apply (ChatPageFacts.update_placeholder sorry_message c0), Hh.
Qed.

(** Without a response body the generator yields nothing and throws. *)
Lemma chatStream_request_failed fetch documentId message history :
  (∀ reads fin,
     fetch (chat_request documentId message history) ≠ Resolved (Body reads fin)) →
  ∃ m, chatStream JSON_parse ToString fetch documentId message history
       = mkGenerated [] (Throw m).
Proof.
  intros H. unfold Api.chatStream.
  destruct (fetch _) as [m|[body| |reads fin]]; eauto.
  - destruct (member _ _); eauto.
  - destruct (H reads fin eq_refl).
Qed.

(** X10.  When the request gives no response body (the fetch is rejected,
    the status is not ok, or the body is missing), the turn ends with one
    toast more and with the apology as the assistant message of the
    turn. *)
Theorem handleSend_request_failed fetch now1 now2 (p : Page) doc :
  trim (p_input p) ≠ [] →
  p_isStreaming p = false →
  currentDocument (store p) = Some doc →
  (∀ reads fin,
     fetch (chat_request (id doc) (trim (p_input p)) (chatHistory (store p)))
     ≠ Resolved (Body reads fin)) →
  fst (handleSend fetch now1 now2 (render p) p) = []
  ∧ (∃ m, toasts (snd (handleSend fetch now1 now2 (render p) p))
          = toasts p ++ [m])
  ∧ chatHistory (store (snd (handleSend fetch now1 now2 (render p) p)))
    = chatHistory (store p)
      ++ [mkChatMessage user (trim (p_input p)) (Some now1);
          mkChatMessage assistant sorry_message (Some now2)].
Proof.
  intros Hin Hst Hdoc Hfail.
  rewrite (handleSend_sent fetch now1 now2 p doc Hin Hst Hdoc).
  destruct (chatStream_request_failed fetch _ _ _ Hfail) as [m ->].
  split; [reflexivity|]. split; [exists m; reflexivity|].
  etransitivity;
    [exact (on_catch_history _ _ _ m _ (opened_history now1 now2 doc p))|].
  rewrite <- app_assoc. reflexivity.
Qed.

End WithPlatform.

End TurnLaws.

(* ===================================================================== *)
(** * More about supabase_setup.sql *)
(* ===================================================================== *)

Module SearchLaws.
Import Db Constraints Samples.

#[local] Arguments dimension : simpl never.

Lemma NoDup_map_filter {A B} (f : A → B) (keep : A → bool) (l : list A) :
  NoDup (List.map f l) → NoDup (List.map f (List.filter keep l)).
Proof.
  induction l as [|x l IH]; simpl; [auto|].
  rewrite NoDup_cons. intros [Hx Hl].
  destruct (keep x); simpl; [|auto].
  apply NoDup_cons. split; [|auto].
  intros Hin. apply Hx.
  apply list_elem_of_In, in_map_iff in Hin as (y & Hy & Hin).
  apply list_elem_of_In, in_map_iff. exists y. split; [exact Hy|].
  apply filter_In in Hin as [Hin _]. exact Hin.
Qed.

Lemma NoDup_map_take {A B} (f : A → B) (n : nat) (l : list A) :
  NoDup (List.map f l) → NoDup (List.map f (take n l)).
Proof.
  revert n. induction l as [|x l IH]; intros n; [rewrite take_nil; auto|].
  destruct n as [|n]; simpl; [constructor|].
  rewrite !NoDup_cons. intros [Hx Hl]. split; [|auto].
  intros Hin. apply Hx.
  apply list_elem_of_In, in_map_iff in Hin as (y & Hy & Hin).
  apply list_elem_of_In, in_map_iff. exists y. split; [exact Hy|].
  apply list_elem_of_In. apply list_elem_of_In in Hin.
  exact (subseteq_take n l y Hin).
Qed.

Lemma fmap_is_map {A B} (f : A → B) (l : list A) : f <$> l = List.map f l.
Proof. reflexivity. Qed.

Section WithDistance.
Variable cosine_distance : vector → vector → Q.

Local Abbreviation match_chunks := (match_chunks cosine_distance).
Local Abbreviation match_chunks_with := (match_chunks_with cosine_distance).
Local Abbreviation distance := (distance cosine_distance).
Local Abbreviation ranked := (ranked cosine_distance).
Local Abbreviation select := (select cosine_distance).

(** X11.  [match_chunks] returns no chunk twice: the ids of the rows it
    returns are distinct. *)
Theorem match_chunks_distinct db (query_embedding : vector) (doc_id : uuid)
    (k : argument (option Z)) (rows : list match_row) :
  match_chunks db query_embedding doc_id k = Ok rows →
  NoDup (List.map id rows).
Proof.
  intros H. apply DbFacts.match_chunks_inv in H as [_ [n ->]].
  rewrite map_map. simpl.
  change (NoDup (List.map fst (take n (ranked db query_embedding doc_id)))).
  apply NoDup_map_take.
  assert (List.map fst (ranked db query_embedding doc_id)
          ≡ₚ List.map fst (chunks_of db doc_id)) as ->.
  { apply Permutation_map, DbFacts.order_by_perm. }
  apply NoDup_map_filter. rewrite <- fmap_is_map.
  apply NoDup_fst_map_to_list.
Qed.

(** X12.  With embeddings and a query of the declared dimension, and
    whatever the plan: an explicit NULL for [match_count] lifts the limit
    and every row the plan finds for the document is returned, which under
    a scan of the table is every chunk of the document; a count of 0
    returns no row; a negative count is an error. *)
Theorem match_chunks_count_edges (p : plan) db (query_embedding : vector)
    (doc_id : uuid) :
  dimensions_ok db →
  length query_embedding = dimension →
  (∃ rows, match_chunks_with p db query_embedding doc_id (given None) = Ok rows
           ∧ length rows = length (found p db doc_id)
           ∧ (p = seq_scan → length rows = chunk_count db doc_id))
  ∧ match_chunks_with p db query_embedding doc_id (given (Some 0%Z)) = Ok []
  ∧ (∀ k : Z, (int_min ≤ k < 0)%Z →
       match_chunks_with p db query_embedding doc_id (given (Some k))
       = Err negative_limit).
Proof.
  intros Hdb Hq.
  pose proof (DbFacts.comparable_found p db query_embedding doc_id Hdb Hq) as Hc.
  pose proof (DbFacts.plan_accepts p query_embedding Hq) as Hp.
  split; [|split].
  - unfold Db.match_chunks_with. rewrite Hp, Hc. simpl.
    eexists. split; [reflexivity|].
    rewrite length_map, (DbFacts.ordered_length cosine_distance).
    split; [reflexivity|]. intros ->. reflexivity.
  - unfold Db.match_chunks_with. rewrite Hp, Hc. reflexivity.
  - intros k Hk. unfold Db.match_chunks_with. rewrite Hp, Hc. simpl.
    assert (is_int k = true) as ->.
    { unfold is_int, int_min, int_max in *.
      apply andb_true_iff. split; apply Z.leb_le; lia. }
    simpl. destruct (Z.ltb_spec k 0); [reflexivity|lia].
Qed.

Lemma lookup_deleted db (doc_id i : uuid) (c : chunk) :
  chunks (delete_document doc_id db) !! i = Some c
  ↔ chunks db !! i = Some c ∧ document_id c ≠ doc_id.
Proof. apply map_lookup_filter_Some. Qed.

(** No plan finds a row of a document that has been deleted. *)
Lemma found_deleted p db (doc_id : uuid) :
  found p (delete_document doc_id db) doc_id = [].
Proof.
  destruct (found p (delete_document doc_id db) doc_id) as [|r l] eqn:E;
    [reflexivity|].
  assert (r ∈ found p (delete_document doc_id db) doc_id) as Hin.
  { rewrite E. left. }
  apply DbFacts.elem_of_found in Hin as (Hc & Hd & _).
  apply lookup_deleted in Hc as [_ Hne]. contradiction.
Qed.

Lemma NoDup_list_filter {A} (keep : A → bool) (l : list A) :
  NoDup l → NoDup (List.filter keep l).
Proof.
  induction l as [|x l IH]; simpl; [auto|].
  rewrite NoDup_cons. intros [Hx Hl].
  destruct (keep x); [|auto].
  apply NoDup_cons. split; [|auto].
  rewrite list_elem_of_In, filter_In, <- list_elem_of_In. tauto.
Qed.

Lemma found_NoDup p db (doc_id : uuid) : NoDup (found p db doc_id).
Proof.
  unfold found. apply NoDup_list_filter.
  destruct p as [|reached]; simpl.
  - apply NoDup_map_to_list.
  - apply NoDup_list_filter, NoDup_map_to_list.
Qed.

(** What a plan finds for a document is what it found before the
    deletion of another one. *)
Lemma found_after_delete p db (doc_id other : uuid) :
  other ≠ doc_id →
  found p (delete_document doc_id db) other ≡ₚ found p db other.
Proof.
  intros Hne. apply NoDup_Permutation; try apply found_NoDup.
  intros r. rewrite !DbFacts.elem_of_found, lookup_deleted.
  split.
  - intros ((Hc & _) & Hd & Hr). auto.
  - intros (Hc & Hd & Hr). repeat split; try assumption. congruence.
Qed.

Lemma delete_dimensions_ok db (doc_id : uuid) :
  dimensions_ok db → dimensions_ok (delete_document doc_id db).
Proof.
  intros Hdb i c e Hc He. apply lookup_deleted in Hc as [Hc _].
  exact (Hdb i c e Hc He).
Qed.

(** X13.  After the deletion of a document a search in it returns no
    row, and no error, under a scan of the table whatever the query
    embedding and under a scan of the index for a query of the declared
    dimension; and a search without limit in another document returns the
    rows it returned before. *)
Theorem delete_document_cascades (p : plan) db (doc_id : uuid) :
  (∀ (query_embedding : vector) (k : argument (option Z)),
     p = seq_scan ∨ length query_embedding = dimension →
     count_ok k →
     match_chunks_with p (delete_document doc_id db) query_embedding doc_id k
     = Ok [])
  ∧ (∀ (query_embedding : vector) (other : uuid),
       dimensions_ok db →
       length query_embedding = dimension →
       other ≠ doc_id →
       ∃ before after,
         match_chunks_with p db query_embedding other (given None) = Ok before
         ∧ match_chunks_with p (delete_document doc_id db) query_embedding
             other (given None)
           = Ok after
         ∧ after ≡ₚ before).
Proof.
  split.
  - intros q k Hp Hk. unfold Db.match_chunks_with.
    assert (match p with
            | seq_scan => false
            | index_scan _ => negb (Nat.eqb (length q) dimension)
            end = false) as ->.
    { destruct Hp as [->|Hq]; [reflexivity|apply DbFacts.plan_accepts, Hq]. }
    rewrite found_deleted. simpl.
    destruct k as [|[n|]]; simpl; try reflexivity.
    simpl in Hk.
    assert (is_int n = true) as ->.
    { unfold is_int, int_min, int_max in *.
      apply andb_true_iff. split; apply Z.leb_le; lia. }
    simpl. destruct (Z.ltb_spec n 0); [lia|].
    rewrite take_nil. reflexivity.
  - intros q other Hdb Hq Hne. unfold Db.match_chunks_with.
    rewrite (DbFacts.plan_accepts p q Hq).
    rewrite (DbFacts.comparable_found p db q other Hdb Hq).
    rewrite (DbFacts.comparable_found p _ q other
               (delete_dimensions_ok db doc_id Hdb) Hq).
    simpl. eexists _, _. split; [reflexivity|]. split; [reflexivity|].
    apply Permutation_map.
    rewrite !DbFacts.order_by_perm. apply found_after_delete, Hne.
Qed.

End WithDistance.

Lemma insert_chunk_documents doc_id now row db db' :
  insert_chunk doc_id now row db = Ok db' →
  documents db' = documents db
  ∧ is_Some (documents db !! doc_id)
  ∧ ∃ c, document_id c = doc_id ∧ chunks db' = <[fst row := c]> (chunks db).
Proof.
  destruct row as [new_id [[index body] e]]. unfold insert_chunk.
  case_bool_decide; [discriminate|].
  case_bool_decide as Hdoc; [discriminate|].
  destruct (negb (Nat.eqb (length e) dimension)); [discriminate|].
  destruct (negb (is_int index)); [discriminate|].
  intros [= <-]. simpl. split; [reflexivity|]. split.
  - destruct (documents db !! doc_id); [eauto|congruence].
  - eexists. split; [|reflexivity]. reflexivity.
Qed.

Lemma upsert_references doc_id now rows db db' :
  upsert doc_id now rows db = Ok db' →
  references_ok db → references_ok db'.
Proof.
  revert db. induction rows as [|row rest IH]; intros db; simpl.
  - intros [= <-]. auto.
  - destruct (insert_chunk doc_id now row db) as [db1|] eqn:E; [|discriminate].
    intros H Hdb. apply (IH db1 H).
    apply insert_chunk_documents in E as (Hdocs & Hdoc & c & Hc & Hch).
    intros i c' Hc'. rewrite Hdocs. rewrite Hch in Hc'.
    destruct (decide (fst row = i)) as [Heq|Hne].
    + subst i. rewrite lookup_insert_eq in Hc'. injection Hc' as <-.
      rewrite Hc. exact Hdoc.
    + rewrite lookup_insert_ne in Hc' by exact Hne. eauto.
Qed.

Lemma execute_references s db : references_ok db → references_ok (execute s db).
Proof.
  intros Hdb. destruct s as [new_id d|doc_id now rows|doc_id|q doc_id k]; simpl.
  - unfold insert_document.
    case_bool_decide as Hnew; [exact Hdb|].
    destruct (negb _); [exact Hdb|].
    intros i c Hc. simpl in *.
    destruct (decide (new_id = document_id c)) as [<-|Hne].
    + rewrite lookup_insert_eq. eauto.
    + rewrite lookup_insert_ne by exact Hne. eauto.
  - destruct (upsert doc_id now rows db) as [db'|] eqn:E; [|exact Hdb].
    exact (upsert_references _ _ _ _ _ E Hdb).
  - intros i c Hc. simpl in *.
    apply map_lookup_filter_Some in Hc as [Hc Hne]. simpl in Hne.
    rewrite lookup_delete_ne by congruence. eauto.
  - exact Hdb.
Qed.

(** X14.  In every store the statements can build, each chunk belongs to
    a document that is stored: a chunk is refused when its document is not
    there, and the deletion of a document takes its chunks with it. *)
Theorem chunks_reference_documents (statements : list statement) :
  ∀ i c, chunks (run statements empty) !! i = Some c →
         is_Some (documents (run statements empty) !! document_id c).
Proof.
  assert (∀ db, references_ok db → references_ok (run statements db)) as H.
  { induction statements as [|s rest IH]; intros db Hdb; [exact Hdb|].
    simpl. apply IH, execute_references, Hdb. }
  apply H. intros i c Hc. simpl in Hc. rewrite lookup_empty in Hc. discriminate.
Qed.

End SearchLaws.

(* ===================================================================== *)
(** * Facts about the requests of client/lib/api.ts other than the chat *)
(* ===================================================================== *)

Module FetchFacts.
Import JS Fetch Samples.

#[local] Arguments js : simpl never.
#[local] Arguments includes : simpl never.
#[local] Arguments N_text : simpl never.

Lemma truthy_or_else (a : option json) (b : json) :
  truthy (Some (or_else a b)) = truthy a || truthy (Some b).
Proof.
  unfold or_else. destruct a as [v|]; [|reflexivity].
  destruct (truthy (Some v)) eqn:T; [exact T|reflexivity].
Qed.

Lemma truthy_JStr (s : jsstring) : truthy (Some (JStr s)) = false ↔ s = [].
Proof. destruct s; simpl; split; congruence. Qed.

Section WithPlatform.
Variable JSON_parse : jsstring → option json.
Variable ToString : option json → jsstring.

Local Abbreviation extractErrorMessage := (extractErrorMessage JSON_parse).
Local Abbreviation settle := (settle JSON_parse ToString).

Lemma status_message_not_empty res (fallback : jsstring) :
  status_message res fallback ≠ [].
Proof.
  unfold status_message. intros H.
  apply app_eq_nil in H as [_ H]. vm_compute in H.
  discriminate.
Qed.

(** X15.  For a response that is not declared as JSON the message is the
    text of the body when that is shorter than 200 code units, and
    otherwise the fall-back text with the status: a longer body is never
    passed on. *)
Theorem extractErrorMessage_text res (fallback : jsstring) :
  includes (js "application/json") (default [] (content_type res)) = false →
  (∃ t, body res = Some t ∧ length t < 200
        ∧ extractErrorMessage res fallback = JStr t)
  ∨ ((∀ t, body res = Some t → 200 ≤ length t)
     ∧ extractErrorMessage res fallback
       = JStr (fallback ++ js " (HTTP " ++ N_text (status res) ++ js ")")).
Proof.
  intros Hct. unfold Fetch.extractErrorMessage. rewrite Hct.
  destruct (body res) as [t|] eqn:B.
  - destruct (Nat.ltb_spec (length t) 200) as [Hlt|Hge].
    + left. exists t. auto.
    + right. split; [|reflexivity]. intros t' [= <-]. exact Hge.
  - right. split; [|reflexivity]. intros t' [=].
Qed.

(** X16.  With a fall-back text that is not empty, the message is an
    empty or otherwise falsy value in one case only: the response is not
    declared as JSON and its body is empty.  The message is then the empty
    string. *)
Theorem extractErrorMessage_falsy res (fallback : jsstring) :
  fallback ≠ [] →
  truthy (Some (extractErrorMessage res fallback)) = false
  ↔ includes (js "application/json") (default [] (content_type res)) = false
    ∧ body res = Some [].
Proof.
  intros Hf.
  assert (truthy (Some (JStr fallback)) = true) as Tf.
  { destruct fallback; [congruence|reflexivity]. }
  assert (truthy (Some (JStr (status_message res fallback))) = true) as Ts.
  { pose proof (status_message_not_empty res fallback).
    destruct (status_message res fallback); [congruence|reflexivity]. }
  unfold Fetch.extractErrorMessage.
  destruct (includes _ _) eqn:Hct.
  - split; [|intros [? _]; discriminate].
    destruct (res_json JSON_parse res) as [data|].
    + rewrite !truthy_or_else, Tf, !orb_true_r. discriminate.
    + rewrite Tf. discriminate.
  - destruct (body res) as [t|] eqn:B.
    + destruct (Nat.ltb_spec (length t) 200) as [Hlt|Hge].
      * rewrite truthy_JStr. split; [intros ->; auto|intros [_ [= ->]]; reflexivity].
      * rewrite Ts. split; [discriminate|].
        intros [_ [= ->]]. simpl in Hge. lia.
    + rewrite Ts. split; [discriminate|intros [_ [=]]].
Qed.

(** A response that is not ok, declared as JSON, whose body is an object
    with a [detail] string that is not empty: the error thrown carries
    that string. *)
Lemma settle_detail (fallback : jsstring) res data (c : N) (s : jsstring) :
  ok res = false →
  includes (js "application/json") (default [] (content_type res)) = true →
  res_json JSON_parse res = Some data →
  optional_member data (js "detail") = Some (JStr (c :: s)) →
  settle fallback (Response res) = Throw (c :: s).
Proof.
  intros Hok Hct Hjson Hd. unfold Fetch.settle. rewrite Hok.
  unfold Fetch.extractErrorMessage. rewrite Hct, Hjson, Hd. reflexivity.
Qed.

(** X17.  When the server refuses a request with a JSON body
    [{"detail": ...}] whose detail is a string that is not empty, each of
    the four wrappers throws an error whose message is that detail, and
    not its own fall-back text. *)
Theorem wrappers_throw_detail (fetch : Request → FetchOutcome) res data
    (c : N) (s : jsstring) (url documentId : jsstring) (file : File) :
  (∀ request, fetch request = Response res) →
  ok res = false →
  includes (js "application/json") (default [] (content_type res)) = true →
  res_json JSON_parse res = Some data →
  optional_member data (js "detail") = Some (JStr (c :: s)) →
  processVideo JSON_parse ToString fetch url = Throw (c :: s)
  ∧ processPdf JSON_parse ToString fetch file = Throw (c :: s)
  ∧ generateFlashcards JSON_parse ToString fetch documentId = Throw (c :: s)
  ∧ generateQuiz JSON_parse ToString fetch documentId = Throw (c :: s).
Proof.
  intros Hfetch Hok Hct Hjson Hd.
  unfold processVideo, processPdf, generateFlashcards, generateQuiz.
  rewrite !Hfetch.
  repeat split; apply (settle_detail _ res data c s); assumption.
Qed.

End WithPlatform.

End FetchFacts.

(* ===================================================================== *)
(** * Facts about client/app/quiz/page.tsx *)
(* ===================================================================== *)

Module QuizPageFacts.
Import JS Quiz QuizPage Samples.

#[local] Arguments js : simpl never.
#[local] Set Warnings "-clear-no-such-hyp".

Lemma mount_answers_ok doc stored : answers_ok (mount doc stored).
Proof.
  unfold answers_ok, mount. simpl. split; [|split].
  - intros i [v Hv]. rewrite lookup_empty in Hv. discriminate.
  - destruct stored; discriminate.
  - destruct stored; [reflexivity|discriminate].
Qed.

Lemma answers_ok_same p p' :
  quizQuestions p' = quizQuestions p →
  userAnswers p' = userAnswers p →
  quizState p' = quizState p →
  answers_ok p → answers_ok p'.
Proof. unfold answers_ok. intros -> -> ->. auto. Qed.

Lemma answers_ok_fresh p :
  userAnswers p = ∅ → quizState p = taking → answers_ok p.
Proof.
  unfold answers_ok. intros -> ->. split; [|split; discriminate].
  intros i [v Hv]. rewrite lookup_empty in Hv. discriminate.
Qed.

Lemma handle_answers_ok e p : answers_ok p → answers_ok (handle e p).
Proof.
  intros Hp.
  destruct e as [|[result|msg]|idx key| | |idx]; simpl.
  - unfold start_generate.
    destruct (currentDocument p); apply (answers_ok_same p); auto.
  - apply answers_ok_fresh; reflexivity.
  - apply (answers_ok_same p); auto.
  - unfold answer. destruct (quizState p) eqn:S; try exact Hp.
    destruct (Nat.ltb_spec idx (length (quizQuestions p))) as [Hlt|_];
      [|exact Hp].
    destruct Hp as (Hkeys & Hsub & Hidle).
    unfold answers_ok. simpl.
    split; [|split; discriminate].
    intros i Hi. destruct (decide (idx = i)) as [<-|Hne]; [exact Hlt|].
    rewrite lookup_insert_ne in Hi by exact Hne. apply Hkeys, Hi.
  - unfold handleSubmit.
    destruct (Nat.ltb_spec (size (userAnswers p)) (length (quizQuestions p)))
      as [_|Hge]; [apply (answers_ok_same p); auto|].
    destruct Hp as (Hkeys & Hsub & Hidle).
    unfold answers_ok. simpl.
    split; [exact Hkeys|]. split; [intros _; exact Hge|discriminate].
  - apply answers_ok_fresh; reflexivity.
  - apply (answers_ok_same p); auto.
Qed.

Lemma after_answers_ok events p : answers_ok p → answers_ok (after events p).
Proof.
  revert p. induction events as [|e rest IH]; intros p Hp; [exact Hp|].
  simpl. apply IH, handle_answers_ok, Hp.
Qed.

(** X18.  Whatever happens on the quiz page, a quiz that is in the
    submitted state has an answer recorded for every question, no answer
    is ever recorded for an index that is not a question, and the page is
    in the idle state only while there is no question. *)
Theorem submitted_quiz_is_complete (doc : option Store.DocumentInfo)
    (stored : list QuizQuestion) (events : list event) :
  (quizState (after events (mount doc stored)) = submitted →
   ∀ i, i < length (quizQuestions (after events (mount doc stored))) →
        is_Some (userAnswers (after events (mount doc stored)) !! i))
  ∧ (∀ i, is_Some (userAnswers (after events (mount doc stored)) !! i) →
          i < length (quizQuestions (after events (mount doc stored))))
  ∧ (quizState (after events (mount doc stored)) = idle →
     quizQuestions (after events (mount doc stored)) = []).
Proof.
  destruct (after_answers_ok events _ (mount_answers_ok doc stored))
    as (Hkeys & Hsub & Hidle).
  split; [|split; assumption].
  intros Hs i Hi.
  set (p := after events (mount doc stored)) in *.
  assert (dom (userAnswers p) = (set_seq 0 (length (quizQuestions p)) : gset nat))
    as Hdom.
  { apply set_subseteq_size_eq.
    - intros j Hj. apply elem_of_dom in Hj. apply elem_of_set_seq.
      split; [lia|]. simpl. apply Hkeys, Hj.
    - rewrite size_set_seq, size_dom. apply Hsub, Hs. }
  apply elem_of_dom. rewrite Hdom. apply elem_of_set_seq. lia.
Qed.

Lemma score_from_bound i (userAnswers : gmap nat jsstring) (qs : list QuizQuestion) :
  score_from i userAnswers qs ≤ length qs.
Proof.
  revert i. induction qs as [|q qs IH]; intros i; simpl; [lia|].
  specialize (IH (S i)). case_bool_decide; lia.
Qed.

Lemma score_from_full i (userAnswers : gmap nat jsstring) (qs : list QuizQuestion) :
  score_from i userAnswers qs = length qs
  ↔ ∀ j q, qs !! j = Some q →
           userAnswers !! (i + j) = Some (key_name (correct_answer q)).
Proof.
  revert i. induction qs as [|q qs IH]; intros i; simpl.
  - split; [intros _ j q' Hj; rewrite lookup_nil in Hj; discriminate|reflexivity].
  - pose proof (score_from_bound (S i) userAnswers qs) as Hb.
    case_bool_decide as Hq.
    + split.
      * intros H j q' Hj. destruct j as [|j]; simpl in Hj.
        -- injection Hj as <-. rewrite Nat.add_0_r. exact Hq.
        -- replace (i + S j) with (S i + j) by lia.
           apply (proj1 (IH (S i))); [lia|exact Hj].
      * intros H. f_equal. apply IH. intros j q' Hj.
        replace (S i + j) with (i + S j) by lia. apply H. exact Hj.
    + split; [lia|].
      intros H. exfalso. apply Hq.
      specialize (H 0 q eq_refl). rewrite Nat.add_0_r in H. exact H.
Qed.

Lemma score_from_empty i (qs : list QuizQuestion) : score_from i ∅ qs = 0.
Proof.
  revert i. induction qs as [|q qs IH]; intros i; simpl; [reflexivity|].
  rewrite IH. case_bool_decide as H; [|reflexivity].
  rewrite lookup_empty in H. discriminate.
Qed.

(** X19.  The score is at most the number of questions, and it is that
    number exactly when, for every question, the answer recorded at its
    index is its correct answer; a question without a recorded answer
    scores nothing. *)
Theorem score_bound_and_full_marks (userAnswers : gmap nat jsstring)
    (quizQuestions : list QuizQuestion) :
  score userAnswers quizQuestions ≤ length quizQuestions
  ∧ (score userAnswers quizQuestions = length quizQuestions
     ↔ ∀ i q, quizQuestions !! i = Some q →
              userAnswers !! i = Some (key_name (correct_answer q)))
  ∧ score ∅ quizQuestions = 0.
Proof.
  split; [apply score_from_bound|]. split; [apply (score_from_full 0)|].
  apply score_from_empty.
Qed.

(** X20.  Toggling the explanation of a question twice leaves the page as
    it was, and toggling one question leaves the others as they are. *)
Theorem toggleExplanation_twice (idx : nat) (p : Page) :
  toggleExplanation idx (toggleExplanation idx p) = p
  ∧ ∀ other, other ≠ idx →
      (other ∈ expandedExplanations (toggleExplanation idx p)
       ↔ other ∈ expandedExplanations p).
Proof.
  split.
  - destruct p as [doc qs ua st ld ex ts pu]. unfold toggleExplanation. simpl.
    f_equal. unfold toggle.
    destruct (decide (idx ∈ ex)) as [Hin|Hout].
    + rewrite (bool_decide_eq_true_2 _ Hin).
      rewrite bool_decide_eq_false_2 by set_solver.
      apply set_eq. intros x. destruct (decide (x = idx)); set_solver.
    + rewrite (bool_decide_eq_false_2 _ Hout).
      rewrite bool_decide_eq_true_2 by set_solver.
      set_solver.
  - intros other Hne. simpl. unfold toggle. case_bool_decide; set_solver.
Qed.

End QuizPageFacts.

(* ===================================================================== *)
(** * Facts about client/app/flashcards/page.tsx *)
(* ===================================================================== *)

Module FlashcardsPageFacts.
Import JS FlashcardsPage Samples.

#[local] Arguments js : simpl never.

Lemma mount_index_ok doc stored : index_ok (mount doc stored).
Proof.
  unfold index_ok, mount. simpl. split; [lia|]. split.
  - intros H. destruct stored; [congruence|simpl; lia].
  - intros i Hi. set_solver.
Qed.

Lemma goTo_index_ok idx p : index_ok p → index_ok (goTo idx p).
Proof.
  intros (H0 & Hn & Hv). unfold index_ok, goTo. simpl.
  assert (flashcards p ≠ [] → (0 < Z.of_nat (length (flashcards p)))%Z) as Hpos.
  { intros H. destruct (flashcards p); [congruence|simpl; lia]. }
  split; [lia|]. split.
  - intros H. specialize (Hpos H). lia.
  - intros i Hi. apply elem_of_union in Hi as [Hi|Hi].
    + apply elem_of_singleton in Hi. subst i. split; [lia|].
      intros H. specialize (Hpos H). lia.
    + apply Hv, Hi.
Qed.

Lemma first_index_ok (cards : list Flashcard) :
  (0 ≤ 0)%Z
  ∧ (cards ≠ [] → (0 < Z.of_nat (length cards))%Z)
  ∧ (∀ i, i ∈ ({[0%Z]} : gset Z) →
       (0 ≤ i)%Z ∧ (cards ≠ [] → (i < Z.of_nat (length cards))%Z)).
Proof.
  assert (cards ≠ [] → (0 < Z.of_nat (length cards))%Z) as Hpos.
  { intros H. destruct cards; [congruence|simpl; lia]. }
  split; [lia|]. split; [exact Hpos|].
  intros i Hi. apply elem_of_singleton in Hi. subst i. split; [lia|exact Hpos].
Qed.

Lemma handle_index_ok e p : index_ok p → index_ok (handle e p).
Proof.
  intros Hp.
  destruct e as [|[result|msg]|idx| | | |]; simpl.
  - unfold start_generate. destruct (currentDocument p); exact Hp.
  - apply first_index_ok.
  - exact Hp.
  - apply goTo_index_ok, Hp.
  - apply goTo_index_ok, Hp.
  - apply goTo_index_ok, Hp.
  - exact Hp.
  - apply first_index_ok.
Qed.

Lemma after_index_ok events p : index_ok p → index_ok (after events p).
Proof.
  revert p. induction events as [|e rest IH]; intros p Hp; [exact Hp|].
  simpl. apply IH, handle_index_ok, Hp.
Qed.

(** X21.  Whatever happens on the flashcards page, when there are cards
    the current index is the index of one of them, so the card shown
    exists, and so is every index marked as viewed. *)
Theorem shown_card_exists (doc : option Store.DocumentInfo)
    (stored : list Flashcard) (events : list event) :
  flashcards (after events (mount doc stored)) ≠ [] →
  is_Some (current_card (after events (mount doc stored)))
  ∧ ∀ i, i ∈ viewed (after events (mount doc stored)) →
         (0 ≤ i)%Z
         ∧ is_Some (flashcards (after events (mount doc stored)) !! Z.to_nat i).
Proof.
  intros Hne.
  destruct (after_index_ok events _ (mount_index_ok doc stored))
    as (H0 & Hn & Hv).
  set (p := after events (mount doc stored)) in *.
  split.
  - unfold current_card. destruct (Z.ltb_spec (currentIndex p) 0); [lia|].
    apply lookup_lt_is_Some. specialize (Hn Hne). lia.
  - intros i Hi. destruct (Hv i Hi) as [Hi0 Hin]. split; [exact Hi0|].
    apply lookup_lt_is_Some. specialize (Hin Hne). lia.
Qed.

(** X22.  On a page with cards, [next] moves to the following card and
    stays on the last one, [prev] moves to the card before and stays on
    the first one, and [prev] after [next] comes back to the card one
    left, unless that was the last one. *)
Theorem next_and_prev (doc : option Store.DocumentInfo)
    (stored : list Flashcard) (events : list event) :
  flashcards (after events (mount doc stored)) ≠ [] →
  currentIndex (next (after events (mount doc stored)))
  = Z.min (currentIndex (after events (mount doc stored)) + 1)
      (Z.of_nat (length (flashcards (after events (mount doc stored)))) - 1)
  ∧ currentIndex (prev (after events (mount doc stored)))
    = Z.max (currentIndex (after events (mount doc stored)) - 1) 0
  ∧ ((currentIndex (after events (mount doc stored)) + 1
      < Z.of_nat (length (flashcards (after events (mount doc stored)))))%Z →
     currentIndex (prev (next (after events (mount doc stored))))
     = currentIndex (after events (mount doc stored))).
Proof.
  intros Hne.
  destruct (after_index_ok events _ (mount_index_ok doc stored))
    as (H0 & Hn & _).
  set (p := after events (mount doc stored)) in *.
  specialize (Hn Hne).
  unfold prev, next, goTo. simpl. repeat split; lia.
Qed.

End FlashcardsPageFacts.

(* ===================================================================== *)
(** * Facts about the upload page *)
(* ===================================================================== *)

Module UploadPageFacts.
Import JS Store UploadPage Samples.

#[local] Arguments js : simpl never.
#[local] Arguments trim : simpl never.
#[local] Arguments endsWith : simpl never.

Section WithStore.
Context {Flashcard QuizQuestion : Type}.
Variable step_progress : nat → nat → Z.

Local Abbreviation Page := (Page (Flashcard := Flashcard) (QuizQuestion := QuizQuestion)).
Local Abbreviation ticks := (ticks (Flashcard := Flashcard) (QuizQuestion := QuizQuestion) step_progress).
Local Abbreviation handleVideoSubmit := (handleVideoSubmit (Flashcard := Flashcard) (QuizQuestion := QuizQuestion) step_progress).
Local Abbreviation handleFile := (handleFile (Flashcard := Flashcard) (QuizQuestion := QuizQuestion) step_progress).

(** The interval changes the progress and its text, nothing else. *)
Lemma ticks_frame messages fired (p : Page) :
  store (ticks messages fired p) = store p
  ∧ status (ticks messages fired p) = status p
  ∧ toasts (ticks messages fired p) = toasts p
  ∧ scheduled (ticks messages fired p) = scheduled p
  ∧ youtubeUrl (ticks messages fired p) = youtubeUrl p.
Proof.
  unfold UploadPage.ticks. generalize (seq 0 fired). intros l. revert p.
  induction l as [|i l IH]; intros p; simpl; [repeat split|].
  destruct (IH (tick step_progress messages i p)) as (H1 & H2 & H3 & H4 & H5).
  rewrite H1, H2, H3, H4, H5. unfold tick.
  destruct (messages !! i); repeat split.
Qed.

(** X23.  An upload that succeeds, of a video or of a PDF, leaves in the
    store the new document and nothing of the old one: no flashcards, no
    quiz questions and no chat history, whatever they were; the page is
    done, at 100, and one navigation to the flashcards is scheduled. *)
Theorem upload_replaces_the_document (fired : nat) (p : Page)
    (video : ProcessVideoResponse) (file : Fetch.File) (pdf_result : ProcessPdfResponse) :
  (trim (youtubeUrl p) ≠ [] →
   store (handleVideoSubmit fired (Normal video) p)
   = {| currentDocument :=
          Some {| id := v_document_id video; title := v_title video;
                  source_type := youtube |};
        flashcards := []; quizQuestions := []; chatHistory := [] |}
   ∧ status (handleVideoSubmit fired (Normal video) p) = done
   ∧ progress (handleVideoSubmit fired (Normal video) p) = 100%Z
   ∧ scheduled (handleVideoSubmit fired (Normal video) p)
     = scheduled p ++ [js "/flashcards"])
  ∧ (endsWith (js ".pdf") (Fetch.name file) = true →
     store (handleFile file fired (Normal pdf_result) p)
     = {| currentDocument :=
            Some {| id := f_document_id pdf_result; title := f_title pdf_result;
                    source_type := pdf |};
          flashcards := []; quizQuestions := []; chatHistory := [] |}
     ∧ status (handleFile file fired (Normal pdf_result) p) = done
     ∧ progress (handleFile file fired (Normal pdf_result) p) = 100%Z
     ∧ scheduled (handleFile file fired (Normal pdf_result) p)
       = scheduled p ++ [js "/flashcards"]).
Proof.
  split.
  - intros Hurl. unfold UploadPage.handleVideoSubmit.
    destruct (trim (youtubeUrl p)) as [|c s]; [congruence|]. simpl.
    destruct (ticks_frame video_messages fired (setStatus processing p))
      as (_ & _ & _ & Hs & _).
    rewrite Hs. repeat split.
  - intros Hname. unfold UploadPage.handleFile. rewrite Hname. simpl.
    destruct (ticks_frame pdf_messages fired (setStatus processing p))
      as (_ & _ & _ & Hs & _).
    rewrite Hs. repeat split.
Qed.

(** X24.  An upload that does not succeed leaves the store as it was:
    with a blank link nothing at all happens; a file whose name does not
    end in [.pdf], in lower case, is refused with a toast and without a
    request; and a request that fails ends in the error state with the
    message as a toast. *)
Theorem failed_upload_keeps_the_store (fired : nat) (p : Page) (msg : jsstring)
    (file : Fetch.File)
    (video_outcome : completion ProcessVideoResponse)
    (pdf_outcome : completion ProcessPdfResponse) :
  (trim (youtubeUrl p) = [] → handleVideoSubmit fired video_outcome p = p)
  ∧ (endsWith (js ".pdf") (Fetch.name file) = false →
     handleFile file fired pdf_outcome p
     = toast (js "Please upload a PDF file.") None p)
  ∧ store (handleVideoSubmit fired (Throw msg) p) = store p
  ∧ store (handleFile file fired (Throw msg) p) = store p
  ∧ (trim (youtubeUrl p) ≠ [] →
     status (handleVideoSubmit fired (Throw msg) p) = error
     ∧ toasts (handleVideoSubmit fired (Throw msg) p) = toasts p ++ [(msg, None)])
  ∧ (endsWith (js ".pdf") (Fetch.name file) = true →
     status (handleFile file fired (Throw msg) p) = error
     ∧ toasts (handleFile file fired (Throw msg) p) = toasts p ++ [(msg, None)]).
Proof.
  destruct (ticks_frame video_messages fired (setStatus processing p))
    as (Hv1 & _ & Hv3 & _ & _).
  destruct (ticks_frame pdf_messages fired (setStatus processing p))
    as (Hf1 & _ & Hf3 & _ & _).
  split; [|split; [|split; [|split; [|split]]]].
  - intros Hurl. unfold UploadPage.handleVideoSubmit. rewrite Hurl. reflexivity.
  - intros Hname. unfold UploadPage.handleFile. rewrite Hname. reflexivity.
  - unfold UploadPage.handleVideoSubmit.
    destruct (trim (youtubeUrl p)); [reflexivity|]. simpl. exact Hv1.
  - unfold UploadPage.handleFile.
    destruct (endsWith (js ".pdf") (Fetch.name file)); [|reflexivity].
    simpl. exact Hf1.
  - intros Hurl. unfold UploadPage.handleVideoSubmit.
    destruct (trim (youtubeUrl p)); [congruence|]. simpl.
    rewrite Hv3. split; reflexivity.
  - intros Hname. unfold UploadPage.handleFile. rewrite Hname. simpl.
    rewrite Hf3. split; reflexivity.
Qed.

End WithStore.

Example upload_sample :
  status (handleVideoSubmit sample_progress 2 (Normal sample_video) sample_upload)
  = done
  ∧ progress (handleVideoSubmit sample_progress 2 (Throw (js "no transcript"))
                sample_upload) = 45%Z
  ∧ statusText (handleVideoSubmit sample_progress 9 (Throw (js "no transcript"))
                  sample_upload)
    = js "Storing in vector database" ++ [ellipsis]
  ∧ toasts (handleFile sample_progress upper_case_file 0 (Normal sample_pdf)
              sample_upload)
    = [(js "Please upload a PDF file.", None)].
Proof. vm_compute. repeat split. Qed.

End UploadPageFacts.

(* ===================================================================== *)
(** * Facts about the chat turn on a connection that need not end *)
(* ===================================================================== *)

Module LiveFacts.
Import JS Store Api ChatPage Turns Live Samples.

#[local] Arguments startsWith : simpl never.
#[local] Arguments trim : simpl never.
#[local] Arguments slice : simpl never.
#[local] Arguments split : simpl never.
#[local] Arguments js : simpl never.
#[local] Arguments member : simpl never.
#[local] Arguments truthy : simpl never.
#[local] Arguments updateLastAssistantMessage : simpl never.
#[local] Arguments on_catch : simpl never.
#[local] Arguments opened : simpl never.
#[local] Arguments after_loop : simpl never.
#[local] Arguments process_lines : simpl never.

Section WithPlatform.
Context {Flashcard QuizQuestion : Type}.
Variable JSON_parse : jsstring → option json.
Variable ToString : option json → jsstring.

Local Abbreviation Page := (Page (Flashcard := Flashcard) (QuizQuestion := QuizQuestion)).
Local Abbreviation consume := (consume (Flashcard := Flashcard) (QuizQuestion := QuizQuestion) ToString).
Local Abbreviation reading := (reading (Flashcard := Flashcard) (QuizQuestion := QuizQuestion) ToString).
Local Abbreviation handleSend := (handleSend (Flashcard := Flashcard) (QuizQuestion := QuizQuestion) JSON_parse ToString).
Local Abbreviation handleSend_within := (handleSend_within (Flashcard := Flashcard) (QuizQuestion := QuizQuestion) JSON_parse ToString).
Local Abbreviation chatStream_within := (chatStream_within JSON_parse ToString).
Local Abbreviation chatStream := (chatStream JSON_parse ToString).
Local Abbreviation read_within := (read_within JSON_parse).
Local Abbreviation read_loop := (read_loop JSON_parse).
Local Abbreviation process_lines := (process_lines JSON_parse).
Local Abbreviation replying := (replying (Flashcard := Flashcard) (QuizQuestion := QuizQuestion)).

(** One iteration of the loop on a value, with the iterations after it
    given. *)
Lemma read_within_value n buffer body i value :
  body i = Some (Arrives value) →
  read_within (S n) buffer body i
  = if snd (process_lines (removelast (split newline (buffer ++ value))))
    then Finished
           (mkGenerated
              (fst (process_lines (removelast (split newline (buffer ++ value)))))
              (Normal tt))
    else match read_within n
                 (default [] (last (split newline (buffer ++ value)))) body (S i)
         with
         | Running so_far =>
             Running
               (fst (process_lines (removelast (split newline (buffer ++ value))))
                  ++ so_far)
         | Finished g =>
             Finished
               (mkGenerated
                  (fst (process_lines
                          (removelast (split newline (buffer ++ value))))
                     ++ yielded g)
                  (finish g))
         end.
Proof.
  intros Hb. simpl. rewrite Hb. unfold pop.
  destruct (process_lines (removelast (split newline (buffer ++ value))))
    as [ys returned].
  reflexivity.
Qed.

Lemma done_terminated_after (pre ys : list json) :
  done_terminated ys → done_terminated (pre ++ ys).
Proof.
  intros (pre' & x & -> & Hx). exists (pre ++ pre'), x.
  split; [apply app_assoc|exact Hx].
Qed.

(** The loop over the lines returns at a [done] element only. *)
Lemma process_lines_returned (lines : list jsstring) :
  snd (process_lines lines) = true →
  done_terminated (fst (process_lines lines)).
Proof.
  unfold Api.process_lines.
  induction lines as [|line rest IH]; simpl; [discriminate|].
  fold (Api.process_lines JSON_parse rest) in *.
  destruct (startsWith data_prefix line); [|exact IH].
  destruct (trim (slice 6 line)) as [|c s]; [exact IH|].
  destruct (JSON_parse (c :: s)) as [chunk|]; [|exact IH].
  destruct (member chunk (js "done")) as [d|m] eqn:M.
  - destruct (truthy d) eqn:T.
    + intros _. exists [], chunk. split; [reflexivity|].
      unfold is_done. rewrite M. exact T.
    + simpl. intros H. apply (done_terminated_after [chunk]), IH, H.
  - simpl. intros H. apply (done_terminated_after [chunk]), IH, H.
Qed.

(** While it runs the generator has yielded no [done] element, and when
    it has finished only the last element it yielded can be one. *)
Lemma read_within_done body n :
  ∀ buffer i,
    match read_within n buffer body i with
    | Running so_far => forallb (λ x, negb (is_done x)) so_far = true
    | Finished g => only_last is_done (yielded g) = true
    end.
Proof.
  induction n as [|n IH]; intros buffer i; [reflexivity|].
  destruct (body i) as [[value|[|m]]|] eqn:Hb;
    try (simpl; rewrite Hb; reflexivity).
  rewrite (read_within_value n buffer body i value Hb).
  pose proof (ApiFacts.process_lines_done JSON_parse
                (removelast (split newline (buffer ++ value)))) as [H1 H2].
  destruct (snd (process_lines _)); [exact H1|].
  specialize (IH (default [] (last (split newline (buffer ++ value)))) (S i)).
  destruct (read_within n _ body (S i)) as [so_far|g]; simpl.
  - rewrite forallb_app, (H2 eq_refl), IH. reflexivity.
  - apply ApiFacts.only_last_app; [exact (H2 eq_refl)|exact IH].
Qed.

(** A generator that has finished stays as it is. *)
Lemma read_within_stable body n :
  ∀ buffer i g k,
    read_within n buffer body i = Finished g →
    n ≤ k →
    read_within k buffer body i = Finished g.
Proof.
  induction n as [|n IH]; intros buffer i g k H Hk; [discriminate|].
  destruct k as [|k]; [lia|].
  destruct (body i) as [[value|[|m]]|] eqn:Hb;
    try (simpl in *; rewrite Hb in *; exact H).
  rewrite (read_within_value n buffer body i value Hb) in H.
  rewrite (read_within_value k buffer body i value Hb).
  destruct (snd (process_lines _)); [exact H|].
  destruct (read_within n _ body (S i)) as [so_far|g'] eqn:E; [discriminate|].
  rewrite (IH _ _ g' k E ltac:(lia)). exact H.
Qed.

(** When the body ends the generator finishes: with a [done] element as
    its last one if it met one, and else the way the body ended. *)
Lemma read_within_ends body fin n :
  ∀ buffer i,
    (∀ j, j < n → ∃ text, body (i + j) = Some (Arrives text)) →
    body (i + n) = Some (Ends fin) →
    ∃ g, read_within (S n) buffer body i = Finished g
         ∧ (done_terminated (yielded g) ∨ finish g = completion_of fin).
Proof.
  induction n as [|n IH]; intros buffer i Hvalues Hend.
  - rewrite Nat.add_0_r in Hend. simpl. rewrite Hend.
    destruct fin; eexists; (split; [reflexivity|right; reflexivity]).
  - destruct (Hvalues 0 ltac:(lia)) as [value Hb].
    rewrite Nat.add_0_r in Hb.
    rewrite (read_within_value _ buffer body i value Hb).
    pose proof (process_lines_returned
                  (removelast (split newline (buffer ++ value)))) as Hret.
    destruct (snd (process_lines _)).
    + eexists. split; [reflexivity|]. left. exact (Hret eq_refl).
    + destruct (IH (default [] (last (split newline (buffer ++ value)))) (S i))
        as (g & Hg & Hhow).
      * intros j Hj. replace (S i + j) with (i + S j) by lia.
        apply Hvalues. lia.
      * replace (S i + n) with (i + S n) by lia. exact Hend.
      * rewrite Hg. eexists. split; [reflexivity|]. simpl.
        destruct Hhow as [Hdone|Hfin]; [left|right; exact Hfin].
        apply done_terminated_after, Hdone.
Qed.

(** The generator finishes in no other way: it has met a [done] element,
    or the body has ended. *)
Lemma read_within_ends_only body n :
  ∀ buffer i g,
    read_within n buffer body i = Finished g →
    done_terminated (yielded g)
    ∨ ∃ j fin, j < n ∧ body (i + j) = Some (Ends fin)
               ∧ finish g = completion_of fin.
Proof.
  induction n as [|n IH]; intros buffer i g H; [discriminate|].
  destruct (body i) as [[value|fin]|] eqn:Hb.
  - rewrite (read_within_value _ buffer body i value Hb) in H.
    pose proof (process_lines_returned
                  (removelast (split newline (buffer ++ value)))) as Hret.
    destruct (snd (process_lines _)).
    + injection H as <-. left. exact (Hret eq_refl).
    + destruct (read_within n _ body (S i)) as [so_far|g'] eqn:E; [discriminate|].
      injection H as <-. simpl.
      destruct (IH _ _ _ E) as [Hdone|(j & fin & Hj & Hend & Hfin)].
      * left. apply done_terminated_after, Hdone.
      * right. exists (S j), fin. split; [lia|].
        replace (i + S j) with (S i + j) by lia. split; assumption.
  - right. exists 0, fin. rewrite Nat.add_0_r. split; [lia|]. split; [exact Hb|].
    simpl in H. rewrite Hb in H. destruct fin; injection H as <-; reflexivity.
  - simpl in H. rewrite Hb in H. discriminate.
Qed.

(** On a body of [Api.Response], once its reads have settled, the
    generator has finished as [read_loop] says. *)
Lemma read_within_body_of (reads : list jsstring) (fin : stream_end) n :
  ∀ buffer k,
    length reads - k < n →
    read_within n buffer (body_of reads fin) k
    = Finished (read_loop buffer (drop k reads) fin).
Proof.
  induction n as [|n IH]; intros buffer k Hn; [lia|].
  pose proof (lookup_lt_Some reads k) as Hlt.
  destruct (reads !! k) as [value|] eqn:Hk.
  - rewrite (read_within_value _ buffer _ k value)
      by (unfold body_of; rewrite Hk; reflexivity).
    rewrite (drop_S _ _ _ Hk). simpl. unfold pop.
    destruct (Api.process_lines JSON_parse
                (removelast (split newline (buffer ++ value))))
      as [ys returned].
    simpl. destruct returned; [reflexivity|].
    specialize (Hlt value eq_refl).
    rewrite IH by lia. reflexivity.
  - simpl. unfold body_of. rewrite Hk.
    rewrite drop_ge by (apply lookup_ge_None, Hk).
    destruct fin; reflexivity.
Qed.

(** The two models agree: on the results of [Api], once the reads of the
    body have settled, [chatStream] has finished as [Api.chatStream]
    says. *)
Lemma chatStream_within_settled (fetch : ChatRequest → FetchResult)
    (documentId message : jsstring) (history : list ChatMessage) (n : nat) :
  (∀ reads fin,
     fetch (chat_request documentId message history) = Resolved (Body reads fin) →
     length reads < n) →
  chatStream_within n (λ q, settled (fetch q)) documentId message history
  = Finished (chatStream fetch documentId message history).
Proof.
  intros Hn. unfold Live.chatStream_within, Api.chatStream.
  destruct (fetch _) as [m|[body| |reads fin]] eqn:E; simpl.
  - reflexivity.
  - destruct (member _ _); reflexivity.
  - reflexivity.
  - rewrite (read_within_body_of reads fin n [] 0)
      by (specialize (Hn reads fin eq_refl); lia).
    reflexivity.
Qed.

(** The loop that is still reading stops at the first element that
    carries an error. *)
Lemma reading_error (fullResponse : jsstring) (chunks : list json) (p : Page) :
  only_last carries_error (fst (fst (reading fullResponse chunks p))) = true.
Proof.
  revert fullResponse p.
  induction chunks as [|chunk rest IH]; intros fullResponse p; simpl;
    [reflexivity|].
  destruct (member chunk (js "error")) as [e|m] eqn:M; [|reflexivity].
  destruct (truthy e) eqn:T; [reflexivity|].
  match goal with
  | |- context [Live.reading ToString ?f rest ?q] =>
      specialize (IH f q); destruct (Live.reading ToString f rest q) as [[received p'] stopped]
  end.
  simpl in *. apply ApiFacts.only_last_cons; [|exact IH].
  unfold carries_error. rewrite M. exact T.
Qed.


(** [handleSend] past its guard, once the generator has finished: the
    loop on the opened page, then [setIsStreaming(false)]. *)
Lemma handleSend_within_finished n fetch now1 now2 (p : Page) doc g :
  trim (p_input p) ≠ [] →
  p_isStreaming p = false →
  currentDocument (store p) = Some doc →
  chatStream_within n fetch (id doc) (trim (p_input p)) (chatHistory (store p))
  = Finished g →
  handleSend_within n fetch now1 now2 (render p) p
  = (fst (consume [] (yielded g) (finish g) (opened now1 now2 doc p)),
     setIsStreaming false
       (snd (consume [] (yielded g) (finish g) (opened now1 now2 doc p)))).
Proof.
  intros Hin Hst Hdoc Hg. unfold Live.handleSend_within. simpl.
  destruct (trim (p_input p)) as [|c s] eqn:T; [congruence|].
  rewrite Hst, Hdoc, Hg. unfold opened. rewrite T.
  match goal with
  | |- (let '(_, _) := ?C in _) = _ => destruct C
  end.
  reflexivity.
Qed.

(** [handleSend] past its guard, while the generator runs. *)
Lemma handleSend_within_running n fetch now1 now2 (p : Page) doc so_far :
  trim (p_input p) ≠ [] →
  p_isStreaming p = false →
  currentDocument (store p) = Some doc →
  chatStream_within n fetch (id doc) (trim (p_input p)) (chatHistory (store p))
  = Running so_far →
  handleSend_within n fetch now1 now2 (render p) p
  = (fst (fst (reading [] so_far (opened now1 now2 doc p))),
     if snd (reading [] so_far (opened now1 now2 doc p))
     then setIsStreaming false
            (snd (fst (reading [] so_far (opened now1 now2 doc p))))
     else snd (fst (reading [] so_far (opened now1 now2 doc p)))).
Proof.
  intros Hin Hst Hdoc Hg. unfold Live.handleSend_within. simpl.
  destruct (trim (p_input p)) as [|c s] eqn:T; [congruence|].
  rewrite Hst, Hdoc, Hg. unfold opened. rewrite T.
  match goal with
  | |- (let '(_, _) := ?C in _) = _ => destruct C as [[received p'] stopped]
  end.
  reflexivity.
Qed.

(** The loop that is still reading leaves the input and the streaming
    flag as they are, and it has stopped when an element that is not
    clean has come. *)
Lemma reading_frame full chunks (p : Page) :
  p_input (snd (fst (reading full chunks p))) = p_input p
  ∧ p_isStreaming (snd (fst (reading full chunks p))) = p_isStreaming p
  ∧ snd (reading full chunks p) = negb (forallb clean chunks).
Proof.
  revert full p. induction chunks as [|chunk rest IH]; intros full p; simpl.
  - repeat split.
  - unfold clean at 1.
    destruct (member chunk (js "error")) as [e|m]; [|repeat split].
    destruct (truthy e); [destruct full; repeat split|].
    match goal with
    | |- context [Live.reading ToString ?f rest ?q] =>
        specialize (IH f q);
        destruct (Live.reading ToString f rest q) as [[received p'] stopped]
    end.
    exact IH.
Qed.

Lemma after_loop_reply h ts full (q : Page) :
  replying h ts full q →
  ∃ c, chatHistory (store (after_loop full q))
       = h ++ [mkChatMessage assistant c ts] ∧ c ≠ [].
Proof.
  destruct full as [|a full']; intros Hq; unfold after_loop.
  - destruct (TurnLaws.replying_update h ts [] empty_message q Hq)
      as (c & Hc & Hfull).
    exists c. split; [exact Hc|].
    rewrite (Hfull TurnLaws.empty_message_not_empty).
    apply TurnLaws.empty_message_not_empty.
  - destruct Hq as (c & Hc & Hfull). exists c. split; [exact Hc|].
    rewrite Hfull; discriminate.
Qed.

Lemma on_catch_reply h ts full m (q : Page) :
  replying h ts full q →
  ∃ c, chatHistory (store (on_catch m q))
       = h ++ [mkChatMessage assistant c ts] ∧ c ≠ [].
Proof.
  intros Hq. unfold on_catch.
  destruct (TurnLaws.replying_update h ts full sorry_message (toast_error m q) Hq)
    as (c & Hc & Hfull).
  exists c. split; [exact Hc|].
  rewrite (Hfull TurnLaws.sorry_message_not_empty).
  apply TurnLaws.sorry_message_not_empty.
Qed.

(** While the loop reads, the assistant message of the turn ends the
    history, and it is not empty once the loop has stopped. *)
Lemma reading_reply h ts full chunks (p : Page) :
  replying h ts full p →
  ∃ c, chatHistory (store (snd (fst (reading full chunks p))))
       = h ++ [mkChatMessage assistant c ts]
       ∧ (snd (reading full chunks p) = true → c ≠ []).
Proof.
  revert full p. induction chunks as [|chunk rest IH]; intros full p Hp; simpl.
  - destruct Hp as (c & Hc & _). exists c. split; [exact Hc|discriminate].
  - destruct (member chunk (js "error")) as [e|m]; simpl.
    + destruct (truthy e); simpl.
      * destruct full as [|a full']; unfold after_loop.
        -- destruct (TurnLaws.replying_update h ts sorry_message empty_message
                       (on_store (updateLastAssistantMessage sorry_message)
                          (toast_error (ToString e) p))
                       (TurnLaws.replying_update h ts [] sorry_message
                          (toast_error (ToString e) p) Hp))
             as (c & Hc & Hfull).
           exists c. split; [exact Hc|]. intros _.
           rewrite (Hfull TurnLaws.empty_message_not_empty).
           apply TurnLaws.empty_message_not_empty.
        -- destruct (TurnLaws.replying_update h ts (a :: full') sorry_message
                       (toast_error (ToString e) p) Hp) as (c & Hc & Hfull).
           exists c. split; [exact Hc|]. intros _.
           rewrite (Hfull TurnLaws.sorry_message_not_empty).
           apply TurnLaws.sorry_message_not_empty.
      * match goal with
        | |- context [Live.reading ToString ?f rest ?q] =>
            specialize (IH f q);
            destruct (Live.reading ToString f rest q) as [[received p'] stopped]
        end.
        simpl in *. apply IH, (TurnLaws.replying_update h ts full), Hp.
    + destruct (on_catch_reply h ts full m p Hp) as (c & Hc & Hne).
      exists c. split; [exact Hc|]. intros _. exact Hne.
Qed.

(** The two models agree on a turn: on the results of [Api], once the
    reads of the body have settled, the page is as [handleSend] leaves
    it. *)
Lemma handleSend_within_settled (fetch : ChatRequest → FetchResult) n
    now1 now2 r (p : Page) :
  (∀ q reads fin, fetch q = Resolved (Body reads fin) → length reads < n) →
  handleSend_within n (λ q, settled (fetch q)) now1 now2 r p
  = handleSend fetch now1 now2 r p.
Proof.
  intros Hn. unfold Live.handleSend_within, ChatPage.handleSend.
  destruct (trim (input r)) as [|c s]; [reflexivity|].
  destruct (isStreaming r); [reflexivity|].
  destruct (r_currentDocument r) as [doc|]; [|reflexivity].
  rewrite chatStream_within_settled by (intros reads fin; apply Hn).
  reflexivity.
Qed.

(** X8.  A turn that is sent has, from its start, cleared the input and
    put its two messages at the end of the history; it is over, with
    streaming off, exactly when the generator has finished or an element
    that is not clean (one that carries an error) has come, and the
    assistant message is then not empty.  Until then streaming stays on:
    there is no time-out, and a connection that neither ends nor sends
    such an element keeps the page streaming. *)
Theorem handleSend_over_when_the_stream_stops n
    (fetch : ChatRequest → open_fetch) now1 now2 (p : Page) doc :
  trim (p_input p) ≠ [] →
  p_isStreaming p = false →
  currentDocument (store p) = Some doc →
  p_input (snd (handleSend_within n fetch now1 now2 (render p) p)) = []
  ∧ (∃ reply,
       chatHistory
         (store (snd (handleSend_within n fetch now1 now2 (render p) p)))
       = chatHistory (store p)
         ++ [mkChatMessage user (trim (p_input p)) (Some now1);
             mkChatMessage assistant reply (Some now2)]
       ∧ (p_isStreaming (snd (handleSend_within n fetch now1 now2 (render p) p))
          = false →
          reply ≠ []))
  ∧ (p_isStreaming (snd (handleSend_within n fetch now1 now2 (render p) p))
     = false
     ↔ (∃ g, chatStream_within n fetch (id doc) (trim (p_input p))
               (chatHistory (store p)) = Finished g)
       ∨ (∃ so_far,
            chatStream_within n fetch (id doc) (trim (p_input p))
              (chatHistory (store p)) = Running so_far
            ∧ forallb clean so_far = false)).
Proof.
  intros Hin Hst Hdoc.
  assert (replying
            (chatHistory (store p)
               ++ [mkChatMessage user (trim (p_input p)) (Some now1)])
            (Some now2) [] (opened now1 now2 doc p)) as Hopen.
  { exists []. split; [apply TurnLaws.opened_history|congruence]. }
  destruct (chatStream_within n fetch (id doc) (trim (p_input p))
              (chatHistory (store p))) as [so_far|g] eqn:E.
  - rewrite (handleSend_within_running n fetch now1 now2 p doc so_far
               Hin Hst Hdoc E).
    destruct (reading_frame [] so_far (opened now1 now2 doc p))
      as (Hi & Hs & Hstopped).
    destruct (reading_reply _ _ [] so_far (opened now1 now2 doc p) Hopen)
      as (c & Hc & Hne).
    rewrite <- app_assoc in Hc.
    set (R := reading [] so_far (opened now1 now2 doc p)) in *.
    cbn [snd].
    destruct (snd R) eqn:Stopped;
      cbn [p_input p_isStreaming store setIsStreaming].
    + split; [exact Hi|]. split.
      * exists c. split; [exact Hc|intros _; exact (Hne eq_refl)].
      * split; [|reflexivity]. intros _. right. exists so_far.
        split; [reflexivity|].
        apply negb_true_iff. symmetry. exact Hstopped.
    + split; [exact Hi|]. split.
      * exists c. split; [exact Hc|]. rewrite Hs. discriminate.
      * rewrite Hs. split; [discriminate|].
        intros [[g Hg]|(ys & Hys & Hclean)]; [discriminate|].
        injection Hys as <-. rewrite Hclean in Hstopped. discriminate.
  - rewrite (handleSend_within_finished n fetch now1 now2 p doc g
               Hin Hst Hdoc E).
    simpl. split; [|split].
    + rewrite (proj1 (TurnLaws.consume_frame ToString [] (yielded g) (finish g)
                        (opened now1 now2 doc p))).
      reflexivity.
    + destruct (TurnLaws.consume_reply ToString _ _ [] (yielded g) (finish g)
                  (opened now1 now2 doc p) Hopen) as (c & Hc & Hne).
      exists c. split; [|intros _; exact Hne].
      rewrite Hc, <- app_assoc. reflexivity.
    + split; [|reflexivity]. intros _. left. exists g. reflexivity.
Qed.

End WithPlatform.

(** On the connection that never ends the generator never finishes: after
    [n] reads it has yielded [n] elements and goes on. *)
Lemma endless_runs (n : nat) :
  ∀ i, read_within JSONText.parse n [] endless_body i
       = Running (repeat endless_element n).
Proof.
  assert (Api.process_lines JSONText.parse
            (removelast (split newline ([] ++ sse "{'content':'la','done':false}")))
          = ([endless_element], false)) as Hlines.
  { vm_compute. reflexivity. }
  assert (default [] (last (split newline
                              ([] ++ sse "{'content':'la','done':false}")))
          = []) as Hrest.
  { vm_compute. reflexivity. }
  induction n as [|n IH]; intros i; [reflexivity|].
  rewrite (read_within_value JSONText.parse n [] endless_body i
             (sse "{'content':'la','done':false}") eq_refl).
  rewrite Hlines, Hrest. simpl. rewrite IH. reflexivity.
Qed.



(** The sample page on a connection that sends one element and stalls:
    the page stays streaming, with what has come so far as the assistant
    message, and a second send is blocked; on a connection that is
    closed the turn is over. *)
Example handleSend_within_sample :
  let p' := snd (handleSend_within JSONText.parse Samples.ToString 7 stalled
                   10 11 (render sample_page) sample_page) in
  p_isStreaming p' = true
  ∧ List.map (λ m, (role m, content m)) (chatHistory (store p'))
    = [(user, js "q1"); (assistant, js "a1");
       (user, js "and then?"); (assistant, js "la")]
  ∧ p_isStreaming
      (snd (handleSend_within JSONText.parse Samples.ToString 7
              (λ q, settled (serve body_two_chunks q))
              10 11 (render sample_page) sample_page))
    = false.
Proof. vm_compute. repeat split. Qed.

End LiveFacts.

(* ===================================================================== *)
(** * The laws above on the sample data *)
(* ===================================================================== *)

Module Instances.
Import JS Store Api ChatPage Turns Samples.

Lemma chatStream_cut_independent_witness :
  yielded (chatStream JSONText.parse Samples.ToString
             (answer body_with_malformed_line Closed) (js "d1") (js "hi") [])
  = yielded (chatStream JSONText.parse Samples.ToString
               (answer [concat body_with_malformed_line] (Failed (js "reset")))
               (js "d1") (js "hi") []).
Proof.
  apply (StreamLaws.chatStream_cut_independent JSONText.parse Samples.ToString).
  vm_compute. reflexivity.
Defined.

Lemma chatStream_drops_unterminated_line_witness :
  yielded (chatStream JSONText.parse Samples.ToString
             (answer (body_without_done ++ [unterminated_event]) Closed)
             (js "d1") (js "hi") [])
  = yielded (chatStream JSONText.parse Samples.ToString
               (answer body_without_done Closed) (js "d1") (js "hi") []).
Proof.
  apply (StreamLaws.chatStream_drops_unterminated_line
           JSONText.parse Samples.ToString).
  intros H. apply list_elem_of_In in H. cbv in H.
  repeat (destruct H as [H|H]; [discriminate|]). exact H.
Defined.

Lemma chatStream_ignores_body_after_done_witness :
  chatStream JSONText.parse Samples.ToString
    (answer (body_two_chunks ++ body_without_done) (Failed (js "reset")))
    (js "d1") (js "hi") []
  = mkGenerated
      (yielded (chatStream JSONText.parse Samples.ToString
                  (answer body_two_chunks Closed) (js "d1") (js "hi") []))
      (Normal tt).
Proof.
  apply (StreamLaws.chatStream_ignores_body_after_done
           JSONText.parse Samples.ToString).
  exists [JObj [(js "content", JStr (js "It ")); (js "done", JBool false)]],
    (JObj [(js "content", JStr (js "ends.")); (js "done", JBool true)]).
  split; vm_compute; reflexivity.
Defined.

Lemma chatStream_skips_other_lines_witness :
  yielded (chatStream JSONText.parse Samples.ToString
             (answer body_with_other_lines Closed) (js "d1") (js "hi") [])
  = [JObj [(js "content", JStr (js "a")); (js "done", JBool false)];
     JObj [(js "content", JStr (js "b")); (js "done", JBool true)]].
Proof.
  refine (eq_trans
            (StreamLaws.chatStream_skips_other_lines
               JSONText.parse Samples.ToString body_with_other_lines Closed
               [js ": ping"]
               (quoted "data:{'content':'no space','done':false}")
               [js "data:   "; quoted "data: {'content':'a','done':false}"; [];
                quoted "data: {'content':'b','done':true}"; []]
               (js "d1") (js "hi") [] _ _) _).
  - vm_compute. reflexivity.
  - left. vm_compute. reflexivity.
  - vm_compute. reflexivity.
Defined.

Lemma handleSend_blocked_witness :
  handleSend JSONText.parse Samples.ToString (serve body_two_chunks) 10 11
    (render blank_page) blank_page
  = ([], blank_page).
Proof.
  apply (TurnLaws.handleSend_blocked JSONText.parse Samples.ToString).
  left. vm_compute. reflexivity.
Defined.

Lemma handleSend_joins_contents_witness :
  toasts (snd (handleSend JSONText.parse Samples.ToString
                 (serve body_two_chunks) 10 11 (render sample_page) sample_page))
  = [].
Proof.
  refine (proj1 (proj2
            (TurnLaws.handleSend_joins_contents JSONText.parse Samples.ToString
               (serve body_two_chunks) 10 11 sample_page sample_document
               _ _ _ _ _))).
  - vm_compute. discriminate.
  - reflexivity.
  - reflexivity.
  - vm_compute. reflexivity.
  - vm_compute. reflexivity.
Defined.

Lemma handleSend_request_failed_witness :
  fst (handleSend JSONText.parse Samples.ToString (λ _, Resolved NoBody) 10 11
         (render sample_page) sample_page)
  = [].
Proof.
  refine (proj1 (TurnLaws.handleSend_request_failed JSONText.parse Samples.ToString
                   (λ _, Resolved NoBody) 10 11 sample_page sample_document
                   _ _ _ _)).
  - vm_compute. discriminate.
  - reflexivity.
  - reflexivity.
  - intros reads fin. discriminate.
Defined.

Lemma match_chunks_distinct_witness : NoDup (List.map Db.id sample_rows).
Proof.
  apply (SearchLaws.match_chunks_distinct unit_cosine_distance sample_db axis1
           1%N Db.omitted sample_rows).
  vm_compute. reflexivity.
Defined.

Lemma sample_db_dimensions_ok : Db.dimensions_ok sample_db.
Proof.
  apply DbFacts.embeddings_dimensions_ok.
  apply (DbFacts.run_embeddings_ok sample_statements Db.empty).
  apply DbFacts.empty_embeddings_ok.
Qed.

Lemma match_chunks_count_edges_witness :
  (∃ rows,
     Db.match_chunks_with unit_cosine_distance (Db.index_scan {[11%N; 13%N; 21%N]})
       sample_db axis1 1%N (Db.given None)
     = Db.Ok rows
     ∧ length rows = 2)
  ∧ Db.match_chunks_with unit_cosine_distance (Db.index_scan {[11%N; 13%N; 21%N]})
      sample_db axis1 1%N (Db.given (Some 0%Z))
    = Db.Ok []
  ∧ Db.match_chunks_with unit_cosine_distance (Db.index_scan {[11%N; 13%N; 21%N]})
      sample_db axis1 1%N (Db.given (Some (-3)%Z))
    = Db.Err Db.negative_limit.
Proof.
  destruct (SearchLaws.match_chunks_count_edges unit_cosine_distance
              (Db.index_scan {[11%N; 13%N; 21%N]}) sample_db axis1 1%N
              sample_db_dimensions_ok eq_refl)
    as ((rows & Hrows & Hlen & _) & Hzero & Hnegative).
  split; [|split].
  - exists rows. split; [exact Hrows|]. rewrite Hlen. vm_compute. reflexivity.
  - exact Hzero.
  - apply Hnegative. vm_compute. split; [discriminate|reflexivity].
Defined.

Lemma delete_document_cascades_witness :
  Db.match_chunks_with unit_cosine_distance (Db.index_scan {[11%N; 21%N]})
    (Db.delete_document 1%N sample_db) axis1 1%N Db.omitted
  = Db.Ok []
  ∧ Db.match_chunks_with unit_cosine_distance Db.seq_scan
      (Db.delete_document 1%N sample_db) [1%Q] 1%N (Db.given (Some 3%Z))
    = Db.Ok []
  ∧ ∃ before after,
      Db.match_chunks_with unit_cosine_distance (Db.index_scan {[11%N; 21%N]})
        sample_db axis1 2%N (Db.given None)
      = Db.Ok before
      ∧ Db.match_chunks_with unit_cosine_distance (Db.index_scan {[11%N; 21%N]})
          (Db.delete_document 1%N sample_db) axis1 2%N (Db.given None)
        = Db.Ok after
      ∧ after ≡ₚ before.
Proof.
  split; [|split].
  - apply (proj1 (SearchLaws.delete_document_cascades unit_cosine_distance
                    (Db.index_scan {[11%N; 21%N]}) sample_db 1%N)).
    + right. reflexivity.
    + exact I.
  - apply (proj1 (SearchLaws.delete_document_cascades unit_cosine_distance
                    Db.seq_scan sample_db 1%N)).
    + left. reflexivity.
    + vm_compute. split; discriminate.
  - apply (proj2 (SearchLaws.delete_document_cascades unit_cosine_distance
                    (Db.index_scan {[11%N; 21%N]}) sample_db 1%N)).
    + exact sample_db_dimensions_ok.
    + reflexivity.
    + discriminate.
Defined.

Lemma chunks_reference_documents_witness :
  is_Some (Db.documents (Db.run sample_statements Db.empty) !! 1%N).
Proof.
  apply (SearchLaws.chunks_reference_documents sample_statements 13%N sample_chunk).
  vm_compute. reflexivity.
Defined.

Lemma extractErrorMessage_text_witness :
  (∃ t, Fetch.body empty_gateway_error = Some t ∧ length t < 200
        ∧ Fetch.extractErrorMessage JSONText.parse empty_gateway_error
            (js "Failed to process video") = JStr t)
  ∨ ((∀ t, Fetch.body empty_gateway_error = Some t → 200 ≤ length t)
     ∧ Fetch.extractErrorMessage JSONText.parse empty_gateway_error
         (js "Failed to process video")
       = JStr (js "Failed to process video" ++ js " (HTTP "
               ++ Fetch.N_text (Fetch.status empty_gateway_error) ++ js ")")).
Proof.
  apply (FetchFacts.extractErrorMessage_text JSONText.parse).
  vm_compute. reflexivity.
Defined.

Lemma extractErrorMessage_falsy_witness :
  truthy (Some (Fetch.extractErrorMessage JSONText.parse empty_gateway_error
                  (js "Failed to process video"))) = false.
Proof.
  apply (FetchFacts.extractErrorMessage_falsy JSONText.parse).
  - vm_compute. discriminate.
  - split; vm_compute; reflexivity.
Defined.

Lemma wrappers_throw_detail_witness :
  Fetch.generateQuiz JSONText.parse Samples.ToString
    (λ _, Fetch.Response refusal) (js "d1")
  = Throw (js "Document not found").
Proof.
  refine (proj2 (proj2 (proj2
            (FetchFacts.wrappers_throw_detail JSONText.parse Samples.ToString
               (λ _, Fetch.Response refusal) refusal
               (JObj [(js "detail", JStr (js "Document not found"))])
               68%N (js "ocument not found")
               (js "https://youtu.be/x") (js "d1") sample_file _ _ _ _ _)))).
  - reflexivity.
  - reflexivity.
  - vm_compute. reflexivity.
  - vm_compute. reflexivity.
  - vm_compute. reflexivity.
Defined.

Lemma submitted_quiz_is_complete_witness :
  is_Some
    (QuizPage.userAnswers
       (QuizPage.after sample_quiz_visit (QuizPage.mount (Some sample_document) []))
     !! 1).
Proof.
  apply (proj1 (QuizPageFacts.submitted_quiz_is_complete
                  (Some sample_document) [] sample_quiz_visit)).
  - vm_compute. reflexivity.
  - vm_compute. lia.
Defined.

Lemma score_bound_and_full_marks_witness :
  Quiz.score sample_answers sample_quiz = length sample_quiz.
Proof.
  apply (proj2 (proj1 (proj2
           (QuizPageFacts.score_bound_and_full_marks sample_answers sample_quiz)))).
  intros [|[|i]] q Hq; simpl in Hq; try discriminate;
    injection Hq as <-; vm_compute; reflexivity.
Defined.

Lemma toggleExplanation_twice_witness :
  2 ∈ QuizPage.expandedExplanations
        (QuizPage.toggleExplanation 1
           (QuizPage.toggleExplanation 2
              (QuizPage.mount (Some sample_document) sample_quiz))).
Proof.
  apply (proj2 (QuizPageFacts.toggleExplanation_twice 1
                  (QuizPage.toggleExplanation 2
                     (QuizPage.mount (Some sample_document) sample_quiz))) 2).
  - discriminate.
  - vm_compute. reflexivity.
Defined.

Lemma shown_card_exists_witness :
  is_Some
    (FlashcardsPage.current_card
       (FlashcardsPage.after sample_cards_visit
          (FlashcardsPage.mount (Some sample_document) sample_cards))).
Proof.
  apply (proj1 (FlashcardsPageFacts.shown_card_exists
                  (Some sample_document) sample_cards sample_cards_visit
                  ltac:(vm_compute; discriminate))).
Defined.

Lemma next_and_prev_witness :
  FlashcardsPage.currentIndex
    (FlashcardsPage.next
       (FlashcardsPage.after sample_cards_visit
          (FlashcardsPage.mount (Some sample_document) sample_cards)))
  = 2%Z.
Proof.
  refine (eq_trans (proj1 (FlashcardsPageFacts.next_and_prev
                    (Some sample_document) sample_cards sample_cards_visit _)) _).
  - vm_compute. discriminate.
  - vm_compute. reflexivity.
Defined.

Lemma upload_replaces_the_document_witness :
  UploadPage.status
    (UploadPage.handleVideoSubmit sample_progress 2 (Normal sample_video)
       sample_upload)
  = UploadPage.done.
Proof.
  refine (proj1 (proj2 (proj1
            (UploadPageFacts.upload_replaces_the_document sample_progress 2
               sample_upload sample_video sample_file sample_pdf) _))).
  vm_compute. discriminate.
Defined.

Lemma failed_upload_keeps_the_store_witness :
  UploadPage.handleFile sample_progress upper_case_file 3 (Normal sample_pdf)
    sample_upload
  = UploadPage.toast (js "Please upload a PDF file.") None sample_upload.
Proof.
  refine (proj1 (proj2
            (UploadPageFacts.failed_upload_keeps_the_store sample_progress 3
               sample_upload (js "boom") upper_case_file
               (Throw (js "boom")) (Normal sample_pdf))) _).
  vm_compute. reflexivity.
Defined.

Lemma handleSend_over_when_the_stream_stops_witness :
  p_input
    (snd (Live.handleSend_within JSONText.parse Samples.ToString 7 stalled
            10 11 (render sample_page) sample_page))
  = []
  ∧ (∃ reply,
       chatHistory
         (store (snd (Live.handleSend_within JSONText.parse Samples.ToString 7
                        stalled 10 11 (render sample_page) sample_page)))
       = chatHistory (store sample_page)
         ++ [mkChatMessage user (trim (p_input sample_page)) (Some 10%Z);
             mkChatMessage assistant reply (Some 11%Z)]
       ∧ (p_isStreaming
            (snd (Live.handleSend_within JSONText.parse Samples.ToString 7
                    stalled 10 11 (render sample_page) sample_page))
          = false →
          reply ≠ []))
  ∧ (p_isStreaming
       (snd (Live.handleSend_within JSONText.parse Samples.ToString 7 stalled
               10 11 (render sample_page) sample_page))
     = false
     ↔ (∃ g, Live.chatStream_within JSONText.parse Samples.ToString 7 stalled
               (id sample_document) (trim (p_input sample_page))
               (chatHistory (store sample_page))
             = Live.Finished g)
       ∨ (∃ so_far,
            Live.chatStream_within JSONText.parse Samples.ToString 7 stalled
              (id sample_document) (trim (p_input sample_page))
              (chatHistory (store sample_page))
            = Live.Running so_far
            ∧ forallb clean so_far = false)).
Proof.
  apply (LiveFacts.handleSend_over_when_the_stream_stops JSONText.parse
           Samples.ToString 7 stalled 10 11 sample_page sample_document).
  - vm_compute. discriminate.
  - reflexivity.
  - reflexivity.
Defined.

End Instances.
